(** * teardown: binary-format decoders and manifest projector

    A shallow embedding of the JavaScript decoders of the teardown build
    inspector (classes BPlistParser, CrushedPNG, ProtoDecoder,
    ProtoXMLParser, AXMLParser, APKParser and IPAParser) and the
    properties the specification states about them.

    Conventions of the embedding.
    - A JavaScript string is the list of its UTF-16 code units.
    - [undefined] read from an array or typed array is [None].
    - Numbers that stay below 2^53 are integers of [Z]; where the code can
      leave that range (big-endian reads of the plist decoder, fixed64 of
      the protobuf decoder) the IEEE-754 rounding is written out.
    - Floating-point payloads (plist reals and dates, AXML floats) are
      carried as their bit patterns; they are never inspected by the code.
    - An exception is a value of [exn]; a computation that can throw
      returns [result]; a recursion whose depth depends on the input takes
      the allowed depth as [fuel] and returns [None] when it is exceeded.
      Where a caller catches what the engine raises when its call stack
      is exhausted ([IPAParser.parse]), the decoder is taken with that
      exception in place of the missing result.
    - A plain object whose keys come from the input (the attributes of an
      element, the namespace table) is the [gmap] of its own properties
      together with what it inherits from [Object.prototype]: the
      assignment to [__proto__] and the reads of inherited names behave as
      in the engine ([XmlTree.assign], [XmlTree.attr_key]).
    - Reading an archive entry yields its bytes or the exception the read
      is rejected with. *)

From Stdlib Require Import ZArith Lia String Ascii List Bool.
From stdpp Require Import base decidable countable option list gmap.

Set Warnings "-register-all".
Local Open Scope Z_scope.

(** ** JavaScript values shared by all decoders *)

Module JS.

Definition jsstring := list Z.

(** The code units of an ASCII literal of the source. *)
Definition lit (s : string) : jsstring :=
  map (fun a => Z.of_nat (nat_of_ascii a)) (list_ascii_of_string s).

(** Exceptions: [new Error(msg)] of the source, and the RangeError the
    engine raises for an out-of-bounds DataView or typed-array view, or
    an invalid array length (its message is engine-defined). *)
Inductive exn :=
| Error (msg : string)
| RangeError.

Inductive result (A : Type) :=
| Ok (a : A)
| Throw (e : exn).
Arguments Ok {A} a.
Arguments Throw {A} e.

Definition bind {A B} (r : result A) (k : A -> result B) : result B :=
  match r with
  | Ok a => k a
  | Throw e => Throw e
  end.

(** Nearest double of an integer, ties to even (53-bit significand). *)
Definition round53 (z : Z) : Z :=
  let a := Z.abs z in
  if a <? 2 ^ 53 then z
  else
    let e := Z.log2 a - 52 in
    let q := Z.shiftr a e in
    let r := Z.land a (Z.ones e) in
    let half := 2 ^ (e - 1) in
    let q' := if (half <? r) || ((r =? half) && Z.odd q) then q + 1 else q in
    Z.sgn z * Z.shiftl q' e.

(** A JavaScript number whose finite values are integers. *)
Inductive num :=
| Fin (z : Z)
| Inf (negative : bool)
| NaN.

Definition fl (z : Z) : num :=
  let r := round53 z in
  if 2 ^ 1024 <=? Z.abs r then Inf (z <? 0) else Fin r.

Definition add (x y : num) : num :=
  match x, y with
  | Fin a, Fin b => fl (a + b)
  | NaN, _ | _, NaN => NaN
  | Inf s, Fin _ | Fin _, Inf s => Inf s
  | Inf s, Inf s' => if Bool.eqb s s' then Inf s else NaN
  end.

Definition mul (x y : num) : num :=
  match x, y with
  | Fin a, Fin b => fl (a * b)
  | NaN, _ | _, NaN => NaN
  | Inf s, Fin b | Fin b, Inf s =>
      if b =? 0 then NaN else Inf (xorb s (b <? 0))
  | Inf s, Inf s' => Inf (xorb s s')
  end.

(** [undefined] in arithmetic is NaN. *)
Definition num_of (o : option Z) : num :=
  match o with
  | Some z => Fin z
  | None => NaN
  end.

(** [a[i]] on an array or typed array: an element for an integer index in
    range, [undefined] for anything else. *)
Definition idx {A} (l : list A) (i : num) : option A :=
  match i with
  | Fin z => if z <? 0 then None else l !! Z.to_nat z
  | _ => None
  end.

(** [x & m] where [x] may be [undefined] (ToInt32 of NaN is 0); [x] is a
    byte wherever the decoders use it. *)
Definition band (x : option Z) (m : Z) : Z :=
  match x with
  | Some z => Z.land z m
  | None => 0
  end.

(** ToIndex of the DataView accessors: NaN is 0, a negative or infinite
    offset is a RangeError. *)
Definition toIndex (n : num) : result Z :=
  match n with
  | Fin z => if z <? 0 then Throw RangeError else Ok z
  | NaN => Ok 0
  | Inf _ => Throw RangeError
  end.

(** The [size] bytes at [off], or RangeError when the view would leave
    the buffer. *)
Definition view_bytes (buf : list Z) (off size : Z) : result (list Z) :=
  if (off <? 0) || (Z.of_nat (length buf) <? off + size)
  then Throw RangeError
  else Ok (take (Z.to_nat size) (drop (Z.to_nat off) buf)).

Definition be_value (bs : list Z) : Z :=
  fold_left (fun acc b => acc * 256 + b) bs 0.

Definition le_value (bs : list Z) : Z :=
  fold_right (fun b acc => b + 256 * acc) 0 bs.

(** [new TextDecoder('utf-8').decode(bytes)] after the WHATWG Encoding
    standard: ill-formed sequences become U+FFFD, a leading byte order
    mark is dropped, code points above U+FFFF become surrogate pairs. *)
Record utf8_state := {
  u_cp : Z;
  u_seen : Z;
  u_needed : Z;
  u_lower : Z;
  u_upper : Z
}.

Definition utf8_init : utf8_state :=
  {| u_cp := 0; u_seen := 0; u_needed := 0; u_lower := 128; u_upper := 191 |}.

Definition code_units (cp : Z) : jsstring :=
  if cp <? 65536 then [cp]
  else [55296 + (cp - 65536) / 1024; 56320 + (cp - 65536) mod 1024].

Definition utf8_lead (b : Z) : utf8_state * jsstring :=
  if b <=? 127 then (utf8_init, [b])
  else if (194 <=? b) && (b <=? 223) then
    ({| u_cp := Z.land b 31; u_seen := 0; u_needed := 1;
        u_lower := 128; u_upper := 191 |}, [])
  else if (224 <=? b) && (b <=? 239) then
    ({| u_cp := Z.land b 15; u_seen := 0; u_needed := 2;
        u_lower := if b =? 224 then 160 else 128;
        u_upper := if b =? 237 then 159 else 191 |}, [])
  else if (240 <=? b) && (b <=? 244) then
    ({| u_cp := Z.land b 7; u_seen := 0; u_needed := 3;
        u_lower := if b =? 240 then 144 else 128;
        u_upper := if b =? 244 then 143 else 191 |}, [])
  else (utf8_init, [65533]).

Definition utf8_step (st : utf8_state) (b : Z) : utf8_state * jsstring :=
  if u_needed st =? 0 then utf8_lead b
  else if (b <? u_lower st) || (u_upper st <? b) then
    let '(st', out) := utf8_lead b in (st', 65533 :: out)
  else
    let cp := Z.lor (Z.shiftl (u_cp st) 6) (Z.land b 63) in
    if u_seen st + 1 =? u_needed st then (utf8_init, code_units cp)
    else ({| u_cp := cp; u_seen := u_seen st + 1; u_needed := u_needed st;
             u_lower := 128; u_upper := 191 |}, []).

Fixpoint utf8_run (st : utf8_state) (bs : list Z) : jsstring :=
  match bs with
  | [] => if u_needed st =? 0 then [] else [65533]
  | b :: bs' => let '(st', out) := utf8_step st b in out ++ utf8_run st' bs'
  end.

Definition utf8_decode (bs : list Z) : jsstring :=
  match utf8_run utf8_init bs with
  | 65279 :: s => s
  | s => s
  end.

(** [n.toString(16)] of a non-negative integer. *)
Fixpoint hex_digits (fuel : nat) (z : Z) (acc : jsstring) : jsstring :=
  match fuel with
  | O => acc
  | S fuel' =>
      let d := z mod 16 in
      let acc' := (if d <? 10 then 48 + d else 87 + d) :: acc in
      if z / 16 =? 0 then acc' else hex_digits fuel' (z / 16) acc'
  end.

Definition toString16 (z : Z) : jsstring :=
  hex_digits (S (Z.to_nat (Z.log2 z))) z [].

(** Typed-array and array reads and writes at an integer index. *)
Definition get {A} (l : list A) (i : Z) : option A :=
  if i <? 0 then None else l !! Z.to_nat i.

#[global] Instance num_eq_dec : EqDecision num.
Proof. solve_decision. Defined.

Definition num_enc (n : num) : option (Z + bool) :=
  match n with
  | Fin z => Some (inl z)
  | Inf s => Some (inr s)
  | NaN => None
  end.

Definition num_dec (o : option (Z + bool)) : num :=
  match o with
  | Some (inl z) => Fin z
  | Some (inr s) => Inf s
  | None => NaN
  end.

#[global] Instance num_countable : Countable num.
Proof.
  apply (inj_countable' num_enc num_dec).
  intros []; reflexivity.
Defined.

End JS.

(** ** bplist-parser.js: class BPlistParser *)

Module BPlistParser.
Import JS.

(** The values the decoder builds.  A real and a date keep the
    big-endian bytes of their IEEE-754 payload; a dictionary keeps its
    assignments [dict[k] = v] in program order (the coercion of [k] to a
    property name is left to the reader of the record). *)
Inductive jsval :=
| JUndefined
| JNull
| JBool (b : bool)
| JNum (n : num)
| JReal (payload : list Z)
| JDate (payload : list Z)
| JData (content : list Z)
| JStr (s : jsstring)
| JUid (n : num)
| JArr (items : list jsval)
| JDict (entries : list (jsval * jsval)).

(** The fields of a parser instance that stay fixed while objects are
    decoded: [this.bytes], [this.offsets], [this.objectRefSize]. *)
Record parser := {
  bytes : list Z;
  offsets : list num;
  objectRefSize : option Z
}.

(** [this._parsed], the cache from object index to parsed value. *)
Abbreviation cache := (gmap num jsval).

(** Decoding threads the cache, may throw, and may exceed the depth. *)
Definition M (A : Type) : Type := cache -> option (result A * cache).

Definition ret {A} (a : A) : M A := fun c => Some (Ok a, c).
Definition mbind {A B} (m : M A) (k : A -> M B) : M B :=
  fun c =>
    match m c with
    | Some (Ok a, c') => k a c'
    | Some (Throw e, c') => Some (Throw e, c')
    | None => None
    end.
Definition lift {A} (r : result A) : M A := fun c => Some (r, c).
Definition lift_opt {A} (o : option (result A)) : M A :=
  fun c => match o with Some r => Some (r, c) | None => None end.

Notation "'do' x <- m ; k" := (mbind m (fun x => k))
  (at level 10, x name, m at level 100, k at level 200).

(** A computation that only adds to the cache. *)
Definition grows {A} (m : M A) : Prop :=
  forall c r c', m c = Some (r, c') -> c ⊆ c'.

(** A computation that ends, with a value or an exception, from every
    cache. *)
Definition returns {A} (m : M A) : Prop := forall c, is_Some (m c).

Definition byteAt (p : parser) (i : num) : option Z := idx (bytes p) i.

Fixpoint readBE_loop (p : parser) (offset : num) (n : nat) (i : Z) (val : num) : num :=
  match n with
  | O => val
  | S n' =>
      readBE_loop p offset n' (i + 1)
        (add (mul val (Fin 256)) (num_of (byteAt p (add offset (Fin i)))))
  end.

(** [size] is a byte of the trailer (or [undefined] when the buffer is
    too short for one), 8, [1 << info] or [info + 1]. *)
Definition _readBigEndian (p : parser) (offset : num) (size : option Z) : num :=
  match size with
  | Some s => readBE_loop p offset (Z.to_nat s) 0 (Fin 0)
  | None => Fin 0
  end.

Fixpoint ascii_loop (p : parser) (offset : num) (n : nat) (i : Z) (s : jsstring) : jsstring :=
  match n with
  | O => s
  | S n' =>
      ascii_loop p offset n' (i + 1)
        (s ++ [default 0 (byteAt p (add offset (Fin i)))])
  end.

(** [for (i = 0; i < len; i++) s += ...]: the body cannot throw, so the
    loop is left only when [i < len] fails; the counter stops growing at
    2^53, hence no exit for a larger or infinite [len]. *)
Definition _ascii (p : parser) (offset len : num) : option jsstring :=
  match len with
  | Fin c =>
      if c <=? 2 ^ 53 then Some (ascii_loop p offset (Z.to_nat c) 0 []) else None
  | Inf false => None
  | Inf true | NaN => Some []
  end.

Definition _getCount (p : parser) (offset : num) (info : Z) : num * num :=
  if negb (info =? 15) then (Fin info, Fin 1)
  else
    let intMarker := byteAt p (add offset (Fin 1)) in
    let intInfo := band intMarker 15 in
    let byteCount := Z.shiftl 1 intInfo in
    let count := _readBigEndian p (add offset (Fin 2)) (Some byteCount) in
    (count, Fin (2 + byteCount)).

Definition _parseSimple (info : Z) : jsval :=
  if info =? 8 then JBool false
  else if info =? 9 then JBool true
  else JNull.

Definition _parseInt (p : parser) (offset : num) (info : Z) : jsval :=
  let byteCount := Z.shiftl 1 info in
  JNum (_readBigEndian p (add offset (Fin 1)) (Some byteCount)).

(** [this.view.getFloat32/64(off, false)]. *)
Definition getFloat (p : parser) (off : num) (size : Z) : result (list Z) :=
  bind (toIndex off) (fun o => view_bytes (bytes p) o size).

Definition _parseReal (p : parser) (offset : num) (info : Z) : result jsval :=
  let byteCount := Z.shiftl 1 info in
  if byteCount =? 4 then bind (getFloat p (add offset (Fin 1)) 4) (fun b => Ok (JReal b))
  else if byteCount =? 8 then bind (getFloat p (add offset (Fin 1)) 8) (fun b => Ok (JReal b))
  else Ok (JNum (Fin 0)).

Definition _parseDate (p : parser) (offset : num) : result jsval :=
  bind (getFloat p (add offset (Fin 1)) 8) (fun b => Ok (JDate b)).

(** ToIntegerOrInfinity and clamping of [TypedArray.prototype.slice]. *)
Definition clamp (len : Z) (n : num) : Z :=
  match n with
  | Fin z => if z <? 0 then Z.max (len + z) 0 else Z.min z len
  | Inf true => 0
  | Inf false => len
  | NaN => 0
  end.

Definition slice (l : list Z) (s e : num) : list Z :=
  let len := Z.of_nat (length l) in
  let k := clamp len s in
  let f := clamp len e in
  take (Z.to_nat (f - k)) (drop (Z.to_nat k) l).

Definition _parseData (p : parser) (offset : num) (info : Z) : jsval :=
  let '(count, headerLen) := _getCount p offset info in
  JData (slice (bytes p) (add offset headerLen) (add (add offset headerLen) count)).

Definition _parseAscii (p : parser) (offset : num) (info : Z) : option jsval :=
  let '(count, headerLen) := _getCount p offset info in
  JStr <$> _ascii p (add offset headerLen) count.

(** [this.view.getUint16(off, false)]. *)
Definition getUint16BE (p : parser) (off : num) : result Z :=
  bind (toIndex off) (fun o => bind (view_bytes (bytes p) o 2) (fun b => Ok (be_value b))).

Fixpoint unicode_loop (p : parser) (start : num) (n : nat) (i : Z) (s : jsstring)
  : result jsstring :=
  match n with
  | O => Ok s
  | S n' =>
      bind (getUint16BE p (add start (mul (Fin i) (Fin 2))))
        (fun u => unicode_loop p start n' (i + 1) (s ++ [u]))
  end.

(** A loop that cannot reach its bound ends only by an exception. *)
Definition no_exit {A} (r : result A) : option (result A) :=
  match r with
  | Ok _ => None
  | Throw e => Some (Throw e)
  end.

Definition _parseUnicode (p : parser) (offset : num) (info : Z) : option (result jsval) :=
  let '(count, headerLen) := _getCount p offset info in
  let start := add offset headerLen in
  let run n := bind (unicode_loop p start n 0 []) (fun s => Ok (JStr s)) in
  match count with
  | Fin c =>
      if c <=? 2 ^ 53 then Some (run (Z.to_nat c))
      else no_exit (run (Z.to_nat (2 ^ 53)))
  | Inf false => no_exit (run (Z.to_nat (2 ^ 53)))
  | Inf true | NaN => Some (Ok (JStr []))
  end.

Definition _parseUid (p : parser) (offset : num) (info : Z) : jsval :=
  let byteCount := info + 1 in
  JUid (_readBigEndian p (add offset (Fin 1)) (Some byteCount)).

(** [new Array(count)] accepts an integer in [0, 2^32 - 1]. *)
Definition array_length (count : num) : result Z :=
  match count with
  | Fin c => if (0 <=? c) && (c <? 2 ^ 32) then Ok c else Throw RangeError
  | _ => Throw RangeError
  end.

Section Containers.
(** The recursive call [this._parseObject(ref)]. *)
Variable parseObject : num -> M jsval.
Variable p : parser.

Definition readRef (start : num) (i : Z) : num :=
  _readBigEndian p (add start (mul (Fin i) (num_of (objectRefSize p))))
    (objectRefSize p).

Fixpoint array_loop (refsStart : num) (n : nat) (i : Z) (arr : list jsval)
  : M (list jsval) :=
  match n with
  | O => ret arr
  | S n' =>
      do v <- parseObject (readRef refsStart i) ;
      array_loop refsStart n' (i + 1) (arr ++ [v])
  end.

Definition _parseArray (offset : num) (info : Z) : M jsval :=
  let '(count, headerLen) := _getCount p offset info in
  let refsStart := add offset headerLen in
  do c <- lift (array_length count) ;
  do arr <- array_loop refsStart (Z.to_nat c) 0 [] ;
  ret (JArr arr).

Fixpoint dict_loop (keysStart valsStart : num) (n : nat) (i : Z)
    (dict : list (jsval * jsval)) : M (list (jsval * jsval)) :=
  match n with
  | O => ret dict
  | S n' =>
      do k <- parseObject (readRef keysStart i) ;
      do v <- parseObject (readRef valsStart i) ;
      dict_loop keysStart valsStart n' (i + 1) (dict ++ [(k, v)])
  end.

Definition no_exitM {A} (m : M A) : M A :=
  fun c =>
    match m c with
    | Some (Ok _, _) => None
    | other => other
    end.

Definition _parseDict (offset : num) (info : Z) : M jsval :=
  let '(count, headerLen) := _getCount p offset info in
  let keysStart := add offset headerLen in
  let valsStart := add keysStart (mul count (num_of (objectRefSize p))) in
  let run n := dict_loop keysStart valsStart n 0 [] in
  match count with
  | Fin c =>
      if c <=? 2 ^ 53 then (do d <- run (Z.to_nat c) ; ret (JDict d))
      else no_exitM (do d <- run (Z.to_nat (2 ^ 53)) ; ret (JDict d))
  | Inf false => no_exitM (do d <- run (Z.to_nat (2 ^ 53)) ; ret (JDict d))
  | Inf true | NaN => ret (JDict [])
  end.
End Containers.

(** [fuel] bounds the depth of nested [_parseObject] calls. *)
Fixpoint _parseObject (fuel : nat) (p : parser) (index : num) : M jsval :=
  fun c =>
    match fuel with
    | O => None
    | S fuel' =>
        match c !! index with
        | Some v => Some (Ok v, c)
        | None =>
            (* an [undefined] offset only ever indexes [this.bytes] *)
            let offset := default NaN (idx (offsets p) index) in
            let marker := byteAt p offset in
            let type := Z.shiftr (band marker 240) 4 in
            let info := band marker 15 in
            let value : M jsval :=
              if type =? 0 then ret (_parseSimple info)
              else if type =? 1 then ret (_parseInt p offset info)
              else if type =? 2 then lift (_parseReal p offset info)
              else if type =? 3 then lift (_parseDate p offset)
              else if type =? 4 then ret (_parseData p offset info)
              else if type =? 5 then lift_opt (Ok <$> _parseAscii p offset info)
              else if type =? 6 then lift_opt (_parseUnicode p offset info)
              else if type =? 8 then ret (_parseUid p offset info)
              else if type =? 10 then _parseArray (_parseObject fuel' p) p offset info
              else if type =? 12 then _parseArray (_parseObject fuel' p) p offset info
              else if type =? 13 then _parseDict (_parseObject fuel' p) p offset info
              else ret JUndefined in
            match value c with
            | Some (Ok v, c') => Some (Ok v, <[index := v]> c')
            | other => other
            end
        end
    end.

(** The reference graph of a file: the indices that decoding the object
    at [index] passes to [_parseObject], in program order. *)
Definition refs (p : parser) (index : num) : list num :=
  let offset := default NaN (idx (offsets p) index) in
  let marker := byteAt p offset in
  let type := Z.shiftr (band marker 240) 4 in
  let info := band marker 15 in
  let '(count, headerLen) := _getCount p offset info in
  let start := add offset headerLen in
  if (type =? 10) || (type =? 12) then
    match array_length count with
    | Ok n => map (readRef p start) (seqZ 0 n)
    | Throw _ => []
    end
  else if type =? 13 then
    let valsStart := add start (mul count (num_of (objectRefSize p))) in
    match count with
    | Fin c =>
        flat_map (fun i => [readRef p start i; readRef p valsStart i])
          (seqZ 0 (Z.min c (2 ^ 53)))
    | _ => []
    end
  else [].

(** The count of a string or dictionary at [index] is one its loop can
    reach. *)
Definition loop_exits (p : parser) (index : num) : Prop :=
  let offset := default NaN (idx (offsets p) index) in
  let marker := byteAt p offset in
  let type := Z.shiftr (band marker 240) 4 in
  let info := band marker 15 in
  type ∈ [5; 6; 13] ->
  match fst (_getCount p offset info) with
  | Fin c => c <= 2 ^ 53
  | Inf negative => negative = true
  | NaN => True
  end.

Fixpoint offsets_loop (p : parser) (tableOffset : num) (offsetIntSize : option Z)
    (n : nat) (i : Z) (offs : list num) : list num :=
  match n with
  | O => offs
  | S n' =>
      offsets_loop p tableOffset offsetIntSize n' (i + 1)
        (offs ++ [_readBigEndian p
                    (add tableOffset (mul (Fin i) (num_of offsetIntSize)))
                    offsetIntSize])
  end.

(** The state the constructor leaves: no offsets, reference size 0. *)
Definition fresh (buffer : list Z) : parser :=
  {| bytes := buffer; offsets := []; objectRefSize := Some 0 |}.

(** The trailer and offset table: the parser state [parse] reaches before
    it decodes the top object, and the index of that object. *)
Definition load (buffer : list Z) : option (result (parser * num)) :=
  let p0 := fresh buffer in
  match _ascii p0 (Fin 0) (Fin 6) with
  | None => None
  | Some magic =>
      if negb (bool_decide (magic = lit "bplist"))
      then Some (Throw (Error "Not a binary plist file"))
      else
        let tOff := Fin (Z.of_nat (length buffer) - 32) in
        let offsetIntSize := byteAt p0 (add tOff (Fin 6)) in
        let refSize := byteAt p0 (add tOff (Fin 7)) in
        let numObjects := _readBigEndian p0 (add tOff (Fin 8)) (Some 8) in
        let topIndex := _readBigEndian p0 (add tOff (Fin 16)) (Some 8) in
        let tableOffset := _readBigEndian p0 (add tOff (Fin 24)) (Some 8) in
        Some (bind (array_length numObjects) (fun n =>
          let offs := offsets_loop p0 tableOffset offsetIntSize (Z.to_nat n) 0 [] in
          Ok ({| bytes := buffer; offsets := offs; objectRefSize := refSize |},
              topIndex)))
  end.

Definition parse (fuel : nat) (buffer : list Z) : option (result jsval) :=
  match load buffer with
  | None => None
  | Some (Throw e) => Some (Throw e)
  | Some (Ok (p, topIndex)) => fst <$> _parseObject fuel p topIndex ∅
  end.

(** [_parseObject] in an engine whose call stack has room for [depth]
    nested calls of it: the call that no longer fits raises the engine's
    exception [overflow], which nothing in the decoder catches.  It is
    [_parseObject] with the exception in place of the missing result. *)
Fixpoint _parseObject_within (overflow : exn) (depth : nat) (p : parser) (index : num)
  : M jsval :=
  fun c =>
    match depth with
    | O => Some (Throw overflow, c)
    | S depth' =>
        match c !! index with
        | Some v => Some (Ok v, c)
        | None =>
            let offset := default NaN (idx (offsets p) index) in
            let marker := byteAt p offset in
            let type := Z.shiftr (band marker 240) 4 in
            let info := band marker 15 in
            let rec := _parseObject_within overflow depth' p in
            let value : M jsval :=
              if type =? 0 then ret (_parseSimple info)
              else if type =? 1 then ret (_parseInt p offset info)
              else if type =? 2 then lift (_parseReal p offset info)
              else if type =? 3 then lift (_parseDate p offset)
              else if type =? 4 then ret (_parseData p offset info)
              else if type =? 5 then lift_opt (Ok <$> _parseAscii p offset info)
              else if type =? 6 then lift_opt (_parseUnicode p offset info)
              else if type =? 8 then ret (_parseUid p offset info)
              else if type =? 10 then _parseArray rec p offset info
              else if type =? 12 then _parseArray rec p offset info
              else if type =? 13 then _parseDict rec p offset info
              else ret JUndefined in
            match value c with
            | Some (Ok v, c') => Some (Ok v, <[index := v]> c')
            | other => other
            end
        end
    end.

(** [new BPlistParser(buffer).parse()] in such an engine; [None] is left
    for a loop that never reaches its bound. *)
Definition parse_within (overflow : exn) (depth : nat) (buffer : list Z)
  : option (result jsval) :=
  match load buffer with
  | None => None
  | Some (Throw e) => Some (Throw e)
  | Some (Ok (p, topIndex)) => fst <$> _parseObject_within overflow depth p topIndex ∅
  end.

(** Whatever [m1] yields, [m2] yields too. *)
Definition below {A} (m1 m2 : M A) : Prop :=
  forall c r, m1 c = Some r -> m2 c = Some r.
End BPlistParser.

(** ** class CrushedPNG, pixel decoding *)

Module CrushedPNG.
Import JS.

Definition _paeth (a b c : Z) : Z :=
  let p := a + b - c in
  let pa := Z.abs (p - a) in
  let pb := Z.abs (p - b) in
  let pc := Z.abs (p - c) in
  if (pa <=? pb) && (pa <=? pc) then a
  else if pb <=? pc then b
  else c.

(** The call [this._paeth(a, b, c)] on values read from typed arrays: with
    an [undefined] argument every comparison is false and [c] comes
    back. *)
Definition paeth_call (a b c : option Z) : option Z :=
  match a, b, c with
  | Some a, Some b, Some c => Some (_paeth a b c)
  | _, _, _ => c
  end.

Definition oadd (x y : option Z) : option Z :=
  match x, y with
  | Some a, Some b => Some (a + b)
  | _, _ => None
  end.

(** [x >>> 1] (ToUint32 of NaN is 0). *)
Definition ushr1 (x : option Z) : Z :=
  match x with
  | Some z => Z.shiftr z 1
  | None => 0
  end.

(** A store into a Uint8Array: ToUint8 of the value, nothing out of
    range. *)
Definition put (l : list Z) (i : Z) (v : option Z) : list Z :=
  if i <? 0 then l else <[Z.to_nat i := default 0 v mod 256]> l.

(** The [switch (filterType)] of the row-filter inversion. *)
Definition unfilter (filterType raw a b c : option Z) : option Z :=
  match filterType with
  | Some 0 => raw
  | Some 1 => Some (band (oadd raw a) 255)
  | Some 2 => Some (band (oadd raw b) 255)
  | Some 3 => Some (band (oadd raw (Some (ushr1 (oadd a b)))) 255)
  | Some 4 => Some (band (oadd raw (paeth_call a b c)) 255)
  | _ => raw
  end.

Fixpoint filter_loop (inflated : list Z) (rowOff bpp : Z) (filterType : option Z)
    (prev : list Z) (n : nat) (i : Z) (curr : list Z) : list Z :=
  match n with
  | O => curr
  | S n' =>
      let raw := get inflated (rowOff + 1 + i) in
      let a := if bpp <=? i then get curr (i - bpp) else Some 0 in
      let b := get prev i in
      let c := if bpp <=? i then get prev (i - bpp) else Some 0 in
      filter_loop inflated rowOff bpp filterType prev n' (i + 1)
        (put curr i (unfilter filterType raw a b c))
  end.

(** [Math.round(n / d)] for integers [0 <= n], [0 < d]: the quotient is
    either exactly a half-integer, which is a double, or at least
    [1 / (2 * d)] away from one, far more than the rounding error of the
    division for the operands that occur ([n <= 65025], [d <= 254]); so
    the result is the integer [floor (n / d + 1 / 2)]. *)
Definition round_div (n d : Z) : Z := (2 * n + d) / (2 * d).

(** [Math.min(255, Math.round(C * 255 / A))]. *)
Definition unpremultiply (C : option Z) (A : Z) : option Z :=
  match C with
  | Some c => Some (Z.min 255 (round_div (c * 255) A))
  | None => None
  end.

(** The four stores of one output pixel. *)
Definition pixel (bpp : Z) (curr : list Z) (s d : Z) (out : list Z) : list Z :=
  let B := get curr s in
  let G := get curr (s + 1) in
  let R := get curr (s + 2) in
  let A := if bpp =? 4 then get curr (s + 3) else Some 255 in
  match A with
  | Some 0 =>
      put (put (put (put out (d + 3) (Some 0)) (d + 2) (Some 0)) (d + 1) (Some 0))
        d (Some 0)
  | Some al =>
      if (al <? 255) && (bpp =? 4) then
        put (put (put (put out d (unpremultiply R al))
                    (d + 1) (unpremultiply G al))
               (d + 2) (unpremultiply B al))
          (d + 3) A
      else put (put (put (put out d R) (d + 1) G) (d + 2) B) (d + 3) A
  | None => put (put (put (put out d R) (d + 1) G) (d + 2) B) (d + 3) A
  end.

Fixpoint pixel_loop (width bpp y : Z) (curr : list Z) (n : nat) (x : Z)
    (out : list Z) : list Z :=
  match n with
  | O => out
  | S n' =>
      pixel_loop width bpp y curr n' (x + 1)
        (pixel bpp curr (x * bpp) ((y * width + x) * 4) out)
  end.

(** The three arrays of the loop over rows: [out], [prev], [curr]. *)
Record planes := {
  out : list Z;
  prev : list Z;
  curr : list Z
}.

Definition row (inflated : list Z) (width bpp y : Z) (st : planes) : planes :=
  let stride := 1 + width * bpp in
  let rowOff := y * stride in
  let filterType := get inflated rowOff in
  let curr' :=
    filter_loop inflated rowOff bpp filterType (prev st)
      (Z.to_nat (width * bpp)) 0 (curr st) in
  let out' := pixel_loop width bpp y curr' (Z.to_nat width) 0 (out st) in
  {| out := out'; prev := curr'; curr := curr' |}.

Fixpoint rows_loop (inflated : list Z) (width bpp : Z) (n : nat) (y : Z)
    (st : planes) : planes :=
  match n with
  | O => st
  | S n' => rows_loop inflated width bpp n' (y + 1) (row inflated width bpp y st)
  end.

Definition zeros (n : Z) : list Z := replicate (Z.to_nat n) 0.

Definition start (width height bpp : Z) : planes :=
  {| out := zeros (width * height * 4);
     prev := zeros (width * bpp);
     curr := zeros (width * bpp) |}.

Definition _decodePixels (inflated : list Z) (width height bpp : Z) : list Z :=
  out (rows_loop inflated width bpp (Z.to_nat height) 0 (start width height bpp)).

(** Row [y] as stored, once its filter is undone: the contents of [curr]
    when the loop over the pixels of that row runs. *)
Definition scanline (inflated : list Z) (width height bpp y : Z) : list Z :=
  curr (rows_loop inflated width bpp (Z.to_nat (y + 1)) 0 (start width height bpp)).

Definition is_byte (v : Z) : Prop := 0 <= v < 256.
End CrushedPNG.

(** ** The element tree both manifest decoders produce *)

Module XmlTree.
Import JS.

(** Attribute values.  [VFloat] keeps the 32 bits of a float.
    [VComplex] stands for the string [mantissa * factor + suffix] that
    [_resolveValue] builds for a dimension or a fraction: it is a string
    that starts with a digit. *)
Inductive value :=
| VUndefined
| VNull
| VStr (s : jsstring)
| VNum (z : Z)
| VBool (b : bool)
| VFloat (bits : Z)
| VComplex (mantissa radix : Z) (suffix : jsstring).

#[global] Instance value_eq_dec : EqDecision value.
Proof. solve_decision. Defined.

Record rawAttr := {
  ra_namespace : value;
  ra_name : value;
  ra_value : value;
  ra_type : option Z;
  ra_data : option Z
}.

Inductive element :=
| Element (tag : value) (attributes : gmap jsstring value)
    (children : list element) (_rawAttrs : list rawAttr).

Definition tag (e : element) : value :=
  let 'Element t _ _ _ := e in t.
Definition attributes (e : element) : gmap jsstring value :=
  let 'Element _ a _ _ := e in a.
Definition children (e : element) : list element :=
  let 'Element _ _ c _ := e in c.
Definition _rawAttrs (e : element) : list rawAttr :=
  let 'Element _ _ _ r := e in r.

(** [el.children.push(child)]. *)
Definition push_child (e child : element) : element :=
  let 'Element t a c r := e in Element t a (c ++ [child]) r.

(** [o[k]] on a plain object: [undefined] when the key is absent. *)
Definition prop (o : gmap jsstring value) (k : jsstring) : value :=
  default VUndefined (o !! k).

(** ToBoolean. A float is falsy when it is a zero or a NaN. *)
Definition truthy (v : value) : bool :=
  match v with
  | VUndefined | VNull => false
  | VStr s => negb (bool_decide (s = []))
  | VNum z => negb (z =? 0)
  | VBool b => b
  | VFloat bits =>
      negb ((Z.land bits 2147483647 =? 0) || (2139095040 <? Z.land bits 2147483647))
  | VComplex _ _ _ => true
  end.

(** [v === 'literal']. *)
Definition is_str (v : value) (s : jsstring) : bool :=
  match v with
  | VStr s' => bool_decide (s' = s)
  | _ => false
  end.

(** The property key of a name, [`${name}`]. *)
Definition key_of (name : value) : jsstring :=
  match name with
  | VStr s => s
  | VUndefined => lit "undefined"
  | _ => lit "null"
  end.

(** The names every plain object inherits from [Object.prototype]
    (ECMAScript with its annex for web browsers). *)
Definition inherited : list jsstring :=
  map lit [ "constructor"; "__defineGetter__"; "__defineSetter__";
            "hasOwnProperty"; "__lookupGetter__"; "__lookupSetter__";
            "isPrototypeOf"; "propertyIsEnumerable"; "toString"; "valueOf";
            "__proto__"; "toLocaleString" ]%string.

(** A plain object [{}] that receives attribute values: its own
    properties, and whether [Object.prototype] is still its prototype. *)
Record object := {
  own : gmap jsstring value;
  extends : bool
}.

Definition new_object : object := {| own := ∅; extends := true |}.

(** [o[k] = v] where [v] is [null] or a primitive.  The name
    [__proto__] reaches the setter inherited from [Object.prototype]:
    [null] takes the prototype away, any other such value is ignored, and
    no property is created.  Once the prototype is gone, [__proto__] is a
    name like any other.  Every other name becomes an own property. *)
Definition assign (o : object) (k : jsstring) (v : value) : object :=
  if bool_decide (k = lit "__proto__") && extends o then
    match v with
    | VNull => {| own := own o; extends := false |}
    | _ => o
    end
  else {| own := <[k := v]> (own o); extends := extends o |}.

(** [namespaces[uri] = prefix] where [prefix] is a string: ignored for
    the name [__proto__], an own property for every other name. *)
Definition bind_prefix (namespaces : gmap jsstring jsstring) (uri pre : jsstring)
  : gmap jsstring jsstring :=
  if bool_decide (uri = lit "__proto__") then namespaces
  else <[uri := pre]> namespaces.

Section Engine.
(** [native u] is the text that a template string gives for the value
    [Object.prototype] holds under the name [u]: the engine's rendering
    of a built-in function, or of the prototype object for [__proto__]. *)
Variable native : jsstring -> jsstring.

(** [prefix ? `${prefix}:${name}` : name] as a property key, where
    [prefix] is [nsUri ? namespaces[nsUri] : null].  The lookup finds an
    own property, a string, or else what [Object.prototype] has under
    that name, which is an object and so counts as true. *)
Definition attr_key (namespaces : gmap jsstring jsstring) (nsUri name : value) : jsstring :=
  match nsUri with
  | VStr u =>
      if bool_decide (u = []) then key_of name
      else
        match namespaces !! u with
        | Some pre =>
            if bool_decide (pre = []) then key_of name
            else pre ++ lit ":" ++ key_of name
        | None =>
            if bool_decide (u ∈ inherited) then native u ++ lit ":" ++ key_of name
            else key_of name
        end
  | _ => key_of name
  end.
End Engine.
End XmlTree.

(** ** proto-xml-parser.js: class ProtoDecoder *)

Module ProtoDecoder.
Import JS.

(** The value of a field: a number, or a reference [{off, len}] into the
    shared buffer. *)
Inductive pval :=
| PNum (z : Z)
| PSlice (off len : Z).

Record entry := {
  wt : Z;
  v : pval
}.

Abbreviation fields := (gmap Z (list entry)).

(** [while (this.pos < this.end)]: [n] is the number of bytes left before
    [end]; every round consumes one. The accumulator stays below 2^28, so
    the 32-bit [|=] and [<<] are exact. *)
Fixpoint varint_loop (bytes : list Z) (n : nat) (pos r s : Z) : Z * Z :=
  match n with
  | O => (r, pos)
  | S n' =>
      let b := get bytes pos in
      let pos := pos + 1 in
      let r := if s <? 28 then Z.lor r (Z.shiftl (band b 127) s) else r in
      if band b 128 =? 0 then (r, pos)
      else varint_loop bytes n' pos r (s + 7)
  end.

(** Returns the value and the new [this.pos]. *)
Definition _varint (bytes : list Z) (end_ pos : Z) : Z * Z :=
  let '(r, pos') := varint_loop bytes (Z.to_nat (end_ - pos)) pos 0 0 in
  (r mod 2 ^ 32, pos').

Definition getUint32LE (bytes : list Z) (off : Z) : result Z :=
  bind (view_bytes bytes off 4) (fun b => Ok (le_value b)).

Definition _fixed32 (bytes : list Z) (pos : Z) : result (Z * Z) :=
  bind (getUint32LE bytes pos) (fun v => Ok (v, pos + 4)).

Definition _fixed64 (bytes : list Z) (pos : Z) : result (Z * Z) :=
  bind (getUint32LE bytes pos) (fun lo =>
  bind (getUint32LE bytes (pos + 4)) (fun hi =>
  Ok (round53 (lo + round53 (hi * 4294967296)), pos + 8))).

(** [(fields[num] || (fields[num] = [])).push({ wt, v })]. *)
Definition push (fs : fields) (num : Z) (e : entry) : fields :=
  <[num := default [] (fs !! num) ++ [e]]> fs.

(** The [while] loop of [readFields]: every round reads a tag of at least
    one byte, so [n], the distance to [end] when the loop starts, bounds
    the rounds. *)
Fixpoint readFields_loop (bytes : list Z) (end_ : Z) (n : nat) (pos : Z)
    (fs : fields) : result fields :=
  match n with
  | O => Ok fs
  | S n' =>
      if negb (pos <? end_) then Ok fs
      else
        let '(tag, pos) := _varint bytes end_ pos in
        let num := Z.shiftr tag 3 in
        let wt := Z.land tag 7 in
        if num =? 0 then Ok fs
        else if wt =? 0 then
          let '(v, pos) := _varint bytes end_ pos in
          readFields_loop bytes end_ n' pos (push fs num {| wt := wt; v := PNum v |})
        else if wt =? 1 then
          bind (_fixed64 bytes pos) (fun '(v, pos) =>
            readFields_loop bytes end_ n' pos (push fs num {| wt := wt; v := PNum v |}))
        else if wt =? 2 then
          let '(len, pos) := _varint bytes end_ pos in
          readFields_loop bytes end_ n' (pos + len)
            (push fs num {| wt := wt; v := PSlice pos len |})
        else if wt =? 5 then
          bind (_fixed32 bytes pos) (fun '(v, pos) =>
            readFields_loop bytes end_ n' pos (push fs num {| wt := wt; v := PNum v |}))
        else Ok fs
  end.

(** [new ProtoDecoder(buffer, start, len).readFields()]. *)
Definition readFields (bytes : list Z) (start len : Z) : result fields :=
  let pos := start in
  let end_ := pos + len in
  readFields_loop bytes end_ (Z.to_nat (end_ - pos)) pos ∅.

(** [new ProtoDecoder(buffer).readFields()]. *)
Definition readAll (bytes : list Z) : result fields :=
  readFields bytes 0 (Z.of_nat (length bytes)).
End ProtoDecoder.

(** ** proto-xml-parser.js: class ProtoXMLParser *)

Module ProtoXMLParser.
Import JS XmlTree ProtoDecoder.

Definition first (fs : fields) (num : Z) : option entry :=
  match fs !! num with
  | Some (e :: _) => Some e
  | _ => None
  end.

Definition _sub (buf : list Z) (e : entry) : result fields :=
  match v e with
  | PSlice off len => if wt e =? 2 then readFields buf off len else Ok ∅
  | PNum _ => Ok ∅
  end.

(** [null], a string, or the RangeError of a view that leaves the
    buffer. *)
Definition _str (buf : list Z) (fs : fields) (num : Z) : result value :=
  match first fs num with
  | Some {| wt := w; v := PSlice off len |} =>
      if negb (w =? 2) then Ok VNull
      else if len =? 0 then Ok (VStr [])
      else bind (view_bytes buf off len) (fun b => Ok (VStr (utf8_decode b)))
  | _ => Ok VNull
  end.

(** [id.toString(16)] where [id] is whatever value field 1 holds. *)
Definition id_text (id : pval) : jsstring :=
  match id with
  | PNum z => toString16 z
  | PSlice _ _ => lit "[object Object]"
  end.

Definition _primitive (fs : fields) : value :=
  match first fs 6 with
  | Some {| wt := 0; v := PNum z |} => VNum z
  | _ =>
  match first fs 7 with
  | Some {| wt := 0; v := PNum z |} => VNum z
  | _ =>
  match first fs 8 with
  | Some {| wt := 0; v := PNum z |} => VBool (negb (z =? 0))
  | _ =>
  match first fs 3 with
  | Some {| wt := 5; v := PNum z |} => VFloat z
  | _ =>
  match fs !! 1 with
  | Some _ => VNull
  | None => VUndefined
  end end end end end.

(** A field whose first entry is length-delimited. *)
Definition message (fs : fields) (num : Z) : option entry :=
  match first fs num with
  | Some e => if wt e =? 2 then Some e else None
  | None => None
  end.

Definition _item (buf : list Z) (fs : fields) : result value :=
  match message fs 1 with
  | Some e =>
      bind (_sub buf e) (fun ref =>
        let id := match first ref 1 with Some r => v r | None => PNum 0 end in
        Ok (VStr (lit "@0x" ++ id_text id)))
  | None =>
  match message fs 2 with
  | Some e => bind (_sub buf e) (fun f => _str buf f 1)
  | None =>
  match message fs 3 with
  | Some e => bind (_sub buf e) (fun f => _str buf f 1)
  | None =>
  match message fs 7 with
  | Some e => bind (_sub buf e) (fun f => Ok (_primitive f))
  | None => Ok VUndefined
  end end end end.

(** The state of the walk: [this.namespaces]. *)
Abbreviation nsmap := (gmap jsstring jsstring).

(** One round of the loop over namespace declarations. *)
Definition declare (buf : list Z) (ns : entry) (namespaces : nsmap) : result nsmap :=
  if negb (wt ns =? 2) then Ok namespaces
  else
    bind (_sub buf ns) (fun nsf =>
    bind (_str buf nsf 1) (fun prefix =>
    bind (_str buf nsf 2) (fun uri =>
      match prefix, uri with
      | VStr pre, VStr u =>
          if truthy prefix && truthy uri then Ok (bind_prefix namespaces u pre)
          else Ok namespaces
      | _, _ => Ok namespaces
      end))).

Fixpoint declare_all (buf : list Z) (l : list entry) (namespaces : nsmap) : result nsmap :=
  match l with
  | [] => Ok namespaces
  | ns :: l' => bind (declare buf ns namespaces) (declare_all buf l')
  end.

(** The value an attribute is stored with: the raw string of field 3,
    replaced by the compiled item of field 6 unless that is
    [undefined]. *)
Definition attr_value (buf : list Z) (af : fields) : result value :=
  bind (_str buf af 3) (fun value =>
    match message af 6 with
    | Some e =>
        bind (_sub buf e) (fun itf =>
        bind (_item buf itf) (fun typed =>
          Ok (if bool_decide (typed = VUndefined) then value else typed)))
    | None => Ok value
    end).

Section Engine.
Variable native : jsstring -> jsstring.

(** One round of the loop over attributes: the new [attributes] and
    [_rawAttrs] of the element. *)
Definition attribute (buf : list Z) (namespaces : nsmap) (a : entry)
    (acc : object * list rawAttr) : result (object * list rawAttr) :=
  if negb (wt a =? 2) then Ok acc
  else
    bind (_sub buf a) (fun af =>
    bind (_str buf af 1) (fun nsUri =>
    bind (_str buf af 2) (fun name =>
    bind (attr_value buf af) (fun value =>
      let key := attr_key native namespaces nsUri name in
      Ok (assign (fst acc) key value,
          snd acc ++ [{| ra_namespace := nsUri; ra_name := name; ra_value := value;
                         ra_type := None; ra_data := None |}]))))).


Fixpoint attribute_all (buf : list Z) (namespaces : nsmap) (l : list entry)
    (acc : object * list rawAttr) : result (object * list rawAttr) :=
  match l with
  | [] => Ok acc
  | a :: l' => bind (attribute buf namespaces a acc) (attribute_all buf namespaces l')
  end.

(** The walk threads [this.namespaces], may throw, and is bounded in
    depth by [fuel]. *)
Definition W (A : Type) : Type := nsmap -> option (result A * nsmap).

Section Children.
(** The recursive call [this._xmlNode(this._sub(c))]. *)
Variable xmlNode : fields -> W (option element).
Variable buf : list Z.

Fixpoint child_all (l : list entry) (acc : list element) : W (list element) :=
  fun namespaces =>
    match l with
    | [] => Some (Ok acc, namespaces)
    | c :: l' =>
        if negb (wt c =? 2) then child_all l' acc namespaces
        else
          match _sub buf c with
          | Throw e => Some (Throw e, namespaces)
          | Ok cf =>
              match xmlNode cf namespaces with
              | Some (Ok (Some child), ns') => child_all l' (acc ++ [child]) ns'
              | Some (Ok None, ns') => child_all l' acc ns'
              | Some (Throw e, ns') => Some (Throw e, ns')
              | None => None
              end
          end
    end.

Definition _xmlElement (f : fields) : W element :=
  fun namespaces =>
    match declare_all buf (default [] (f !! 1)) namespaces with
    | Throw e => Some (Throw e, namespaces)
    | Ok namespaces =>
        match _str buf f 3 with
        | Throw e => Some (Throw e, namespaces)
        | Ok t =>
            let tag := if truthy t then t else VStr [] in
            match attribute_all buf namespaces (default [] (f !! 4)) (new_object, []) with
            | Throw e => Some (Throw e, namespaces)
            | Ok (attrs, raws) =>
                match child_all (default [] (f !! 5)) [] namespaces with
                | Some (Ok kids, ns') => Some (Ok (Element tag (own attrs) kids raws), ns')
                | Some (Throw e, ns') => Some (Throw e, ns')
                | None => None
                end
            end
        end
    end.
End Children.

Fixpoint _xmlNode (fuel : nat) (buf : list Z) (fs : fields) : W (option element) :=
  fun namespaces =>
    match fuel with
    | O => None
    | S fuel' =>
        match message fs 1 with
        | Some e =>
            match _sub buf e with
            | Throw ex => Some (Throw ex, namespaces)
            | Ok f =>
                match _xmlElement (_xmlNode fuel' buf) buf f namespaces with
                | Some (Ok el, ns') => Some (Ok (Some el), ns')
                | Some (Throw ex, ns') => Some (Throw ex, ns')
                | None => None
                end
            end
        | None => Some (Ok None, namespaces)
        end
    end.

(** [new ProtoXMLParser(buffer).parse()]; [None] of the result is the
    [null] returned for a node without an element. *)
Definition parse (fuel : nat) (buf : list Z) : option (result (option element)) :=
  match readAll buf with
  | Throw e => Some (Throw e)
  | Ok fs => fst <$> _xmlNode fuel buf fs ∅
  end.
End Engine.
End ProtoXMLParser.

(** ** class AXMLParser *)

Module AXMLParser.
Import JS XmlTree.

Definition RES_STRING_POOL_TYPE : Z := 1.
Definition RES_XML_TYPE : Z := 3.
Definition RES_XML_START_NAMESPACE_TYPE : Z := 256.
Definition RES_XML_END_NAMESPACE_TYPE : Z := 257.
Definition RES_XML_START_ELEMENT_TYPE : Z := 258.
Definition RES_XML_END_ELEMENT_TYPE : Z := 259.
Definition RES_XML_CDATA_TYPE : Z := 260.
Definition RES_XML_RESOURCE_MAP_TYPE : Z := 384.

Definition TYPE_NULL : Z := 0.
Definition TYPE_REFERENCE : Z := 1.
Definition TYPE_ATTRIBUTE : Z := 2.
Definition TYPE_STRING : Z := 3.
Definition TYPE_FLOAT : Z := 4.
Definition TYPE_DIMENSION : Z := 5.
Definition TYPE_FRACTION : Z := 6.
Definition TYPE_INT_DEC : Z := 16.
Definition TYPE_INT_HEX : Z := 17.
Definition TYPE_INT_BOOLEAN : Z := 18.

Definition NotAxml : exn := Error "Not a valid Android Binary XML file".

(** A reader advances [this.offset] and may throw. *)
Definition R (A : Type) : Type := Z -> result (A * Z).

Definition rret {A} (a : A) : R A := fun off => Ok (a, off).
Definition rbind {A B} (m : R A) (k : A -> R B) : R B :=
  fun off =>
    match m off with
    | Ok (a, off') => k a off'
    | Throw e => Throw e
    end.
Definition seek (off : Z) : R unit := fun _ => Ok (tt, off).
Definition tell : R Z := fun off => Ok (off, off).
Definition rlift {A} (r : result A) : R A :=
  fun off => bind r (fun a => Ok (a, off)).

Notation "'rd' x <- m ; k" := (rbind m (fun x => k))
  (at level 10, x name, m at level 100, k at level 200).

Section Readers.
Variable buffer : list Z.

Definition readUint8 : R Z :=
  fun off => bind (view_bytes buffer off 1) (fun b => Ok (le_value b, off + 1)).

Definition readUint16 : R Z :=
  fun off => bind (view_bytes buffer off 2) (fun b => Ok (le_value b, off + 2)).

Definition readUint32 : R Z :=
  fun off => bind (view_bytes buffer off 4) (fun b => Ok (le_value b, off + 4)).

Definition readInt32 : R Z :=
  fun off =>
    bind (view_bytes buffer off 4) (fun b =>
      let u := le_value b in
      Ok (if u <? 2 ^ 31 then u else u - 2 ^ 32, off + 4)).

(** [this.view.getUint16(off, true)] without moving the cursor. *)
Definition getUint16LE (off : Z) : result Z :=
  bind (view_bytes buffer off 2) (fun b => Ok (le_value b)).

Fixpoint utf16_loop (start : Z) (n : nat) (i : Z) (s : jsstring) : result jsstring :=
  match n with
  | O => Ok s
  | S n' =>
      bind (getUint16LE (start + i * 2)) (fun u =>
        utf16_loop start n' (i + 1) (s ++ [u]))
  end.

(** The body of the [try]; the [finally] restores [this.offset], so the
    caller's cursor does not move. *)
Definition _readStringAt (offset : Z) (isUTF8 : bool) : result jsstring :=
  let body : R jsstring :=
    if isUTF8 then
      rd u16len <- readUint8 ;
      rd _skip <- (if Z.land u16len 128 =? 0 then rret 0 else readUint8) ;
      rd u8len <- readUint8 ;
      rd u8len <- (if Z.land u8len 128 =? 0 then rret u8len
                   else rd lo <- readUint8 ;
                        rret (Z.lor (Z.shiftl (Z.land u8len 127) 8) lo)) ;
      rd here <- tell ;
      rd bytes <- rlift (view_bytes buffer here u8len) ;
      rret (utf8_decode bytes)
    else
      rd charCount <- readUint16 ;
      rd charCount <- (if Z.land charCount 32768 =? 0 then rret charCount
                       else rd lo <- readUint16 ;
                            rret (Z.lor (Z.shiftl (Z.land charCount 32767) 16) lo)) ;
      rd here <- tell ;
      rlift (utf16_loop here (Z.to_nat charCount) 0 []) in
  bind (body offset) (fun '(s, _) => Ok s).

Fixpoint read_words (n : nat) (acc : list Z) : R (list Z) :=
  match n with
  | O => rret acc
  | S n' => rd w <- readUint32 ; read_words n' (acc ++ [w])
  end.

Fixpoint strings_loop (dataStart : Z) (isUTF8 : bool) (stringOffsets : list Z)
    (acc : list jsstring) : result (list jsstring) :=
  match stringOffsets with
  | [] => Ok acc
  | o :: rest =>
      bind (_readStringAt (dataStart + o) isUTF8) (fun s =>
        strings_loop dataStart isUTF8 rest (acc ++ [s]))
  end.

(** Returns the new [this.strings]. *)
Definition _parseStringPool (chunkStart chunkSize : Z) : R (list jsstring) :=
  rd stringCount <- readUint32 ;
  rd styleCount <- readUint32 ;
  rd flags <- readUint32 ;
  rd stringsStart <- readUint32 ;
  rd stylesStart <- readUint32 ;
  let isUTF8 := Z.testbit flags 8 in
  rd stringOffsets <- read_words (Z.to_nat stringCount) [] ;
  rd here <- tell ;
  rd _moved <- seek (here + styleCount * 4) ;
  let dataStart := chunkStart + stringsStart in
  rlift (strings_loop dataStart isUTF8 stringOffsets []).

(** Returns the new [this.resourceIds]. *)
Definition _parseResourceMap (chunkSize : Z) : R (list Z) :=
  let count := Z.shiftr (chunkSize - 8) 2 in
  read_words (Z.to_nat count) [].

Definition _skipNodeBody : R unit :=
  rd here <- tell ; seek (here + 16).
End Readers.

(** [this.strings], [this.resourceIds], [this.namespaces]. *)
Record tables := {
  strings : list jsstring;
  resourceIds : list Z;
  namespaces : gmap jsstring jsstring
}.

Definition _str (strs : list jsstring) (index : Z) : value :=
  if (index <? 0) || (Z.of_nat (length strs) <=? index) then VNull
  else
    match get strs index with
    | Some s => VStr s
    | None => VUndefined
    end.

Definition units : list jsstring :=
  [lit "px"; lit "dp"; lit "sp"; lit "pt"; lit "in"; lit "mm"].
Definition fraction_types : list jsstring := [lit "%"; lit "%p"].

Definition complex (data : Z) (suffixes : list jsstring) : value :=
  let mantissa := Z.land (Z.shiftr data 8) 16777215 in
  let radix := Z.land (Z.shiftr data 4) 3 in
  VComplex mantissa radix (default [] (get suffixes (Z.land data 15))).

Definition _resolveValue (strs : list jsstring) (type data : Z) : value :=
  if type =? TYPE_STRING then _str strs data
  else if type =? TYPE_INT_DEC then VNum data
  else if type =? TYPE_INT_HEX then VStr (lit "0x" ++ toString16 data)
  else if type =? TYPE_INT_BOOLEAN then VBool (negb (data =? 0))
  else if type =? TYPE_REFERENCE then VStr (lit "@0x" ++ toString16 data)
  else if type =? TYPE_ATTRIBUTE then VStr (lit "?0x" ++ toString16 data)
  else if type =? TYPE_FLOAT then VFloat data
  else if type =? TYPE_DIMENSION then complex data units
  else if type =? TYPE_FRACTION then complex data fraction_types
  else if type =? TYPE_NULL then VNull
  else VNum data.

Section Chunks.
Variable buffer : list Z.
(** The engine's text for what [Object.prototype] holds under a name, see
    [attr_key]. *)
Variable native : jsstring -> jsstring.

(** Returns the new [this.namespaces]. *)
Definition _parseStartNamespace (t : tables) : R (gmap jsstring jsstring) :=
  rd _line <- readUint32 buffer ;
  rd _comment <- readUint32 buffer ;
  rd prefix <- readUint32 buffer ;
  rd uri <- readUint32 buffer ;
  let prefixStr := _str (strings t) prefix in
  let uriStr := _str (strings t) uri in
  match prefixStr, uriStr with
  | VStr pre, VStr u =>
      if truthy prefixStr && truthy uriStr then rret (bind_prefix (namespaces t) u pre)
      else rret (namespaces t)
  | _, _ => rret (namespaces t)
  end.

(** One round of the attribute loop. *)
Definition attribute (t : tables) (attrSize : Z)
    (acc : object * list rawAttr) : R (object * list rawAttr) :=
  rd attrOffset <- tell ;
  rd aNs <- readInt32 buffer ;
  rd aName <- readUint32 buffer ;
  rd aRawValue <- readInt32 buffer ;
  rd _valueSize <- readUint16 buffer ;
  rd _res0 <- readUint8 buffer ;
  rd aType <- readUint8 buffer ;
  rd aData <- readUint32 buffer ;
  rd _moved <- seek (attrOffset + (if attrSize =? 0 then 20 else attrSize)) ;
  let nameStr := _str (strings t) aName in
  let nsStr := if 0 <=? aNs then _str (strings t) aNs else VNull in
  let value :=
    if 0 <=? aRawValue then _str (strings t) aRawValue
    else _resolveValue (strings t) aType aData in
  let raw := {| ra_namespace := nsStr; ra_name := nameStr; ra_value := value;
                ra_type := Some aType; ra_data := Some aData |} in
  let key := attr_key native (namespaces t) nsStr nameStr in
  rret (assign (fst acc) key value, snd acc ++ [raw]).

Fixpoint attribute_loop (t : tables) (attrSize : Z) (n : nat)
    (acc : object * list rawAttr) : R (object * list rawAttr) :=
  match n with
  | O => rret acc
  | S n' => rd acc' <- attribute t attrSize acc ; attribute_loop t attrSize n' acc'
  end.

Definition _parseStartElement (t : tables) (chunkStart : Z) : R element :=
  rd _line <- readUint32 buffer ;
  rd _comment <- readUint32 buffer ;
  rd _ns <- readInt32 buffer ;
  rd name <- readUint32 buffer ;
  rd attrStart <- readUint16 buffer ;
  rd attrSize <- readUint16 buffer ;
  rd attrCount <- readUint16 buffer ;
  rd _id <- readUint16 buffer ;
  rd _class <- readUint16 buffer ;
  rd _style <- readUint16 buffer ;
  rd _moved <- seek (chunkStart + 16 + attrStart) ;
  rd acc <- attribute_loop t attrSize (Z.to_nat attrCount) (new_object, []) ;
  rret (Element (_str (strings t) name) (own (fst acc)) [] (snd acc)).

(** The stack of open elements, innermost first; the document root is
    last. In the source an element is appended to its parent's
    [children] when it is opened and the parent keeps a reference to
    it; while it is open nothing else is appended to the parent, so it
    is the parent's last child. Here the element joins the parent's
    children when it leaves the stack. *)
Definition close (stack : list element) : list element :=
  match stack with
  | el :: parent :: rest => push_child parent el :: rest
  | _ => stack
  end.

Fixpoint collapse (top : element) (below : list element) : element :=
  match below with
  | [] => top
  | parent :: rest => collapse (push_child parent top) rest
  end.

(** The [switch (chunkType)]: new tables and new stack. *)
Definition dispatch (chunkType chunkStart chunkSize : Z) (t : tables)
    (stack : list element) : R (tables * list element) :=
  if chunkType =? RES_STRING_POOL_TYPE then
    rd strs <- _parseStringPool buffer chunkStart chunkSize ;
    rret ({| strings := strs; resourceIds := resourceIds t;
             namespaces := namespaces t |}, stack)
  else if chunkType =? RES_XML_RESOURCE_MAP_TYPE then
    rd ids <- _parseResourceMap buffer chunkSize ;
    rret ({| strings := strings t; resourceIds := ids;
             namespaces := namespaces t |}, stack)
  else if chunkType =? RES_XML_START_NAMESPACE_TYPE then
    rd ns <- _parseStartNamespace t ;
    rret ({| strings := strings t; resourceIds := resourceIds t;
             namespaces := ns |}, stack)
  else if chunkType =? RES_XML_END_NAMESPACE_TYPE then
    rd _skipped <- _skipNodeBody ; rret (t, stack)
  else if chunkType =? RES_XML_START_ELEMENT_TYPE then
    rd el <- _parseStartElement t chunkStart ;
    rret (t, el :: stack)
  else if chunkType =? RES_XML_END_ELEMENT_TYPE then
    rd _skipped <- _skipNodeBody ;
    rret (t, if (1 <? Z.of_nat (length stack))%Z then close stack else stack)
  else rret (t, stack).

(** The three reads that open the file and every chunk: type, header
    size, size. *)
Definition read_header : R (Z * Z) :=
  rd type <- readUint16 buffer ;
  rd _headerSize <- readUint16 buffer ;
  rd size <- readUint32 buffer ;
  rret (type, size).

(** The type and the size of the chunk at [offset]. *)
Definition chunk_header (offset : Z) : result (Z * Z) :=
  bind (read_header offset) (fun '(h, _) => Ok h).

(** The [while] loop over chunks; [fuel] bounds its rounds. *)
Fixpoint chunk_loop (fuel : nat) (fileSize : Z) (offset : Z) (t : tables)
    (stack : list element) : option (result (list element)) :=
  match fuel with
  | O => None
  | S fuel' =>
      if (offset <? fileSize) && (offset <? Z.of_nat (length buffer)) then
        let chunkStart := offset in
        match read_header offset with
        | Throw e => Some (Throw e)
        | Ok ((chunkType, chunkSize), offset') =>
            if (chunkSize <? 8) || (Z.of_nat (length buffer) <? chunkStart + chunkSize)
            then Some (Ok stack)
            else
              match dispatch chunkType chunkStart chunkSize t stack offset' with
              | Throw e => Some (Throw e)
              | Ok ((t', stack'), _) =>
                  chunk_loop fuel' fileSize (chunkStart + chunkSize) t' stack'
              end
        end
      else Some (Ok stack)
  end.

Definition document : element := Element (VStr (lit "#document")) ∅ [] [].

Definition initial : tables :=
  {| strings := []; resourceIds := []; namespaces := ∅ |}.

(** The offsets at which the loop reads a chunk header, in order. *)
Fixpoint chunk_starts (fuel : nat) (fileSize : Z) (offset : Z) (t : tables)
    (stack : list element) : list Z :=
  match fuel with
  | O => []
  | S fuel' =>
      if (offset <? fileSize) && (offset <? Z.of_nat (length buffer)) then
        offset ::
        match read_header offset with
        | Throw _ => []
        | Ok ((chunkType, chunkSize), offset') =>
            if (chunkSize <? 8) || (Z.of_nat (length buffer) <? offset + chunkSize)
            then []
            else
              match dispatch chunkType offset chunkSize t stack offset' with
              | Throw _ => []
              | Ok ((t', stack'), _) =>
                  chunk_starts fuel' fileSize (offset + chunkSize) t' stack'
              end
        end
      else []
  end.

(** Every chunk header the loop reads lies inside the buffer: at no chunk
    boundary are fewer than eight bytes left. *)
Definition headers_inside : Prop :=
  match read_header 0 with
  | Throw _ => True
  | Ok ((_, fileSize), offset) =>
      Forall (fun o => o + 8 <= Z.of_nat (length buffer))
        (chunk_starts (S (length buffer)) fileSize offset initial [document])
  end.

Definition parse_with (fuel : nat) : option (result element) :=
  match read_header 0 with
  | Throw e => Some (Throw e)
  | Ok ((type, fileSize), offset) =>
      if negb (type =? RES_XML_TYPE) then Some (Throw NotAxml)
      else
        match chunk_loop fuel fileSize offset initial [document] with
        | None => None
        | Some (Throw e) => Some (Throw e)
        | Some (Ok stack) =>
            let root :=
              match stack with
              | top :: below => collapse top below
              | [] => document
              end in
            Some (Ok (match children root with
                      | first :: _ => first
                      | [] => root
                      end))
        end
  end.
End Chunks.

(** The 16-bit little-endian word a buffer opens with. *)
Definition first_word (buffer : list Z) : Z := le_value (take 2 buffer).

(** A reader whose only exception is the RangeError of a read outside the
    buffer. *)
Definition throws_range {A} (m : R A) : Prop :=
  forall off e, m off = Throw e -> e = RangeError.

(** [new AXMLParser(buffer).parse()]. Every round of the chunk loop moves
    the cursor forward by at least 8 bytes inside the buffer, so the
    length of the buffer bounds the rounds ([parse_returns] below). *)
Definition parse (native : jsstring -> jsstring) (buffer : list Z)
  : option (result element) :=
  parse_with buffer native (S (length buffer)).
End AXMLParser.

(** ** String methods and regular expressions the projectors use *)

Module Text.
Import JS.

Fixpoint startsWith (s pre : jsstring) : bool :=
  match pre, s with
  | [], _ => true
  | p :: pre', c :: s' => (c =? p) && startsWith s' pre'
  | _ :: _, [] => false
  end.

Definition endsWith (s suf : jsstring) : bool :=
  startsWith (reverse s) (reverse suf).

Fixpoint includes (s sub : jsstring) : bool :=
  startsWith s sub ||
  match s with
  | [] => false
  | _ :: s' => includes s' sub
  end.

(** Canonicalize of a case-insensitive regular expression without the
    [u] flag, restricted to what can equal an ASCII pattern character: a
    code unit outside ASCII never folds to an ASCII letter. *)
Definition fold (c : Z) : Z :=
  if (97 <=? c) && (c <=? 122) then c - 32 else c.

Fixpoint startsWith_ci (s pre : jsstring) : bool :=
  match pre, s with
  | [], _ => true
  | p :: pre', c :: s' => (fold c =? fold p) && startsWith_ci s' pre'
  | _ :: _, [] => false
  end.

Definition endsWith_ci (s suf : jsstring) : bool :=
  startsWith_ci (reverse s) (reverse suf).

(** [s.split('/')]. *)
Fixpoint split_slash (s : jsstring) (seg : jsstring) : list jsstring :=
  match s with
  | [] => [seg]
  | c :: s' => if c =? 47 then seg :: split_slash s' [] else split_slash s' (seg ++ [c])
  end.

(** [[...new Set(l)]]: first occurrences, in order. *)
Fixpoint dedupe (l : list jsstring) (seen : list jsstring) : list jsstring :=
  match l with
  | [] => []
  | x :: l' =>
      if bool_decide (x ∈ seen) then dedupe l' seen
      else x :: dedupe l' (x :: seen)
  end.

(** [/\.(RSA|DSA|EC)$/i.test(f)]. *)
Definition is_cert (f : jsstring) : bool :=
  endsWith_ci f (lit ".RSA") || endsWith_ci f (lit ".DSA") || endsWith_ci f (lit ".EC").

(** [/\.(SF|MF)$/i.test(f)]. *)
Definition is_signature (f : jsstring) : bool :=
  endsWith_ci f (lit ".SF") || endsWith_ci f (lit ".MF").

(** [/ic_launcher[^/]*\.png$/i.test(f)]: the name ends in [.png] and
    [ic_launcher] occurs before that with no slash in between. *)
Fixpoint no_slash_then_png (s : jsstring) : bool :=
  (startsWith_ci s (lit ".png") && bool_decide (length s = 4%nat)) ||
  match s with
  | [] => false
  | c :: s' => negb (c =? 47) && no_slash_then_png s'
  end.

Fixpoint is_launcher_png (f : jsstring) : bool :=
  (startsWith_ci f (lit "ic_launcher") && no_slash_then_png (drop 11 f)) ||
  match f with
  | [] => false
  | _ :: f' => is_launcher_png f'
  end.

(** [/^Payload\/[^/]+\.app\/$/i.test(f)]: [Payload/], then one or more
    characters other than a slash, then [.app/] at the end. *)
Fixpoint segment_then_app (s : jsstring) (seen : bool) : bool :=
  (seen && startsWith_ci s (lit ".app/") && bool_decide (length s = 5%nat)) ||
  match s with
  | [] => false
  | c :: s' => negb (c =? 47) && segment_then_app s' true
  end.

Definition is_app_dir (f : jsstring) : bool :=
  startsWith_ci f (lit "Payload/") && segment_then_app (drop 8 f) false.

(** The characters [.] does not match: the line terminators. *)
Definition line_terminator (c : Z) : bool :=
  (c =? 10) || (c =? 13) || (c =? 8232) || (c =? 8233).

(** [/AppIcon.*\.png$/i.test(f)]: [AppIcon] somewhere, then characters
    of one line, then [.png] at the end. *)
Fixpoint line_then_png (s : jsstring) : bool :=
  (startsWith_ci s (lit ".png") && bool_decide (length s = 4%nat)) ||
  match s with
  | [] => false
  | c :: s' => negb (line_terminator c) && line_then_png s'
  end.

Fixpoint is_appicon_png (f : jsstring) : bool :=
  (startsWith_ci f (lit "AppIcon") && line_then_png (drop 7 f)) ||
  match f with
  | [] => false
  | _ :: f' => is_appicon_png f'
  end.

(** A stable insertion sort by rank: [Array.prototype.sort] with the
    comparator [(a, b) => rank(a) - rank(b)]. *)
Fixpoint insert_by (rank : jsstring -> Z) (x : jsstring) (l : list jsstring) : list jsstring :=
  match l with
  | [] => [x]
  | y :: l' => if rank x <=? rank y then x :: l else y :: insert_by rank x l'
  end.

Definition sort_by (rank : jsstring -> Z) (l : list jsstring) : list jsstring :=
  fold_right (insert_by rank) [] l.
End Text.

(** ** The archive reader (JSZip), as the projectors see it *)

Module Archive.
Import JS XmlTree.

(** [keys] is [Object.keys(zip.files)]; [file] is [zip.file(path)],
    [None] when there is no file entry of that name.  An entry is given by
    what reading it yields, [await entry.async(...)]: its bytes, or the
    exception the read is rejected with.  [file_complex] is the same
    lookup for a name that is the text of a dimension or fraction. *)
Record zip := {
  keys : list jsstring;
  file : jsstring -> option (result (list Z));
  file_complex : Z -> Z -> jsstring -> option (result (list Z))
}.

(** The [File] handed to [parse]. *)
Record upload := {
  name : jsstring;
  size : Z
}.

(** [URL.createObjectURL(blob)]: the URL stands for the bytes. *)
Inductive url :=
| ObjectURL (blob : list Z).

Definition lookup (z : zip) (path : value) : option (result (list Z)) :=
  match path with
  | VStr s => file z s
  | VComplex m r sfx => file_complex z m r sfx
  | _ => None
  end.
End Archive.

(** ** apk-parser.js: class APKParser *)

Module APKParser.
Import JS XmlTree Text Archive.

Record activity := {
  act_name : value;
  isLauncher : bool
}.

Record signing := {
  signed : bool;
  certFile : jsstring;
  signatureFiles : list jsstring
}.

(** The [info] object. [_manifestError] holds the exception whose
    [message] the source stores. *)
Record BuildInfo := {
  type : jsstring;
  fileName : jsstring;
  fileSize : Z;
  package : value;
  appName : value;
  versionCode : value;
  versionName : value;
  minSdkVersion : value;
  targetSdkVersion : value;
  permissions : list value;
  activities : list activity;
  services : list value;
  receivers : list value;
  icon : option url;
  iconPath : value;
  signingInfo : option signing;
  debuggable : bool;
  architectures : option (list jsstring);
  dexCount : Z;
  totalFiles : Z;
  _manifestError : option exn
}.

(** [a ?? null]. *)
Definition or_null (v : value) : value :=
  match v with
  | VUndefined => VNull
  | _ => v
  end.

(** [a || '']. *)
Definition or_empty (v : value) : value :=
  if truthy v then v else VStr [].

Definition _child (el : element) (t : jsstring) : option element :=
  find (fun c => is_str (tag c) t) (children el).

Definition _children (el : element) (t : jsstring) : list element :=
  filter (fun c => is_str (tag c) t = true) (children el).

Definition android_name (el : element) : value :=
  prop (attributes el) (lit "android:name").

Definition _isLauncher (act : element) : bool :=
  existsb (fun f =>
    let hasMain :=
      existsb (fun a => is_str (android_name a) (lit "android.intent.action.MAIN"))
        (_children f (lit "action")) in
    let hasLauncher :=
      existsb (fun c => is_str (android_name c) (lit "android.intent.category.LAUNCHER"))
        (_children f (lit "category")) in
    hasMain && hasLauncher)
    (_children act (lit "intent-filter")).

(** [f] has a child element [t] whose [android:name] is the string
    [name]. *)
Definition has_child_named (f : element) (t name : jsstring) : Prop :=
  exists c, c ∈ children f /\ tag c = VStr t /\ android_name c = VStr name.

(** [.map(x => x.attributes['android:name'] || '').filter(Boolean)]. *)
Definition names (l : list element) : list value :=
  filter (fun v => truthy v = true) (map (fun x => or_empty (android_name x)) l).

(** [typeof v === 'string' && !v.startsWith('@')]. *)
Definition literal_path (v : value) : bool :=
  match v with
  | VStr s => negb (startsWith s (lit "@"))
  | VComplex _ _ _ => true
  | _ => false
  end.

Definition set_manifestError (info : BuildInfo) (e : exn) : BuildInfo :=
  {| type := type info; fileName := fileName info; fileSize := fileSize info;
     package := package info; appName := appName info;
     versionCode := versionCode info; versionName := versionName info;
     minSdkVersion := minSdkVersion info; targetSdkVersion := targetSdkVersion info;
     permissions := permissions info; activities := activities info;
     services := services info; receivers := receivers info;
     icon := icon info; iconPath := iconPath info; signingInfo := signingInfo info;
     debuggable := debuggable info; architectures := architectures info;
     dexCount := dexCount info; totalFiles := totalFiles info;
     _manifestError := Some e |}.

Definition set_iconPath (info : BuildInfo) (path : value) : BuildInfo :=
  {| type := type info; fileName := fileName info; fileSize := fileSize info;
     package := package info; appName := appName info;
     versionCode := versionCode info; versionName := versionName info;
     minSdkVersion := minSdkVersion info; targetSdkVersion := targetSdkVersion info;
     permissions := permissions info; activities := activities info;
     services := services info; receivers := receivers info;
     icon := icon info; iconPath := path; signingInfo := signingInfo info;
     debuggable := debuggable info; architectures := architectures info;
     dexCount := dexCount info; totalFiles := totalFiles info;
     _manifestError := _manifestError info |}.

(** The assignments of [_extractManifest], in one record. *)
Definition _extractManifest (manifest : element) (info : BuildInfo) : BuildInfo :=
  if negb (is_str (tag manifest) (lit "manifest")) then info
  else
    let a := attributes manifest in
    let sdk := _child manifest (lit "uses-sdk") in
    let app := _child manifest (lit "application") in
    let iconAttr := fun ap => prop (attributes ap) (lit "android:icon") in
    {| type := type info; fileName := fileName info; fileSize := fileSize info;
       package := or_null (prop a (lit "package"));
       appName :=
         match app with
         | Some ap => or_null (prop (attributes ap) (lit "android:label"))
         | None => appName info
         end;
       versionCode := or_null (prop a (lit "android:versionCode"));
       versionName := or_null (prop a (lit "android:versionName"));
       minSdkVersion :=
         match sdk with
         | Some sd => or_null (prop (attributes sd) (lit "android:minSdkVersion"))
         | None => minSdkVersion info
         end;
       targetSdkVersion :=
         match sdk with
         | Some sd => or_null (prop (attributes sd) (lit "android:targetSdkVersion"))
         | None => targetSdkVersion info
         end;
       permissions := names (_children manifest (lit "uses-permission"));
       activities :=
         match app with
         | Some ap =>
             map (fun act => {| act_name := or_empty (android_name act);
                                isLauncher := _isLauncher act |})
               (_children ap (lit "activity"))
         | None => activities info
         end;
       services :=
         match app with
         | Some ap => names (_children ap (lit "service"))
         | None => services info
         end;
       receivers :=
         match app with
         | Some ap => names (_children ap (lit "receiver"))
         | None => receivers info
         end;
       icon := icon info;
       iconPath :=
         match app with
         | Some ap => if literal_path (iconAttr ap) then iconAttr ap else iconPath info
         | None => iconPath info
         end;
       signingInfo := signingInfo info;
       debuggable :=
         match app with
         | Some ap =>
             bool_decide (prop (attributes ap) (lit "android:debuggable") = VBool true)
         | None => debuggable info
         end;
       architectures := architectures info;
       dexCount := dexCount info; totalFiles := totalFiles info;
       _manifestError := _manifestError info |}.

Definition candidates : list jsstring :=
  map lit
    [ "res/mipmap-xxxhdpi-v4/ic_launcher.png";
      "res/mipmap-xxhdpi-v4/ic_launcher.png";
      "res/mipmap-xhdpi-v4/ic_launcher.png";
      "res/mipmap-hdpi-v4/ic_launcher.png";
      "res/mipmap-mdpi-v4/ic_launcher.png";
      "res/mipmap-xxxhdpi/ic_launcher.png";
      "res/mipmap-xxhdpi/ic_launcher.png";
      "res/mipmap-xhdpi/ic_launcher.png";
      "res/mipmap-hdpi/ic_launcher.png";
      "res/drawable-xxxhdpi-v4/ic_launcher.png";
      "res/drawable-xxhdpi-v4/ic_launcher.png";
      "res/drawable-xhdpi-v4/ic_launcher.png";
      "res/drawable-hdpi-v4/ic_launcher.png";
      "res/mipmap-xxxhdpi-v4/ic_launcher_round.png";
      "res/mipmap-xxhdpi-v4/ic_launcher_round.png";
      "res/mipmap-xxxhdpi/ic_launcher_round.png";
      "res/mipmap-xxhdpi/ic_launcher_round.png" ]%string.

Definition densityRank : list jsstring :=
  map lit [ "xxxhdpi"; "xxhdpi"; "xhdpi"; "hdpi"; "mdpi" ]%string.

(** [densityRank.findIndex(d => a.includes(d))], 99 when there is none. *)
Fixpoint density (a : jsstring) (ranks : list jsstring) (i : Z) : Z :=
  match ranks with
  | [] => 99
  | d :: rest => if includes a d then i else density a rest (i + 1)
  end.

(** [for (const path of candidates)]: the first path with an entry. *)
Fixpoint first_entry (z : zip) (paths : list jsstring)
  : option (jsstring * result (list Z)) :=
  match paths with
  | [] => None
  | path :: rest =>
      match file z path with
      | Some entry => Some (path, entry)
      | None => first_entry z rest
      end
  end.

(** Returns the icon and the [info] with its [iconPath].  The entry is
    read outside any [try]: a read that is rejected ends [_extractIcon],
    and [parse] with it. *)
Definition _extractIcon (z : zip) (info : BuildInfo) : result (option url * BuildInfo) :=
  let explicit := if truthy (iconPath info) then lookup z (iconPath info) else None in
  match explicit with
  | Some entry => bind entry (fun blob => Ok (Some (ObjectURL blob), info))
  | None =>
      match first_entry z candidates with
      | Some (path, entry) =>
          bind entry (fun blob =>
            Ok (Some (ObjectURL blob), set_iconPath info (VStr path)))
      | None =>
          let ranked :=
            sort_by (fun f => density f densityRank 0)
              (filter (fun f => is_launcher_png f = true) (keys z)) in
          match ranked with
          | m :: _ =>
              match file z m with
              | Some entry =>
                  bind entry (fun blob =>
                    Ok (Some (ObjectURL blob), set_iconPath info (VStr m)))
              | None => Ok (None, info)
              end
          | [] => Ok (None, info)
          end
      end
  end.

Definition initial (f : upload) (z : zip) : BuildInfo :=
  {| type := lit "APK"; fileName := name f; fileSize := size f;
     package := VNull; appName := VNull; versionCode := VNull; versionName := VNull;
     minSdkVersion := VNull; targetSdkVersion := VNull;
     permissions := []; activities := []; services := []; receivers := [];
     icon := None; iconPath := VNull; signingInfo := None; debuggable := false;
     architectures := None; dexCount := 0;
     totalFiles := Z.of_nat (length (keys z));
     _manifestError := None |}.

(** The [try] around the manifest: the entry is read, the tree decoded
    and projected, or the exception is caught and stored. *)
Definition manifest_step (native : jsstring -> jsstring) (z : zip) (info : BuildInfo)
  : option BuildInfo :=
  match file z (lit "AndroidManifest.xml") with
  | Some (Ok buf) =>
      match AXMLParser.parse native buf with
      | Some (Ok tree) => Some (_extractManifest tree info)
      | Some (Throw e) => Some (set_manifestError info e)
      | None => None
      end
  | Some (Throw e) => Some (set_manifestError info e)
  | None => Some info
  end.

Definition signing_of (z : zip) : option signing :=
  let metaFiles := filter (fun f => startsWith f (lit "META-INF/") = true) (keys z) in
  match find is_cert metaFiles with
  | Some cert =>
      Some {| signed := true; certFile := cert;
              signatureFiles := filter (fun f => is_signature f = true) metaFiles |}
  | None => None
  end.

Definition architectures_of (z : zip) : option (list jsstring) :=
  let soFiles :=
    filter (fun f => (startsWith f (lit "lib/") && endsWith f (lit ".so")) = true)
      (keys z) in
  match soFiles with
  | [] => None
  | _ => Some (dedupe (map (fun f => default [] (split_slash f [] !! 1%nat)) soFiles) [])
  end.

Definition dexCount_of (z : zip) : Z :=
  Z.of_nat (length (filter (fun f => endsWith f (lit ".dex") = true) (keys z))).

(** [APKParser.parse(file)] once JSZip has loaded the archive. *)
Definition parse (native : jsstring -> jsstring) (f : upload) (z : zip)
  : option (result BuildInfo) :=
  match manifest_step native z (initial f z) with
  | None => None
  | Some info =>
      match _extractIcon z info with
      | Throw e => Some (Throw e)
      | Ok (ic, info) =>
          Some (Ok
            {| type := type info; fileName := fileName info; fileSize := fileSize info;
               package := package info; appName := appName info;
               versionCode := versionCode info; versionName := versionName info;
               minSdkVersion := minSdkVersion info;
               targetSdkVersion := targetSdkVersion info;
               permissions := permissions info; activities := activities info;
               services := services info; receivers := receivers info;
               icon := ic; iconPath := iconPath info;
               signingInfo := signing_of z;
               debuggable := debuggable info;
               architectures := architectures_of z;
               dexCount := dexCount_of z; totalFiles := totalFiles info;
               _manifestError := _manifestError info |})
      end
  end.
End APKParser.

(** ** class IPAParser *)

Module IPAParser.
Import JS Text Archive.

Definition NoAppBundle : exn := Error "No .app bundle found inside IPA".

Section Stages.
(** What [parse] leaves to the browser and to the dynamic typing of the
    engine, taken as it behaves:
    - [_parseXMLPlist]: the DOM parser, a value or an exception;
    - [PlistInfo], [_extractPlistInfo plist fields]: the fields of [info]
      that [_extractPlistInfo] assigns ([blank] their initial values) as
      far as they were assigned, and the icon name hints or the exception
      raised by a property read on the way; a hint is whatever value the
      plist holds, not necessarily a string;
    - [plus h s]: the operator [h + s] for a hint and a string, a string
      or the exception raised by the conversion of [h];
    - [_loadIconEntry]: a URL or [null]; it catches what reading or
      converting the entry raises;
    - [_parseProvisioning]: a record, [null], or an exception;
    - [overflow]: the exception of an exhausted call stack. *)
Variables PlistValue PlistInfo Provisioning Hint : Type.
Variable blank : PlistInfo.
Variable of_bplist : BPlistParser.jsval -> PlistValue.
Variable _parseXMLPlist : jsstring -> result PlistValue.
Variable _extractPlistInfo :
  PlistValue -> PlistInfo -> PlistInfo * result (list Hint).
Variable plus : Hint -> jsstring -> result jsstring.
Variable _loadIconEntry : result (list Z) -> option url.
Variable _parseProvisioning : list Z -> result (option Provisioning).
Variable overflow : exn.

(** The [info] object: [plistInfo] stands for the fields that
    [_extractPlistInfo] assigns; [iconPath], which stays [null], is left
    out.  [_plistError] holds the exception whose [message] the source
    stores. *)
Record BuildInfo := {
  type : jsstring;
  fileName : jsstring;
  fileSize : Z;
  plistInfo : PlistInfo;
  icon : option url;
  hasProvisioning : bool;
  provisioningInfo : option Provisioning;
  frameworks : option (list jsstring);
  totalFiles : Z;
  _plistError : option exn
}.

(** [String.fromCharCode(...bytes.slice(0, 6))]. *)
Definition magic (buffer : list Z) : jsstring := take 6 buffer.

(** [depth] is the room the call stack has for the binary decoder. *)
Definition _parsePlist (depth : nat) (buffer : list Z) : option (result PlistValue) :=
  if bool_decide (magic buffer = lit "bplist") then
    match BPlistParser.parse_within overflow depth buffer with
    | Some (Ok v) => Some (Ok (of_bplist v))
    | Some (Throw e) => Some (Throw e)
    | None => None
    end
  else
    let text := utf8_decode buffer in
    if includes text (lit "<plist") then Some (_parseXMLPlist text)
    else Some (Throw (Error "Unknown plist format")).

(** The [try] around Info.plist: fields, icon hints, stored error. *)
Definition plist_step (depth : nat) (z : zip) (appDir : jsstring)
  : option (PlistInfo * list Hint * option exn) :=
  match file z (appDir ++ lit "Info.plist") with
  | Some (Ok buf) =>
      match _parsePlist depth buf with
      | None => None
      | Some (Throw e) => Some (blank, [], Some e)
      | Some (Ok plist) =>
          match _extractPlistInfo plist blank with
          | (fields, Ok hints) => Some (fields, hints, None)
          | (fields, Throw e) => Some (fields, [], Some e)
          end
      end
  | Some (Throw e) => Some (blank, [], Some e)
  | None => Some (blank, [], None)
  end.

(** [search.push(h + '@3x.png', h + '@2x.png', h + '.png')] for every
    hint, in order. *)
Fixpoint hint_names (hints : list Hint) : result (list jsstring) :=
  match hints with
  | [] => Ok []
  | h :: rest =>
      bind (plus h (lit "@3x.png")) (fun n3 =>
      bind (plus h (lit "@2x.png")) (fun n2 =>
      bind (plus h (lit ".png")) (fun n1 =>
      bind (hint_names rest) (fun names => Ok (n3 :: n2 :: n1 :: names)))))
  end.

Definition known_names : list jsstring :=
  map lit
    [ "AppIcon60x60@3x.png";
      "AppIcon60x60@2x.png";
      "AppIcon76x76@2x~ipad.png";
      "AppIcon76x76@2x.png";
      "AppIcon76x76.png";
      "AppIcon40x40@3x.png";
      "AppIcon40x40@2x.png";
      "Icon-60@3x.png";
      "Icon-60@2x.png";
      "Icon@2x.png";
      "Icon.png" ]%string.

(** [for (const name of search)]: the first entry that exists and
    loads. *)
Fixpoint first_icon (z : zip) (appDir : jsstring) (names : list jsstring) : option url :=
  match names with
  | [] => None
  | name :: rest =>
      match file z (appDir ++ name) with
      | Some entry =>
          match _loadIconEntry entry with
          | Some u => Some u
          | None => first_icon z appDir rest
          end
      | None => first_icon z appDir rest
      end
  end.

(** [s.includes('@3x') ? 0 : s.includes('@2x') ? 1 : 2]. *)
Definition rank (s : jsstring) : Z :=
  if includes s (lit "@3x") then 0 else if includes s (lit "@2x") then 1 else 2.

Definition _extractIcon (z : zip) (appDir : jsstring) (hints : list Hint)
    (allFiles : list jsstring) : result (option url) :=
  bind (hint_names hints) (fun names =>
    let search := names ++ known_names in
    match first_icon z appDir search with
    | Some u => Ok (Some u)
    | None =>
        let ranked :=
          sort_by rank
            (filter (fun f => (startsWith f appDir && is_appicon_png f) = true) allFiles) in
        match ranked with
        | m :: _ =>
            match file z m with
            | Some entry => Ok (_loadIconEntry entry)
            | None => Ok None
            end
        | [] => Ok None
        end
    end).

(** The [try] around the provisioning profile. *)
Definition provisioning_step (z : zip) (appDir : jsstring)
  : bool * option Provisioning :=
  match file z (appDir ++ lit "embedded.mobileprovision") with
  | Some (Ok buf) =>
      match _parseProvisioning buf with
      | Ok prov => (true, prov)
      | Throw _ => (true, None)
      end
  | Some (Throw _) => (true, None)
  | None => (false, None)
  end.

(** [s.replace(/\.framework\/$/, '')]. *)
Definition strip_framework (s : jsstring) : jsstring :=
  if endsWith s (lit ".framework/") then take (length s - 11)%nat s else s.

Definition frameworks_of (z : zip) (appDir : jsstring) : option (list jsstring) :=
  let fwPrefix := appDir ++ lit "Frameworks/" in
  let fws :=
    map (fun f => strip_framework (drop (length fwPrefix) f))
      (filter (fun f => (startsWith f fwPrefix && endsWith f (lit ".framework/")) = true)
         (keys z)) in
  match fws with
  | [] => None
  | _ => Some fws
  end.

(** [IPAParser.parse(file)] once JSZip has loaded the archive; [None]
    when the plist decoder never returns. *)
Definition parse (depth : nat) (f : upload) (z : zip) : option (result BuildInfo) :=
  let files := keys z in
  match find is_app_dir files with
  | None => Some (Throw NoAppBundle)
  | Some appDir =>
      match plist_step depth z appDir with
      | None => None
      | Some (fields, iconFileNames, err) =>
          match _extractIcon z appDir iconFileNames files with
          | Throw e => Some (Throw e)
          | Ok ic =>
              let '(hasProv, prov) := provisioning_step z appDir in
              Some (Ok {| type := lit "IPA"; fileName := name f; fileSize := size f;
                          plistInfo := fields; icon := ic;
                          hasProvisioning := hasProv; provisioningInfo := prov;
                          frameworks := frameworks_of z appDir;
                          totalFiles := Z.of_nat (length files);
                          _plistError := err |})
          end
      end
  end.
End Stages.
End IPAParser.

(** ** Inputs used by the examples *)

Module Fixtures.
Import JS.

(** The trailer of a one-byte-offset, one-byte-reference plist. *)
Definition trailer (numObjects topIndex tableOffset : Z) : list Z :=
  [0; 0; 0; 0; 0; 0; 1; 1] ++
  [0; 0; 0; 0; 0; 0; 0; numObjects] ++
  [0; 0; 0; 0; 0; 0; 0; topIndex] ++
  [0; 0; 0; 0; 0; 0; 0; tableOffset].

(** One object, an array of one element whose reference is the array's
    own index 0. *)
Definition selfref : list Z :=
  lit "bplist00" ++ [161; 0] ++ [8] ++ trailer 1 0 10.

(** An array whose two elements are the same object, the string "hi". *)
Definition shared : list Z :=
  lit "bplist00" ++ [162; 1; 1] ++ [82; 104; 105] ++ [8; 11] ++ trailer 2 0 14.

(** One object whose marker byte is 0x70. *)
Definition unknown_marker : list Z :=
  lit "bplist00" ++ [112] ++ [8] ++ trailer 1 0 9.

(** The parser states [load] reaches on these files. *)
Definition selfref_parser : BPlistParser.parser :=
  {| BPlistParser.bytes := selfref;
     BPlistParser.offsets := [Fin 8];
     BPlistParser.objectRefSize := Some 1 |}.

Definition shared_parser : BPlistParser.parser :=
  {| BPlistParser.bytes := shared;
     BPlistParser.offsets := [Fin 8; Fin 11];
     BPlistParser.objectRefSize := Some 1 |}.

Definition unknown_parser : BPlistParser.parser :=
  {| BPlistParser.bytes := unknown_marker;
     BPlistParser.offsets := [Fin 8];
     BPlistParser.objectRefSize := Some 1 |}.

(** One row of one RGBA pixel, filter None, stored B, G, R, A. *)
Definition premultiplied : list Z := [0; 80; 80; 80; 128].

(** The same with B, G, R, A = 1, 3, 5, 6: the quotients 42.5, 127.5 and
    212.5 lie half-way between two integers. *)
Definition halfway : list Z := [0; 1; 3; 5; 6].

(** The proto-XML manifest of an element [manifest] with one attribute
    [versionCode] whose compiled item is the primitive int_dec 42. *)
Definition primitive_42 : list Z := [48; 42].
Definition item_42 : list Z := [58; 2] ++ primitive_42.
Definition attribute_versionCode : list Z :=
  [18; 11] ++ lit "versionCode" ++ [50; 4] ++ item_42.
Definition element_manifest : list Z :=
  [26; 8] ++ lit "manifest" ++ [34; 19] ++ attribute_versionCode.
Definition node_manifest : list Z := [10; 31] ++ element_manifest.





(** The text of the built-in functions of [Object.prototype] as V8
    prints them, and of the prototype object itself. *)
Definition native_text (name : jsstring) : jsstring :=
  if bool_decide (name = lit "__proto__") then lit "[object Object]"
  else lit "function " ++ name ++ lit "() { [native code] }".

(** A manifest tree with two activities; only the second has an intent
    filter with both the MAIN action and the LAUNCHER category. *)
Definition named (t name : string) (kids : list XmlTree.element) : XmlTree.element :=
  XmlTree.Element (XmlTree.VStr (lit t))
    {[ lit "android:name" := XmlTree.VStr (lit name) ]} kids [].

Definition two_activities : XmlTree.element :=
  XmlTree.Element (XmlTree.VStr (lit "manifest"))
    {[ lit "package" := XmlTree.VStr (lit "com.example") ]}
    [ XmlTree.Element (XmlTree.VStr (lit "application")) ∅
        [ named "activity" ".Settings"
            [ XmlTree.Element (XmlTree.VStr (lit "intent-filter")) ∅
                [ named "action" "android.intent.action.MAIN" [];
                  named "category" "android.intent.category.DEFAULT" [] ] [] ];
          named "activity" ".Main"
            [ XmlTree.Element (XmlTree.VStr (lit "intent-filter")) ∅
                [ named "action" "android.intent.action.MAIN" [];
                  named "category" "android.intent.category.LAUNCHER" [] ] [] ] ]
        [] ]
    [].

Definition two_activities_app : XmlTree.element :=
  default two_activities (XmlTree.children two_activities !! 0%nat).

Definition le16 (z : Z) : list Z := [z mod 256; z / 256].
Definition le32 (z : Z) : list Z :=
  [z mod 256; z / 256 mod 256; z / 65536 mod 256; z / 16777216].

(** A UTF-8 pool string: both length bytes, the text, the terminator. *)
Definition pool_string (s : string) : list Z :=
  [Z.of_nat (String.length s); Z.of_nat (String.length s)] ++ lit s ++ [0].

(** The pool "manifest", "package", "com.example". *)
Definition axml_pool : list Z :=
  le16 1 ++ le16 28 ++ le32 76 ++
  le32 3 ++ le32 0 ++ le32 256 ++ le32 40 ++ le32 0 ++
  le32 0 ++ le32 11 ++ le32 21 ++
  pool_string "manifest" ++ pool_string "package" ++ pool_string "com.example" ++ [0].

(** [<manifest package="com.example" ...>] with a second attribute whose
    name index 7 and raw value index 9 are outside the pool. *)
Definition axml_start : list Z :=
  le16 258 ++ le16 16 ++ le32 76 ++ le32 1 ++ le32 4294967295 ++
  le32 4294967295 ++ le32 0 ++ le16 20 ++ le16 20 ++ le16 2 ++
  le16 0 ++ le16 0 ++ le16 0 ++
  (le32 4294967295 ++ le32 1 ++ le32 2 ++ le16 8 ++ [0; 3] ++ le32 2) ++
  (le32 4294967295 ++ le32 7 ++ le32 9 ++ le16 8 ++ [0; 3] ++ le32 9).

Definition axml_end : list Z :=
  le16 259 ++ le16 16 ++ le32 24 ++ le32 1 ++ le32 4294967295 ++
  le32 4294967295 ++ le32 0.

Definition axml_manifest : list Z :=
  le16 3 ++ le16 8 ++ le32 184 ++ axml_pool ++ axml_start ++ axml_end.

(** A file header and a string pool chunk that announces five strings but
    ends after its own header. *)
Definition axml_short_pool : list Z :=
  le16 3 ++ le16 8 ++ le32 36 ++
  le16 1 ++ le16 28 ++ le32 28 ++
  le32 5 ++ le32 0 ++ le32 256 ++ le32 48 ++ le32 0.

(** Eight bytes that do not open with 0x0003. *)
Definition not_axml : list Z := [80; 75; 3; 4; 0; 0; 0; 0].

(** An APK whose manifest is the short-pool buffer, with two dex files,
    native libraries for two architectures and a signature. *)
Definition broken_apk : Archive.zip :=
  {| Archive.keys :=
       map lit [ "AndroidManifest.xml"; "classes.dex"; "classes2.dex";
                 "lib/arm64-v8a/libfoo.so"; "lib/x86/libfoo.so";
                 "lib/arm64-v8a/libbar.so";
                 "META-INF/CERT.RSA"; "META-INF/CERT.SF"; "META-INF/MANIFEST.MF" ]%string;
     Archive.file := fun path =>
       if bool_decide (path = lit "AndroidManifest.xml") then Some (Ok axml_short_pool)
       else None;
     Archive.file_complex := fun _ _ _ => None |}.

(** The same manifest beside a launcher icon whose compressed data
    cannot be inflated. *)
Definition unreadable_icon_apk : Archive.zip :=
  {| Archive.keys :=
       map lit [ "AndroidManifest.xml"; "classes.dex";
                 "res/mipmap-xxxhdpi-v4/ic_launcher.png" ]%string;
     Archive.file := fun path =>
       if bool_decide (path = lit "AndroidManifest.xml") then Some (Ok axml_short_pool)
       else if bool_decide (path = lit "res/mipmap-xxxhdpi-v4/ic_launcher.png")
       then Some (Throw (Error "invalid stored block lengths"))
       else None;
     Archive.file_complex := fun _ _ _ => None |}.

Definition broken_apk_file : Archive.upload :=
  {| Archive.name := lit "app.apk"; Archive.size := 4096 |}.

(** An IPA with files under Payload/Foo.app/ but no entry for the
    directory itself, and the same with that entry. *)
Definition ipa_without_directory : Archive.zip :=
  {| Archive.keys := map lit [ "Payload/Foo.app/Info.plist"; "Payload/Foo.app/Foo" ]%string;
     Archive.file := fun _ => None;
     Archive.file_complex := fun _ _ _ => None |}.

Definition ipa_with_directory : Archive.zip :=
  {| Archive.keys :=
       map lit [ "Payload/"; "Payload/Foo.APP/"; "Payload/Foo.APP/Info.plist" ]%string;
     Archive.file := fun path =>
       if bool_decide (path = lit "Payload/Foo.APP/Info.plist") then Some (Ok [0; 1; 2])
       else None;
     Archive.file_complex := fun _ _ _ => None |}.

(** The same with an Info.plist that is an XML plist. *)
Definition ipa_with_plist : Archive.zip :=
  {| Archive.keys :=
       map lit [ "Payload/"; "Payload/Foo.APP/"; "Payload/Foo.APP/Info.plist";
                 "Payload/Foo.APP/embedded.mobileprovision" ]%string;
     Archive.file := fun path =>
       if bool_decide (path = lit "Payload/Foo.APP/Info.plist") then Some (Ok (lit "<plist/>"))
       else if bool_decide (path = lit "Payload/Foo.APP/AppIcon@3x.png")
       then Some (Throw (Error "invalid stored block lengths"))
       else if bool_decide (path = lit "Payload/Foo.APP/embedded.mobileprovision")
       then Some (Throw (Error "invalid stored block lengths"))
       else None;
     Archive.file_complex := fun _ _ _ => None |}.

(** The icon hints of the examples: a string, or a dictionary with an
    entry [toString].  No plist value is callable, so converting such a
    dictionary to a string finds no method to call and raises a
    TypeError, given here by its message. *)
Inductive hint :=
| Name (s : jsstring)
| Shadowed.

Definition hint_plus (h : hint) (s : jsstring) : result jsstring :=
  match h with
  | Name t => Ok (t ++ s)
  | Shadowed => Throw (Error "Cannot convert object to primitive value")
  end.

(** The simplest browser for [IPAParser.parse]: no plist fields, an XML
    reader that accepts everything and a plist whose icon hints are
    [hints], no icon that loads, no provisioning record. *)
Definition ipa_parse (hints : list hint) (depth : nat) (f : Archive.upload)
    (z : Archive.zip) : option (result (IPAParser.BuildInfo unit unit)) :=
  IPAParser.parse unit unit unit hint tt (fun _ => tt) (fun _ => Ok tt)
    (fun _ fields => (fields, Ok hints)) hint_plus (fun _ => None)
    (fun _ => Ok None) RangeError depth f z.

Definition ipa_file : Archive.upload :=
  {| Archive.name := lit "app.ipa"; Archive.size := 1024 |}.

(** A manifest with two permissions, one of them without a name, and an
    application with a service and a receiver without a name. *)
Definition with_permissions : XmlTree.element :=
  XmlTree.Element (XmlTree.VStr (lit "manifest")) ∅
    [ named "uses-permission" "android.permission.INTERNET" [];
      named "uses-permission" "" [];
      XmlTree.Element (XmlTree.VStr (lit "application")) ∅
        [ named "service" ".Sync" [];
          XmlTree.Element (XmlTree.VStr (lit "receiver")) ∅ [] [] ] [] ]
    [].

(** An APK with icons at the third and the sixth candidate path. *)
Definition two_icons_apk : Archive.zip :=
  {| Archive.keys :=
       map lit [ "res/mipmap-xhdpi-v4/ic_launcher.png";
                 "res/mipmap-xxxhdpi/ic_launcher.png" ]%string;
     Archive.file := fun path =>
       if bool_decide (path = lit "res/mipmap-xhdpi-v4/ic_launcher.png") then Some (Ok [1])
       else if bool_decide (path = lit "res/mipmap-xxxhdpi/ic_launcher.png")
       then Some (Ok [2])
       else None;
     Archive.file_complex := fun _ _ _ => None |}.

(** A rank that decreases along the references of [shared]. *)
Definition shared_rank (i : num) : nat :=
  match i with
  | Fin 0 => 1
  | _ => 0
  end.
End Fixtures.

(** * Properties *)

(** ** The Paeth predictor *)

Section Paeth.
Import CrushedPNG.

(** C8. The Paeth predictor returns one of [a], [b], [c] whose distance
    from [p = a + b - c] is smallest; on equal distances [a] is chosen
    before [b] and [c], and [b] before [c]. *)
Theorem paeth_nearest_ties_a_b_c (a b c : Z) :
  let p := a + b - c in
  let dist x := Z.abs (p - x) in
  let r := _paeth a b c in
  (r = a \/ r = b \/ r = c) /\
  (dist r <= dist a /\ dist r <= dist b /\ dist r <= dist c) /\
  (dist a <= dist b /\ dist a <= dist c -> r = a) /\
  (dist b < dist a /\ dist b <= dist c -> r = b) /\
  (dist c < dist a /\ dist c < dist b -> r = c).
Proof.
  intros p dist r. subst r dist p. unfold _paeth. cbv zeta.
  destruct (Z.leb_spec (Z.abs (a + b - c - a)) (Z.abs (a + b - c - b)));
    destruct (Z.leb_spec (Z.abs (a + b - c - a)) (Z.abs (a + b - c - c)));
    destruct (Z.leb_spec (Z.abs (a + b - c - b)) (Z.abs (a + b - c - c)));
    cbn [andb]; repeat split; auto; lia.
Qed.
End Paeth.

(** ** The binary plist decoder: memoization and the reference graph *)

Section BPlistMemo.
Import JS BPlistParser.

Lemma grows_ret {A} (a : A) : grows (ret a).
Proof. intros c r c' [= <- <-]. done. Qed.

Lemma grows_lift {A} (x : result A) : grows (lift x).
Proof. intros c r c' [= <- <-]. done. Qed.

Lemma grows_lift_opt {A} (o : option (result A)) : grows (lift_opt o).
Proof. intros c r c'. unfold lift_opt. destruct o; intros [= <- <-]. done. Qed.

Lemma grows_mbind {A B} (m : M A) (k : A -> M B) :
  grows m -> (forall a, grows (k a)) -> grows (mbind m k).
Proof.
  intros Hm Hk c r c'. unfold mbind.
  destruct (m c) as [[[a|e] c1]|] eqn:E; [|intros [= <- <-]; eauto|done].
  intros H. etrans; [eapply Hm, E|eapply Hk, H].
Qed.

Lemma grows_no_exitM {A} (m : M A) : grows m -> grows (no_exitM m).
Proof.
  intros Hm c r c'. unfold no_exitM.
  destruct (m c) as [[[a|e] c1]|] eqn:E; [done| |done].
  intros [= <- <-]. eauto.
Qed.

Section Loops.
Variable parseObject : num -> M jsval.
Variable p : parser.
Hypothesis rec_grows : forall i, grows (parseObject i).

Lemma grows_array_loop start n : forall i arr, grows (array_loop parseObject p start n i arr).
Proof.
  induction n as [|n IH]; intros i arr; cbn [array_loop].
  - apply grows_ret.
  - apply grows_mbind; [apply rec_grows|intros v; apply IH].
Qed.

Lemma grows_dict_loop ks vs n : forall i d, grows (dict_loop parseObject p ks vs n i d).
Proof.
  induction n as [|n IH]; intros i d; cbn [dict_loop].
  - apply grows_ret.
  - apply grows_mbind; [apply rec_grows|intros k].
    apply grows_mbind; [apply rec_grows|intros v; apply IH].
Qed.

Lemma grows_parseArray offset info : grows (_parseArray parseObject p offset info).
Proof.
  unfold _parseArray. destruct (_getCount p offset info) as [count headerLen].
  apply grows_mbind; [apply grows_lift|intros n].
  apply grows_mbind; [apply grows_array_loop|intros arr; apply grows_ret].
Qed.

Lemma grows_parseDict offset info : grows (_parseDict parseObject p offset info).
Proof.
  unfold _parseDict. destruct (_getCount p offset info) as [count headerLen].
  assert (Hrun : forall n,
    grows (mbind (dict_loop parseObject p (add offset headerLen)
                    (add (add offset headerLen) (mul count (num_of (objectRefSize p)))) n 0 [])
             (fun d => ret (JDict d)))).
  { intros n. apply grows_mbind; [apply grows_dict_loop|intros d; apply grows_ret]. }
  destruct count as [c|[]|]; try apply grows_ret.
  - destruct (c <=? 2 ^ 53); [apply Hrun|apply grows_no_exitM, Hrun].
  - apply grows_no_exitM, Hrun.
Qed.
End Loops.

Lemma parseObject_unfold fuel p index c :
  _parseObject (S fuel) p index c =
    match c !! index with
    | Some v => Some (Ok v, c)
    | None =>
        let offset := default NaN (idx (offsets p) index) in
        let marker := byteAt p offset in
        let type := Z.shiftr (band marker 240) 4 in
        let info := band marker 15 in
        let value : M jsval :=
          if type =? 0 then ret (_parseSimple info)
          else if type =? 1 then ret (_parseInt p offset info)
          else if type =? 2 then lift (_parseReal p offset info)
          else if type =? 3 then lift (_parseDate p offset)
          else if type =? 4 then ret (_parseData p offset info)
          else if type =? 5 then lift_opt (Ok <$> _parseAscii p offset info)
          else if type =? 6 then lift_opt (_parseUnicode p offset info)
          else if type =? 8 then ret (_parseUid p offset info)
          else if type =? 10 then _parseArray (_parseObject fuel p) p offset info
          else if type =? 12 then _parseArray (_parseObject fuel p) p offset info
          else if type =? 13 then _parseDict (_parseObject fuel p) p offset info
          else ret JUndefined in
        match value c with
        | Some (Ok v, c') => Some (Ok v, <[index := v]> c')
        | other => other
        end
    end.
Proof. reflexivity. Qed.

Lemma parseObject_grows p fuel : forall index, grows (_parseObject fuel p index).
Proof.
  induction fuel as [|fuel IH]; intros index c r c'; [done|].
  rewrite parseObject_unfold.
  destruct (c !! index) as [v|] eqn:Hc; [intros [= <- <-]; done|].
  cbv zeta.
  set (offset := default NaN (idx (offsets p) index)).
  set (marker := byteAt p offset).
  set (type := Z.shiftr (band marker 240) 4).
  set (info := band marker 15).
  match goal with |- match ?m c with _ => _ end = _ -> _ =>
    assert (Hv : grows m); [|destruct (m c) as [[[v|e] c1]|] eqn:E]
  end.
  { repeat match goal with |- grows (if ?b then _ else _) => destruct b end;
      auto using @grows_ret, @grows_lift, @grows_lift_opt,
        grows_parseArray, grows_parseDict. }
  - intros [= <- <-]. apply Hv in E.
    apply map_subseteq_spec. intros k x Hk.
    destruct (decide (index = k)) as [->|Hne]; [congruence|].
    rewrite lookup_insert_ne by done.
    eapply lookup_weaken; eauto.
  - intros [= <- <-]. eauto.
  - done.
Qed.

Lemma parseObject_memoized p fuel index c v c' :
  _parseObject fuel p index c = Some (Ok v, c') -> c' !! index = Some v.
Proof.
  destruct fuel as [|fuel]; [done|]. rewrite parseObject_unfold.
  destruct (c !! index) as [w|] eqn:Hc; [intros [= <- <-]; done|].
  cbv zeta.
  match goal with |- match ?m with _ => _ end = _ -> _ =>
    destruct m as [[[w|e] c1]|]
  end; [|done|done].
  intros [= <- <-]. apply lookup_insert_eq.
Qed.

Lemma parseObject_hit p fuel index c v :
  c !! index = Some v -> _parseObject (S fuel) p index c = Some (Ok v, c).
Proof. intros H. rewrite parseObject_unfold, H. done. Qed.

End BPlistMemo.

Section BPlistTermination.
Import JS BPlistParser.

Lemma returns_ret {A} (a : A) : returns (ret a).
Proof. intros c. eexists; reflexivity. Qed.

Lemma returns_lift {A} (x : result A) : returns (lift x).
Proof. intros c. eexists; reflexivity. Qed.

Lemma returns_mbind {A B} (m : M A) (k : A -> M B) :
  returns m -> (forall a, returns (k a)) -> returns (mbind m k).
Proof.
  intros Hm Hk c. unfold mbind.
  destruct (Hm c) as [[[a|e] c1] ->]; [apply Hk|eexists; reflexivity].
Qed.

Section Loops.
Variable parseObject : num -> M jsval.
Variable p : parser.

Lemma returns_array_loop start n :
  forall i arr,
    (forall k, i <= k < i + Z.of_nat n -> returns (parseObject (readRef p start k))) ->
    returns (array_loop parseObject p start n i arr).
Proof.
  induction n as [|n IH]; intros i arr H; cbn [array_loop].
  - apply returns_ret.
  - apply returns_mbind; [apply H; lia|intros v; apply IH].
    intros k Hk. apply H. lia.
Qed.

Lemma returns_dict_loop ks vs n :
  forall i d,
    (forall k, i <= k < i + Z.of_nat n ->
       returns (parseObject (readRef p ks k)) /\
       returns (parseObject (readRef p vs k))) ->
    returns (dict_loop parseObject p ks vs n i d).
Proof.
  induction n as [|n IH]; intros i d H; cbn [dict_loop].
  - apply returns_ret.
  - apply returns_mbind; [apply H; lia|intros k].
    apply returns_mbind; [apply H; lia|intros v; apply IH].
    intros j Hj. apply H. lia.
Qed.
End Loops.

Lemma elem_of_seqZ_0 k n : 0 <= k < n -> k ∈ seqZ 0 n.
Proof. intros H. apply elem_of_seqZ. lia. Qed.

Lemma acyclic_returns p (rank : num -> nat) :
  (forall i j, j ∈ refs p i -> (rank j < rank i)%nat) ->
  (forall i, loop_exits p i) ->
  forall fuel index, (rank index < fuel)%nat -> returns (_parseObject fuel p index).
Proof.
  intros Hrank Hexit fuel.
  induction fuel as [|fuel IH]; intros index Hfuel c; [lia|].
  cbn [_parseObject].
  destruct (c !! index) as [v|] eqn:Hc; [eexists; reflexivity|].
  cbv zeta.
  specialize (Hrank index). specialize (Hexit index).
  unfold refs in Hrank. unfold loop_exits in Hexit. cbv zeta in Hrank, Hexit.
  set (offset := default NaN (idx (offsets p) index)) in *.
  set (marker := byteAt p offset) in *.
  set (type := Z.shiftr (band marker 240) 4) in *.
  set (info := band marker 15) in *.
  match goal with |- is_Some (match ?m c with _ => _ end) =>
    assert (Hv : returns m);
    [|destruct (Hv c) as [[[v|e] c1] ->]; eexists; reflexivity]
  end.
  assert (Hrec : forall j, j ∈ refs p index -> returns (_parseObject fuel p j)).
  { intros j Hj. apply IH.
    assert (rank j < rank index)%nat; [|lia].
    apply Hrank. exact Hj. }
  clear IH. unfold refs in Hrec. cbv zeta in Hrec.
  fold offset marker type info in Hrec.
  destruct (Z.eqb_spec type 0); [apply returns_ret|].
  destruct (Z.eqb_spec type 1); [apply returns_ret|].
  destruct (Z.eqb_spec type 2); [apply returns_lift|].
  destruct (Z.eqb_spec type 3); [apply returns_lift|].
  destruct (Z.eqb_spec type 4); [apply returns_ret|].
  destruct (Z.eqb_spec type 5) as [E5|].
  { intros c0. unfold lift_opt, _parseAscii.
    assert (Hin : type ∈ [5; 6; 13]) by (rewrite E5; set_solver).
    specialize (Hexit Hin).
    destruct (_getCount p offset info) as [count headerLen]. cbn [fst] in Hexit.
    unfold _ascii. destruct count as [z|[]|]; try done; try (eexists; reflexivity).
    destruct (Z.leb_spec z (2 ^ 53)); [eexists; reflexivity|lia]. }
  destruct (Z.eqb_spec type 6) as [E6|].
  { intros c0. unfold lift_opt, _parseUnicode.
    assert (Hin : type ∈ [5; 6; 13]) by (rewrite E6; set_solver).
    specialize (Hexit Hin).
    destruct (_getCount p offset info) as [count headerLen]. cbn [fst] in Hexit.
    destruct count as [z|[]|]; try done; try (eexists; reflexivity).
    destruct (Z.leb_spec z (2 ^ 53)); [eexists; reflexivity|lia]. }
  destruct (Z.eqb_spec type 8); [apply returns_ret|].
  assert (Harr : (type =? 10) || (type =? 12) = true ->
                 returns (_parseArray (_parseObject fuel p) p offset info)).
  { intros Ht. rewrite Ht in Hrec. unfold _parseArray.
    destruct (_getCount p offset info) as [count headerLen].
    destruct (array_length count) as [len|ex] eqn:En.
    - intros c0. unfold mbind at 1. unfold lift.
      revert c0. change (returns
        (mbind (array_loop (_parseObject fuel p) p (add offset headerLen) (Z.to_nat len) 0 [])
           (fun arr => ret (JArr arr)))).
      apply returns_mbind; [|intros; apply returns_ret].
      assert (0 <= len).
      { unfold array_length in En. destruct count as [z| |]; try done.
        destruct (Z.leb_spec 0 z); cbn in En; [|done].
        destruct (z <? 2 ^ 32); inversion En; subst; done. }
      apply returns_array_loop. intros k Hk. apply Hrec.
      apply list_elem_of_fmap. exists k. split; [done|].
      apply elem_of_seqZ_0. lia.
    - intros c0. unfold mbind, lift. eexists; reflexivity. }
  destruct (Z.eqb_spec type 10) as [E10|]; [apply Harr; done|].
  destruct (Z.eqb_spec type 12) as [E12|]; [apply Harr; done|].
  clear Harr. cbn [orb] in Hrec.
  destruct (Z.eqb_spec type 13) as [E13|]; [|apply returns_ret].
  assert (Hin : type ∈ [5; 6; 13]) by (rewrite E13; set_solver).
  specialize (Hexit Hin).
  unfold _parseDict.
  destruct (_getCount p offset info) as [count headerLen]. cbn [fst] in Hexit.
  destruct count as [z|[]|]; try done; try apply returns_ret.
  destruct (Z.leb_spec z (2 ^ 53)); [|lia].
  apply returns_mbind; [|intros; apply returns_ret].
  apply returns_dict_loop. intros k Hk.
  split; apply Hrec; apply list_elem_of_In, in_flat_map;
    exists k; (split; [apply list_elem_of_In, elem_of_seqZ_0; lia|cbn; auto]).
Qed.
End BPlistTermination.

Section BPlistClaims.
Import JS BPlistParser Fixtures.

(** C1, as the code has it. [_parseObject] never descends again into an
    index that has been resolved: a resolution that completes leaves the
    value in the cache, the cache only grows, and from then on every
    resolution of that index returns the cached value in one step and
    leaves the cache as it is. The cache entry is written after the
    object's children are resolved, so an index that is still being
    resolved is not protected; what bounds the descent is the reference
    graph: when it has no cycle (a rank decreases along every reference)
    and every count can be reached by its loop, [_parseObject] returns
    from every cache within depth [rank index + 1]. *)
Theorem memo_stops_resolved_indices (p : parser) :
  (forall fuel index c v c',
      _parseObject fuel p index c = Some (Ok v, c') ->
      c ⊆ c' /\
      forall c'' fuel', c' ⊆ c'' ->
        _parseObject (S fuel') p index c'' = Some (Ok v, c'')) /\
  (forall rank : num -> nat,
      (forall i j, j ∈ refs p i -> (rank j < rank i)%nat) ->
      (forall i, loop_exits p i) ->
      forall index, returns (_parseObject (S (rank index)) p index)).
Proof.
  split.
  - intros fuel index c v c' H. split; [eapply parseObject_grows, H|].
    intros c'' fuel' Hsub. apply parseObject_hit.
    eapply lookup_weaken; [eapply parseObject_memoized, H|done].
  - intros rank Hrank Hexit index. eapply acyclic_returns; eauto.
Qed.

(** Outside the offset table there is no object, hence no reference. *)
Lemma refs_outside p index : idx (offsets p) index = None -> refs p index = [].
Proof.
  intros H. unfold refs. rewrite H. cbn [default].
  replace (byteAt p NaN) with (@None Z) by reflexivity.
  cbn [band]. change (Z.shiftr 0 4) with 0.
  destruct (_getCount p NaN 0). reflexivity.
Qed.

Lemma loop_exits_outside p index : idx (offsets p) index = None -> loop_exits p index.
Proof.
  intros H. unfold loop_exits. rewrite H. cbn [default].
  replace (byteAt p NaN) with (@None Z) by reflexivity.
  cbn [band]. change (Z.shiftr 0 4) with 0. intros Hin.
  apply list_elem_of_In in Hin. cbn in Hin.
  repeat (destruct Hin as [Hin|Hin]; [discriminate Hin|]). destruct Hin.
Qed.

Lemma shared_loaded : load Fixtures.shared = Some (Ok (shared_parser, Fin 0)).
Proof. vm_compute. reflexivity. Qed.

Lemma shared_cases (i : num) :
  i = Fin 0 \/ i = Fin 1 \/ idx (offsets shared_parser) i = None.
Proof.
  destruct i as [z| |]; [|auto|auto].
  destruct (decide (z = 0)) as [->|]; [auto|].
  destruct (decide (z = 1)) as [->|]; [auto|].
  right; right. unfold idx. destruct (Z.ltb_spec z 0); [done|].
  apply lookup_ge_None. cbn. lia.
Qed.

Lemma shared_acyclic i j : j ∈ refs shared_parser i -> (shared_rank j < shared_rank i)%nat.
Proof.
  destruct (shared_cases i) as [->|[->|H]].
  - vm_compute refs. intros Hj.
    assert (j = Fin 1) as ->.
    { apply list_elem_of_In in Hj. cbn in Hj.
      destruct Hj as [<-|[<-|[]]]; reflexivity. }
    cbn. lia.
  - vm_compute refs. set_solver.
  - rewrite refs_outside by done. set_solver.
Qed.

Lemma shared_loops i : loop_exits shared_parser i.
Proof.
  destruct (shared_cases i) as [->|[->|H]].
  - unfold loop_exits. vm_compute. intros _. discriminate.
  - unfold loop_exits. vm_compute. intros _. discriminate.
  - apply loop_exits_outside, H.
Qed.

(** The array of the shared string: resolved at depth 2, found in the
    cache afterwards. *)
Lemma memo_stops_resolved_indices_witness :
  exists v c',
    _parseObject 2 shared_parser (Fin 0) ∅ = Some (Ok v, c') /\
    _parseObject 1 shared_parser (Fin 0) c' = Some (Ok v, c') /\
    is_Some (_parseObject 2 shared_parser (Fin 0) ∅).
Proof.
  destruct (memo_stops_resolved_indices shared_parser) as [Hmemo Hterm].
  destruct (Hterm shared_rank shared_acyclic shared_loops (Fin 0) ∅) as [[r c'] Hr].
  change (S (shared_rank (Fin 0))) with 2%nat in Hr.
  assert (Hv : exists v, r = Ok v).
  { revert Hr. vm_compute. intros [= <- _]. eexists; reflexivity. }
  destruct Hv as [v ->].
  exists v, c'. split; [exact Hr|]. split.
  - apply (Hmemo _ _ _ _ _ Hr). done.
  - rewrite Hr. eexists; reflexivity.
Defined.

Lemma selfref_loaded : load Fixtures.selfref = Some (Ok (selfref_parser, Fin 0)).
Proof. vm_compute. reflexivity. Qed.

Lemma selfref_array (rec : num -> M jsval) c :
  _parseArray rec selfref_parser (Fin 8) 1 c =
    match rec (Fin 0) c with
    | Some (Ok v, c') => Some (Ok (JArr [v]), c')
    | Some (Throw e, c') => Some (Throw e, c')
    | None => None
    end.
Proof.
  unfold _parseArray.
  change (_getCount selfref_parser (Fin 8) 1) with (Fin 1, Fin 1).
  cbv iota beta.
  change (add (Fin 8) (Fin 1)) with (Fin 9).
  change (array_length (Fin 1)) with (@Ok Z 1).
  unfold mbind at 1. unfold lift. cbv iota beta.
  change (Z.to_nat 1) with 1%nat. cbn [array_loop].
  change (readRef selfref_parser (Fin 9) 0) with (Fin 0).
  unfold mbind, ret.
  destruct (rec (Fin 0) c) as [[[v|e] c1]|]; reflexivity.
Qed.

Lemma selfref_step fuel :
  _parseObject (S fuel) selfref_parser (Fin 0) ∅ =
    match _parseObject fuel selfref_parser (Fin 0) ∅ with
    | Some (Ok v, c') => Some (Ok (JArr [v]), <[Fin 0 := JArr [v]]> c')
    | Some (Throw e, c') => Some (Throw e, c')
    | None => None
    end.
Proof.
  rewrite parseObject_unfold. rewrite lookup_empty.
  cbv zeta.
  change (default NaN (idx (offsets selfref_parser) (Fin 0))) with (Fin 8).
  change (byteAt selfref_parser (Fin 8)) with (Some 161).
  change (Z.shiftr (band (Some 161) 240) 4) with 10.
  change (band (Some 161) 15) with 1.
  cbn [Z.eqb Pos.eqb].
  rewrite selfref_array.
  destruct (_parseObject fuel selfref_parser (Fin 0) ∅) as [[[v|e] c1]|]; reflexivity.
Qed.

Lemma selfref_never_returns fuel : _parseObject fuel selfref_parser (Fin 0) ∅ = None.
Proof.
  induction fuel as [|fuel IH]; [reflexivity|].
  rewrite selfref_step, IH. reflexivity.
Qed.

(** C1 as stated fails: the array whose only element is itself is entered
    again at every depth, no depth is enough for [parse] to return. *)
Lemma self_reference_is_redescended :
  ~ exists fuel r, parse fuel Fixtures.selfref = Some r.
Proof.
  intros (fuel & r & H). unfold parse in H. rewrite selfref_loaded in H.
  rewrite selfref_never_returns in H. discriminate.
Qed.

(** C7, as the code has it. An object whose marker has a high nibble
    outside 0x0-0x6, 0x8, 0xA, 0xC, 0xD decodes, without an exception, to
    [undefined], which is cached like any other value. *)
Theorem unknown_marker_yields_undefined p fuel index c :
  c !! index = None ->
  Z.shiftr (band (byteAt p (default NaN (idx (offsets p) index))) 240) 4
    ∉ [0; 1; 2; 3; 4; 5; 6; 8; 10; 12; 13] ->
  _parseObject (S fuel) p index c = Some (Ok JUndefined, <[index := JUndefined]> c).
Proof.
  intros Hc Ht. rewrite parseObject_unfold, Hc. cbv zeta.
  set (type := Z.shiftr _ 4) in *.
  repeat match goal with
  | |- context [type =? ?k] =>
      destruct (Z.eqb_spec type k) as [E|_];
      [exfalso; apply Ht; rewrite E; set_solver|]
  end.
  reflexivity.
Qed.

Lemma unknown_loaded :
  load Fixtures.unknown_marker = Some (Ok (unknown_parser, Fin 0)).
Proof. vm_compute. reflexivity. Qed.

Lemma unknown_marker_yields_undefined_witness :
  _parseObject 1 unknown_parser (Fin 0) ∅
  = Some (Ok JUndefined, <[Fin 0 := JUndefined]> ∅).
Proof.
  apply (unknown_marker_yields_undefined unknown_parser 0 (Fin 0) ∅).
  - apply lookup_empty.
  - change (Z.shiftr (band (byteAt unknown_parser
               (default NaN (idx (offsets unknown_parser) (Fin 0)))) 240) 4) with 7.
    intros H. apply list_elem_of_In in H. cbn in H.
    repeat (destruct H as [H|H]; [discriminate H|]). exact H.
Defined.

(** C7 as stated fails: for the marker 0x70 the decoder yields
    [undefined], not the [null] it yields for an unused 0x0 marker. *)
Lemma unknown_marker_is_not_null :
  Z.shiftr (band (byteAt unknown_parser (Fin 8)) 240) 4 = 7 /\
  parse 1 Fixtures.unknown_marker = Some (Ok JUndefined) /\
  parse 1 Fixtures.unknown_marker <> Some (Ok JNull).
Proof. vm_compute. repeat split; discriminate. Qed.
End BPlistClaims.

(** ** The binary plist decoder: the magic check and the call stack *)

Section BPlistMagic.
Import JS BPlistParser.

Lemma magic_read buffer :
  _ascii (fresh buffer) (Fin 0) (Fin 6)
  = Some (map (fun i => default 0 (buffer !! i)) [0; 1; 2; 3; 4; 5]%nat).
Proof. reflexivity. Qed.

Lemma magic_is_prefix buffer :
  map (fun i => default 0 (buffer !! i)) [0; 1; 2; 3; 4; 5]%nat = lit "bplist" <->
  take 6 buffer = lit "bplist".
Proof.
  change (lit "bplist") with [98; 112; 108; 105; 115; 116].
  destruct buffer as [|b0 [|b1 [|b2 [|b3 [|b4 [|b5 rest]]]]]]; vm_compute;
    split; intros H; inversion H; reflexivity.
Qed.

(** [parse] starts with the magic check: a buffer whose first six bytes
    are not [bplist] is refused with "Not a binary plist file", whatever
    follows and however short it is. *)
Theorem other_magic_is_refused (buffer : list Z) :
  take 6 buffer <> lit "bplist" ->
  (forall fuel, parse fuel buffer = Some (Throw (Error "Not a binary plist file"))) /\
  (forall overflow depth,
     parse_within overflow depth buffer = Some (Throw (Error "Not a binary plist file"))).
Proof.
  intros H.
  assert (L : load buffer = Some (Throw (Error "Not a binary plist file"))).
  { unfold load. rewrite magic_read. rewrite bool_decide_eq_false_2; [reflexivity|].
    rewrite magic_is_prefix. exact H. }
  split; intros; [unfold parse|unfold parse_within]; rewrite L; reflexivity.
Qed.

Lemma other_magic_is_refused_witness :
  parse 5 (lit "<?xml version") = Some (Throw (Error "Not a binary plist file")) /\
  parse_within RangeError 5 [98; 112] = Some (Throw (Error "Not a binary plist file")).
Proof.
  split.
  - apply (other_magic_is_refused (lit "<?xml version")); discriminate.
  - apply (other_magic_is_refused [98; 112]); discriminate.
Defined.
End BPlistMagic.

Section StackBound.
Import JS BPlistParser.

Lemma below_bind {A B} (m1 m2 : M A) (k1 k2 : A -> M B) :
  below m1 m2 -> (forall a, below (k1 a) (k2 a)) -> below (mbind m1 k1) (mbind m2 k2).
Proof.
  intros Hm Hk c r. unfold mbind.
  destruct (m1 c) as [[[a|e] c']|] eqn:E; [| |discriminate].
  - rewrite (Hm _ _ E). apply Hk.
  - rewrite (Hm _ _ E). done.
Qed.

Lemma below_refl {A} (m : M A) : below m m.
Proof. intros c r H. exact H. Qed.

Lemma below_no_exit {A} (m1 m2 : M A) : below m1 m2 -> below (no_exitM m1) (no_exitM m2).
Proof.
  intros Hm c r. unfold no_exitM.
  destruct (m1 c) as [[[a|e] c']|] eqn:E; [discriminate| |discriminate].
  rewrite (Hm _ _ E). done.
Qed.

Lemma array_loop_below po1 po2 p refsStart n :
  (forall i, below (po1 i) (po2 i)) ->
  forall i arr, below (array_loop po1 p refsStart n i arr) (array_loop po2 p refsStart n i arr).
Proof.
  intros Hpo. induction n as [|n IH]; intros i arr; cbn [array_loop].
  - apply below_refl.
  - apply below_bind; [apply Hpo|]. intros v. apply IH.
Qed.

Lemma dict_loop_below po1 po2 p ks vs n :
  (forall i, below (po1 i) (po2 i)) ->
  forall i d, below (dict_loop po1 p ks vs n i d) (dict_loop po2 p ks vs n i d).
Proof.
  intros Hpo. induction n as [|n IH]; intros i d; cbn [dict_loop].
  - apply below_refl.
  - apply below_bind; [apply Hpo|]. intros k.
    apply below_bind; [apply Hpo|]. intros v. apply IH.
Qed.

Lemma parseArray_below po1 po2 p offset info :
  (forall i, below (po1 i) (po2 i)) ->
  below (_parseArray po1 p offset info) (_parseArray po2 p offset info).
Proof.
  intros Hpo. unfold _parseArray. destruct (_getCount p offset info) as [count headerLen].
  apply below_bind; [apply below_refl|]. intros n.
  apply below_bind; [apply array_loop_below, Hpo|]. intros arr. apply below_refl.
Qed.

Lemma parseDict_below po1 po2 p offset info :
  (forall i, below (po1 i) (po2 i)) ->
  below (_parseDict po1 p offset info) (_parseDict po2 p offset info).
Proof.
  intros Hpo. unfold _parseDict. destruct (_getCount p offset info) as [count headerLen].
  assert (Hrun : forall n ks vs,
            below (do d <- dict_loop po1 p ks vs n 0 [] ; ret (JDict d))
                  (do d <- dict_loop po2 p ks vs n 0 [] ; ret (JDict d))).
  { intros n ks vs. apply below_bind; [apply dict_loop_below, Hpo|].
    intros d. apply below_refl. }
  destruct count as [c|[|]|].
  - destruct (c <=? 2 ^ 53); [apply Hrun|apply below_no_exit, Hrun].
  - apply below_refl.
  - apply below_no_exit, Hrun.
  - apply below_refl.
Qed.

(** The decoder in an engine with a bounded call stack: what
    [_parseObject] yields within [depth] nested calls, it yields there
    too; the bound shows only where the descent does not fit. *)
Lemma parseObject_within_depth (overflow : exn) (depth : nat) (p : parser) :
  forall index c r,
    _parseObject depth p index c = Some r ->
    _parseObject_within overflow depth p index c = Some r.
Proof.
  induction depth as [|depth IH]; intros index c r; [discriminate|].
  cbn [_parseObject _parseObject_within].
  destruct (c !! index); [done|]. cbv zeta.
  set (offset := default NaN (idx (offsets p) index)).
  set (marker := byteAt p offset).
  set (type := Z.shiftr (band marker 240) 4).
  set (info := band marker 15).
  assert (Hpo : forall i, below (_parseObject depth p i)
                                (_parseObject_within overflow depth p i)).
  { intros i c0 r0. apply IH. }
  match goal with
  | |- match ?v1 c with _ => _ end = _ -> match ?v2 c with _ => _ end = _ =>
      assert (Hv : below v1 v2)
  end.
  { repeat match goal with
           | |- below (if ?b then _ else _) _ => destruct b
           end;
      try apply below_refl.
    - apply parseArray_below, Hpo.
    - apply parseArray_below, Hpo.
    - apply parseDict_below, Hpo. }
  match goal with
  | |- match ?v1 c with _ => _ end = _ -> _ => destruct (v1 c) as [[[v|e] c']|] eqn:E
  end; [| |discriminate].
  - rewrite (Hv _ _ E). done.
  - rewrite (Hv _ _ E). done.
Qed.
End StackBound.

(** ** The CgBI restorer: un-premultiplied pixels *)

Section Pixels.
Import JS CrushedPNG.

Lemma put_length l i v : length (put l i v) = length l.
Proof. unfold put. destruct (i <? 0); [done|apply length_insert]. Qed.

Lemma get_put_eq l i v :
  0 <= i < Z.of_nat (length l) -> get (put l i v) i = Some (default 0 v mod 256).
Proof.
  intros H. unfold get, put. destruct (Z.ltb_spec i 0); [lia|].
  apply list_lookup_insert_eq. lia.
Qed.

Lemma get_put_ne l i j v : i <> j -> get (put l i v) j = get l j.
Proof.
  intros H. unfold get, put.
  destruct (Z.ltb_spec j 0); [done|]. destruct (Z.ltb_spec i 0); [done|].
  apply list_lookup_insert_ne. lia.
Qed.

Lemma get_Some_lt {A} (l : list A) i x :
  get l i = Some x -> 0 <= i < Z.of_nat (length l).
Proof.
  unfold get. destruct (Z.ltb_spec i 0) as [|Hi]; [done|].
  intros Hl. apply lookup_lt_Some in Hl. lia.
Qed.

Lemma get_in_range {A} (l : list A) i :
  0 <= i < Z.of_nat (length l) -> is_Some (get l i).
Proof.
  intros H. unfold get. destruct (Z.ltb_spec i 0); [lia|].
  apply lookup_lt_is_Some. lia.
Qed.

Lemma put_bytes l i v : Forall is_byte l -> Forall is_byte (put l i v).
Proof.
  intros H. unfold put. destruct (i <? 0); [done|].
  apply Forall_insert; [done|]. unfold is_byte. apply Z.mod_pos_bound. lia.
Qed.

Lemma filter_loop_length inflated rowOff bpp ft prev n :
  forall i curr, length (filter_loop inflated rowOff bpp ft prev n i curr) = length curr.
Proof.
  induction n as [|n IH]; intros i curr; cbn [filter_loop]; [done|].
  rewrite IH. apply put_length.
Qed.

Lemma filter_loop_bytes inflated rowOff bpp ft prev n :
  forall i curr, Forall is_byte curr ->
    Forall is_byte (filter_loop inflated rowOff bpp ft prev n i curr).
Proof.
  induction n as [|n IH]; intros i curr H; cbn [filter_loop]; [done|].
  apply IH, put_bytes, H.
Qed.

Lemma pixel_length bpp curr s d out : length (pixel bpp curr s d out) = length out.
Proof.
  unfold pixel.
  destruct (if bpp =? 4 then get curr (s + 3) else Some 255) as [[|al|al]|];
    try destruct (_ && _); rewrite !put_length; reflexivity.
Qed.

Lemma pixel_other bpp curr s d out j :
  j < d \/ d + 3 < j -> get (pixel bpp curr s d out) j = get out j.
Proof.
  intros H. unfold pixel.
  destruct (if bpp =? 4 then get curr (s + 3) else Some 255) as [[|al|al]|];
    try destruct (_ && _); rewrite !get_put_ne by lia; reflexivity.
Qed.

Lemma round_div_nonneg n d : 0 <= n -> 0 < d -> 0 <= round_div n d.
Proof. intros Hn Hd. unfold round_div. apply Z.div_pos; lia. Qed.

(** The stores of a pixel whose alpha is neither 0 nor 255. *)
Lemma pixel_premultiplied curr s d out B G R A :
  get curr s = Some B -> get curr (s + 1) = Some G ->
  get curr (s + 2) = Some R -> get curr (s + 3) = Some A ->
  0 <= B -> 0 <= G -> 0 <= R -> 0 < A < 255 ->
  0 <= d -> d + 3 < Z.of_nat (length out) ->
  let out' := pixel 4 curr s d out in
  get out' d = Some (Z.min 255 (round_div (R * 255) A)) /\
  get out' (d + 1) = Some (Z.min 255 (round_div (G * 255) A)) /\
  get out' (d + 2) = Some (Z.min 255 (round_div (B * 255) A)) /\
  get out' (d + 3) = Some A.
Proof.
  intros HB HG HR HA ? ? ? ? ? ? out'. subst out'. unfold pixel.
  rewrite HB, HG, HR. change (4 =? 4) with true. cbv iota. rewrite HA.
  destruct A as [|al|al]; [lia| |lia].
  destruct (Z.ltb_spec (Z.pos al) 255); [|lia]. cbn [andb].
  assert (Hmod : forall C, 0 <= C ->
    Z.min 255 (round_div (C * 255) (Z.pos al)) mod 256
    = Z.min 255 (round_div (C * 255) (Z.pos al))).
  { intros C HC. apply Z.mod_small.
    pose proof (round_div_nonneg (C * 255) (Z.pos al)). lia. }
  repeat split.
  - rewrite !get_put_ne by lia. rewrite get_put_eq by lia.
    cbn [unpremultiply default from_option id]. f_equal. auto.
  - rewrite !get_put_ne by lia. rewrite get_put_eq by (rewrite !put_length; lia).
    cbn [unpremultiply default from_option id]. f_equal. auto.
  - rewrite !get_put_ne by lia. rewrite get_put_eq by (rewrite !put_length; lia).
    cbn [unpremultiply default from_option id]. f_equal. auto.
  - rewrite get_put_eq by (rewrite !put_length; lia).
    cbn [default from_option id]. f_equal. apply Z.mod_small. lia.
Qed.

Lemma pixel_loop_length width bpp y curr n :
  forall x out, length (pixel_loop width bpp y curr n x out) = length out.
Proof.
  induction n as [|n IH]; intros x out; cbn [pixel_loop]; [done|].
  rewrite IH. apply pixel_length.
Qed.

Lemma pixel_loop_other width bpp y curr n :
  forall x0 out j,
    j < (y * width + x0) * 4 \/ (y * width + x0 + Z.of_nat n) * 4 <= j ->
    get (pixel_loop width bpp y curr n x0 out) j = get out j.
Proof.
  induction n as [|n IH]; intros x0 out j H; cbn [pixel_loop]; [done|].
  rewrite IH by lia. apply pixel_other. lia.
Qed.

(** What the loop leaves at an index of pixel [x] is what the round for
    [x] stored there. *)
Lemma pixel_loop_at width bpp y curr (len : nat) x k (val : Z) n :
  0 <= k <= 3 ->
  (forall o, length o = len ->
     get (pixel bpp curr (x * bpp) ((y * width + x) * 4) o) ((y * width + x) * 4 + k)
     = Some val) ->
  forall x0 out,
    length out = len -> x0 <= x < x0 + Z.of_nat n ->
    get (pixel_loop width bpp y curr n x0 out) ((y * width + x) * 4 + k) = Some val.
Proof.
  intros Hk Hpix. induction n as [|n IH]; intros x0 out Hlen Hx; [lia|].
  cbn [pixel_loop]. destruct (decide (x = x0)) as [->|Hne].
  - rewrite pixel_loop_other by lia. apply Hpix, Hlen.
  - apply IH; [rewrite pixel_length; exact Hlen|lia].
Qed.

Lemma row_lengths inflated width bpp y st :
  length (out (row inflated width bpp y st)) = length (out st) /\
  length (curr (row inflated width bpp y st)) = length (curr st).
Proof.
  unfold row. cbn [out curr]. rewrite pixel_loop_length, filter_loop_length. done.
Qed.

Lemma row_bytes inflated width bpp y st :
  Forall is_byte (curr st) -> Forall is_byte (curr (row inflated width bpp y st)).
Proof. intros H. unfold row. cbn [curr]. apply filter_loop_bytes, H. Qed.

Lemma row_other inflated width bpp y st j :
  0 <= width ->
  j < y * width * 4 \/ (y + 1) * width * 4 <= j ->
  get (out (row inflated width bpp y st)) j = get (out st) j.
Proof.
  intros Hw H. unfold row. cbn [out].
  apply pixel_loop_other. rewrite Z2Nat.id by lia. lia.
Qed.

Lemma rows_loop_lengths inflated width bpp n :
  forall y st,
    length (out (rows_loop inflated width bpp n y st)) = length (out st) /\
    length (curr (rows_loop inflated width bpp n y st)) = length (curr st).
Proof.
  induction n as [|n IH]; intros y st; cbn [rows_loop]; [done|].
  destruct (IH (y + 1) (row inflated width bpp y st)) as [-> ->].
  apply row_lengths.
Qed.

Lemma rows_loop_bytes inflated width bpp n :
  forall y st, Forall is_byte (curr st) ->
    Forall is_byte (curr (rows_loop inflated width bpp n y st)).
Proof.
  induction n as [|n IH]; intros y st H; cbn [rows_loop]; [done|].
  apply IH, row_bytes, H.
Qed.

Lemma rows_loop_other inflated width bpp n :
  forall y st j,
    0 <= width -> 0 <= y -> j < y * width * 4 ->
    get (out (rows_loop inflated width bpp n y st)) j = get (out st) j.
Proof.
  induction n as [|n IH]; intros y st j Hw Hy Hj; cbn [rows_loop]; [done|].
  rewrite IH by nia. apply row_other; [done|lia].
Qed.

Lemma rows_loop_app inflated width bpp n m :
  forall y st,
    rows_loop inflated width bpp (n + m) y st
    = rows_loop inflated width bpp m (y + Z.of_nat n) (rows_loop inflated width bpp n y st).
Proof.
  induction n as [|n IH]; intros y st.
  - cbn. f_equal. lia.
  - cbn [rows_loop Nat.add]. rewrite IH. f_equal. lia.
Qed.

Lemma zeros_bytes n : Forall is_byte (zeros n).
Proof. apply Forall_replicate. unfold is_byte. lia. Qed.

Lemma zeros_length n : 0 <= n -> Z.of_nat (length (zeros n)) = n.
Proof. intros H. unfold zeros. rewrite length_replicate. lia. Qed.

(** [round_div n d] is the integer nearest to [n / d], the upper one when
    two are equally near. *)
Lemma round_div_nearest n d :
  0 < d ->
  2 * n - d < 2 * d * round_div n d <= 2 * n + d.
Proof.
  intros Hd. unfold round_div.
  pose proof (Z.mul_div_le (2 * n + d) (2 * d)).
  pose proof (Z.mul_succ_div_gt (2 * n + d) (2 * d)).
  lia.
Qed.

(** C2. For RGBA input ([bpp = 4]) every pixel [(x, y)] of the image has
    four stored channels [B], [G], [R], [A] in its unfiltered row, and
    when [0 < A < 255] the output pixel is [min(255, r)], [min(255, g)],
    [min(255, b)] and [A] itself, where [r] is [R * 255 / A] rounded to
    the nearest integer, upwards from half-way, and [g], [b] likewise for
    [G] and [B]. *)
Theorem rgba_pixel_unpremultiplied (inflated : list Z) (width height x y : Z) :
  0 <= x < width -> 0 <= y < height ->
  exists B G R A,
    let line := scanline inflated width height 4 y in
    let out := _decodePixels inflated width height 4 in
    let d := (y * width + x) * 4 in
    get line (x * 4) = Some B /\
    get line (x * 4 + 1) = Some G /\
    get line (x * 4 + 2) = Some R /\
    get line (x * 4 + 3) = Some A /\
    (0 < A < 255 ->
     exists r g b,
       2 * (R * 255) - A < 2 * A * r <= 2 * (R * 255) + A /\
       2 * (G * 255) - A < 2 * A * g <= 2 * (G * 255) + A /\
       2 * (B * 255) - A < 2 * A * b <= 2 * (B * 255) + A /\
       get out d = Some (Z.min 255 r) /\
       get out (d + 1) = Some (Z.min 255 g) /\
       get out (d + 2) = Some (Z.min 255 b) /\
       get out (d + 3) = Some A).
Proof.
  intros Hx Hy.
  set (st0 := start width height 4).
  set (sty := rows_loop inflated width 4 (Z.to_nat y) 0 st0).
  set (st1 := row inflated width 4 y sty).
  assert (E1 : rows_loop inflated width 4 (Z.to_nat (y + 1)) 0 st0 = st1).
  { replace (Z.to_nat (y + 1)) with (Z.to_nat y + 1)%nat by lia.
    rewrite rows_loop_app. fold sty. cbn [rows_loop].
    unfold st1. f_equal. lia. }
  assert (E2 : rows_loop inflated width 4 (Z.to_nat height) 0 st0
               = rows_loop inflated width 4 (Z.to_nat (height - (y + 1))) (y + 1) st1).
  { replace (Z.to_nat height) with (Z.to_nat (y + 1) + Z.to_nat (height - (y + 1)))%nat by lia.
    rewrite rows_loop_app, E1. f_equal. lia. }
  assert (Hlen0 : Z.of_nat (length (out st0)) = width * height * 4).
  { apply zeros_length. nia. }
  assert (Hcur0 : Z.of_nat (length (curr st0)) = width * 4).
  { apply zeros_length. lia. }
  assert (HlenY : length (out sty) = length (out st0) /\ length (curr sty) = length (curr st0)).
  { apply rows_loop_lengths. }
  assert (Hlen1 : length (out st1) = length (out sty) /\ length (curr st1) = length (curr sty)).
  { apply row_lengths. }
  assert (Hb1 : Forall is_byte (curr st1)).
  { apply row_bytes, rows_loop_bytes, zeros_bytes. }
  assert (Hget : forall k, 0 <= k <= 3 -> exists v, get (curr st1) (x * 4 + k) = Some v /\ is_byte v).
  { intros k Hk. destruct (get_in_range (curr st1) (x * 4 + k)) as [v Hv].
    - destruct Hlen1 as [_ ->]. destruct HlenY as [_ ->]. lia.
    - exists v. split; [done|].
      unfold get in Hv. destruct (_ <? 0); [done|].
      eapply Forall_lookup_1; eauto. }
  destruct (Hget 0) as (B & HB & HBb); [lia|].
  destruct (Hget 1) as (G & HG & HGb); [lia|].
  destruct (Hget 2) as (R & HR & HRb); [lia|].
  destruct (Hget 3) as (A & HA & HAb); [lia|].
  rewrite Z.add_0_r in HB.
  exists B, G, R, A. cbv zeta. unfold scanline, _decodePixels.
  fold st0. rewrite E1, E2. repeat (split; [assumption|]).
  intros HArange.
  set (d := (y * width + x) * 4).
  assert (Hd : 0 <= d /\ d + 3 < (y + 1) * width * 4) by (unfold d; nia).
  assert (Hpix : forall o, length o = length (out sty) ->
    let o' := pixel 4 (curr st1) (x * 4) d o in
    get o' d = Some (Z.min 255 (round_div (R * 255) A)) /\
    get o' (d + 1) = Some (Z.min 255 (round_div (G * 255) A)) /\
    get o' (d + 2) = Some (Z.min 255 (round_div (B * 255) A)) /\
    get o' (d + 3) = Some A).
  { intros o Ho. apply pixel_premultiplied; try assumption;
      try (unfold is_byte in *; lia).
    rewrite Ho. destruct HlenY as [-> _]. nia. }
  assert (Hrow : forall k val, 0 <= k <= 3 ->
    (forall o, length o = length (out sty) ->
       get (pixel 4 (curr st1) (x * 4) d o) (d + k) = Some val) ->
    get (out (rows_loop inflated width 4 (Z.to_nat (height - (y + 1))) (y + 1) st1)) (d + k)
    = Some val).
  { intros k val Hk Hval. rewrite rows_loop_other by lia.
    unfold st1 at 1. unfold row. cbn [out]. fold st1.
    change (curr (row inflated width 4 y sty)) with (curr st1).
    eapply (pixel_loop_at width 4 y _ (length (out sty)) x k val); eauto. lia. }
  exists (round_div (R * 255) A), (round_div (G * 255) A), (round_div (B * 255) A).
  split; [apply round_div_nearest; lia|].
  split; [apply round_div_nearest; lia|].
  split; [apply round_div_nearest; lia|].
  split; [|split; [|split]].
  - rewrite <- (Z.add_0_r d). apply Hrow; [lia|].
    intros o Ho. rewrite Z.add_0_r. apply (Hpix o Ho).
  - apply Hrow; [lia|]. intros o Ho. apply (Hpix o Ho).
  - apply Hrow; [lia|]. intros o Ho. apply (Hpix o Ho).
  - apply Hrow; [lia|]. intros o Ho. apply (Hpix o Ho).
Qed.

(** The pixel stored as BGRA (80, 80, 80, 128) decodes to RGBA
    (159, 159, 159, 128); the pixel stored as BGRA (1, 3, 5, 6), whose
    quotients are 42.5, 127.5 and 212.5, decodes to RGBA
    (213, 128, 43, 6). *)
Lemma rgba_pixel_unpremultiplied_witness :
  (let out := _decodePixels Fixtures.premultiplied 1 1 4 in
   scanline Fixtures.premultiplied 1 1 4 0 = [80; 80; 80; 128] /\
   get out 0 = Some 159 /\ get out 1 = Some 159 /\
   get out 2 = Some 159 /\ get out 3 = Some 128) /\
  (let out := _decodePixels Fixtures.halfway 1 1 4 in
   scanline Fixtures.halfway 1 1 4 0 = [1; 3; 5; 6] /\
   get out 0 = Some 213 /\ get out 1 = Some 128 /\
   get out 2 = Some 43 /\ get out 3 = Some 6).
Proof.
  split; intros out.
  - destruct (rgba_pixel_unpremultiplied Fixtures.premultiplied 1 1 0 0)
      as (B & G & R & A & HB & HG & HR & HA & H); [lia|lia|].
    change (scanline Fixtures.premultiplied 1 1 4 0) with [80; 80; 80; 128] in *.
    change (_decodePixels Fixtures.premultiplied 1 1 4) with out in H.
    injection HB as <-. injection HG as <-. injection HR as <-. injection HA as <-.
    destruct H as (r & g & b & Hr & Hg & Hb & H0 & H1 & H2 & H3); [lia|].
    assert (r = 159) as -> by lia. assert (g = 159) as -> by lia.
    assert (b = 159) as -> by lia.
    split; [reflexivity|]. split; [exact H0|]. split; [exact H1|].
    split; [exact H2|exact H3].
  - destruct (rgba_pixel_unpremultiplied Fixtures.halfway 1 1 0 0)
      as (B & G & R & A & HB & HG & HR & HA & H); [lia|lia|].
    change (scanline Fixtures.halfway 1 1 4 0) with [1; 3; 5; 6] in *.
    change (_decodePixels Fixtures.halfway 1 1 4) with out in H.
    injection HB as <-. injection HG as <-. injection HR as <-. injection HA as <-.
    destruct H as (r & g & b & Hr & Hg & Hb & H0 & H1 & H2 & H3); [lia|].
    assert (r = 213) as -> by lia. assert (g = 128) as -> by lia.
    assert (b = 43) as -> by lia.
    split; [reflexivity|]. split; [exact H0|]. split; [exact H1|].
    split; [exact H2|exact H3].
Defined.
End Pixels.

Section PixelBranches.
Import JS CrushedPNG.

Lemma pixel_plain bpp curr s d out B G R A :
  get curr s = Some B -> get curr (s + 1) = Some G -> get curr (s + 2) = Some R ->
  (if bpp =? 4 then get curr (s + 3) else Some 255) = Some A ->
  is_byte B -> is_byte G -> is_byte R ->
  (A = 255 \/ (0 < A < 255 /\ bpp <> 4)) ->
  0 <= d -> d + 3 < Z.of_nat (length out) ->
  let out' := pixel bpp curr s d out in
  get out' d = Some R /\ get out' (d + 1) = Some G /\
  get out' (d + 2) = Some B /\ get out' (d + 3) = Some A.
Proof.
  intros HB HG HR HA bB bG bR Hcase ? ? out'. subst out'. unfold pixel.
  rewrite HB, HG, HR, HA. unfold is_byte in *.
  assert (E : (if (A <? 255) && (bpp =? 4)
               then put (put (put (put out d (unpremultiply (Some R) A))
                                (d + 1) (unpremultiply (Some G) A))
                           (d + 2) (unpremultiply (Some B) A))
                      (d + 3) (Some A)
               else put (put (put (put out d (Some R)) (d + 1) (Some G)) (d + 2) (Some B))
                      (d + 3) (Some A))
              = put (put (put (put out d (Some R)) (d + 1) (Some G)) (d + 2) (Some B))
                  (d + 3) (Some A)).
  { destruct Hcase as [->|[? Hb]]; [reflexivity|].
    destruct (Z.eqb_spec bpp 4); [contradiction|]. rewrite andb_false_r. reflexivity. }
  destruct A as [|al|al]; [lia| |lia]. rewrite E.
  assert (Hmod : forall v, 0 <= v < 256 -> default 0 (Some v) mod 256 = v).
  { intros v Hv. cbn [default from_option id]. apply Z.mod_small. lia. }
  repeat split.
  - rewrite !get_put_ne by lia. rewrite get_put_eq by lia. f_equal. apply Hmod. lia.
  - rewrite !get_put_ne by lia. rewrite get_put_eq by (rewrite !put_length; lia).
    f_equal. apply Hmod. lia.
  - rewrite !get_put_ne by lia. rewrite get_put_eq by (rewrite !put_length; lia).
    f_equal. apply Hmod. lia.
  - rewrite get_put_eq by (rewrite !put_length; lia). f_equal. apply Hmod. lia.
Qed.

Lemma pixel_clear curr s d out :
  get curr (s + 3) = Some 0 ->
  0 <= d -> d + 3 < Z.of_nat (length out) ->
  let out' := pixel 4 curr s d out in
  get out' d = Some 0 /\ get out' (d + 1) = Some 0 /\
  get out' (d + 2) = Some 0 /\ get out' (d + 3) = Some 0.
Proof.
  intros HA ? ? out'. subst out'. unfold pixel.
  change (4 =? 4) with true. cbv iota. rewrite HA.
  repeat split.
  - rewrite get_put_eq by (rewrite !put_length; lia). reflexivity.
  - rewrite !get_put_ne by lia. rewrite get_put_eq by (rewrite !put_length; lia). reflexivity.
  - rewrite !get_put_ne by lia. rewrite get_put_eq by (rewrite !put_length; lia). reflexivity.
  - rewrite !get_put_ne by lia. rewrite get_put_eq by lia. reflexivity.
Qed.

(** The output of [_decodePixels] has four bytes for every pixel. *)
Theorem decodePixels_length (inflated : list Z) (width height bpp : Z) :
  length (_decodePixels inflated width height bpp) = Z.to_nat (width * height * 4).
Proof.
  unfold _decodePixels.
  destruct (rows_loop_lengths inflated width bpp (Z.to_nat height) 0
              (start width height bpp)) as [-> _].
  unfold start, zeros. cbn [out]. apply length_replicate.
Qed.

(** The pixels [_decodePixels] does not rescale.  Pixel [(x, y)] of an
    image with three or four bytes per pixel has the stored channels [B],
    [G], [R] in its unfiltered row.  With three bytes per pixel the output
    pixel is [R], [G], [B] and alpha 255; with four and a stored alpha of
    255 it is [R], [G], [B], 255; with four and a stored alpha of 0 it is
    four zero bytes. *)
Theorem opaque_and_clear_pixels (inflated : list Z) (width height bpp x y : Z) :
  bpp = 3 \/ bpp = 4 -> 0 <= x < width -> 0 <= y < height ->
  exists B G R,
    let line := scanline inflated width height bpp y in
    let out := _decodePixels inflated width height bpp in
    let d := (y * width + x) * 4 in
    get line (x * bpp) = Some B /\
    get line (x * bpp + 1) = Some G /\
    get line (x * bpp + 2) = Some R /\
    (bpp = 3 \/ get line (x * bpp + 3) = Some 255 ->
     get out d = Some R /\ get out (d + 1) = Some G /\
     get out (d + 2) = Some B /\ get out (d + 3) = Some 255) /\
    (bpp = 4 -> get line (x * bpp + 3) = Some 0 ->
     get out d = Some 0 /\ get out (d + 1) = Some 0 /\
     get out (d + 2) = Some 0 /\ get out (d + 3) = Some 0).
Proof.
  intros Hbpp Hx Hy.
  set (st0 := start width height bpp).
  set (sty := rows_loop inflated width bpp (Z.to_nat y) 0 st0).
  set (st1 := row inflated width bpp y sty).
  assert (E1 : rows_loop inflated width bpp (Z.to_nat (y + 1)) 0 st0 = st1).
  { replace (Z.to_nat (y + 1)) with (Z.to_nat y + 1)%nat by lia.
    rewrite rows_loop_app. fold sty. cbn [rows_loop].
    unfold st1. f_equal. lia. }
  assert (E2 : rows_loop inflated width bpp (Z.to_nat height) 0 st0
               = rows_loop inflated width bpp (Z.to_nat (height - (y + 1))) (y + 1) st1).
  { replace (Z.to_nat height) with (Z.to_nat (y + 1) + Z.to_nat (height - (y + 1)))%nat by lia.
    rewrite rows_loop_app, E1. f_equal. lia. }
  assert (Hlen0 : Z.of_nat (length (out st0)) = width * height * 4).
  { apply zeros_length. nia. }
  assert (Hcur0 : Z.of_nat (length (curr st0)) = width * bpp).
  { apply zeros_length. nia. }
  assert (HlenY : length (out sty) = length (out st0) /\ length (curr sty) = length (curr st0)).
  { apply rows_loop_lengths. }
  assert (Hlen1 : length (out st1) = length (out sty) /\ length (curr st1) = length (curr sty)).
  { apply row_lengths. }
  assert (Hb1 : Forall is_byte (curr st1)).
  { apply row_bytes, rows_loop_bytes, zeros_bytes. }
  assert (Hbyte : forall i v, get (curr st1) i = Some v -> is_byte v).
  { intros i v Hv. unfold get in Hv. destruct (_ <? 0); [done|].
    eapply Forall_lookup_1; eauto. }
  assert (Hget : forall k, 0 <= k <= 2 ->
            exists v, get (curr st1) (x * bpp + k) = Some v /\ is_byte v).
  { intros k Hk. destruct (get_in_range (curr st1) (x * bpp + k)) as [v Hv].
    - destruct Hlen1 as [_ ->]. destruct HlenY as [_ ->]. nia.
    - exists v. split; [done|]. eapply Hbyte; eauto. }
  destruct (Hget 0) as (B & HB & HBb); [lia|].
  destruct (Hget 1) as (G & HG & HGb); [lia|].
  destruct (Hget 2) as (R & HR & HRb); [lia|].
  rewrite Z.add_0_r in HB.
  exists B, G, R. cbv zeta. unfold scanline, _decodePixels.
  fold st0. rewrite E1, E2. repeat (split; [assumption|]).
  set (d := (y * width + x) * 4).
  assert (Hd : 0 <= d /\ d + 3 < (y + 1) * width * 4) by (unfold d; nia).
  assert (Hrow : forall k val, 0 <= k <= 3 ->
    (forall o, length o = length (out sty) ->
       get (pixel bpp (curr st1) (x * bpp) d o) (d + k) = Some val) ->
    get (out (rows_loop inflated width bpp (Z.to_nat (height - (y + 1))) (y + 1) st1)) (d + k)
    = Some val).
  { intros k val Hk Hval. rewrite rows_loop_other by lia.
    unfold st1 at 1. unfold row. cbn [out]. fold st1.
    change (curr (row inflated width bpp y sty)) with (curr st1).
    eapply (pixel_loop_at width bpp y _ (length (out sty)) x k val); eauto. lia. }
  assert (Hfit : forall o : list Z, length o = length (out sty) -> d + 3 < Z.of_nat (length o)).
  { intros o ->. destruct HlenY as [-> _]. nia. }
  split.
  - intros Hcase.
    assert (Hpix : forall o, length o = length (out sty) ->
      let o' := pixel bpp (curr st1) (x * bpp) d o in
      get o' d = Some R /\ get o' (d + 1) = Some G /\
      get o' (d + 2) = Some B /\ get o' (d + 3) = Some 255).
    { intros o Ho. apply pixel_plain; try assumption; [|auto|lia|auto].
      destruct Hcase as [->|HA]; [reflexivity|].
      destruct (bpp =? 4); [exact HA|reflexivity]. }
    split; [|split; [|split]].
    + rewrite <- (Z.add_0_r d). apply Hrow; [lia|].
      intros o Ho. rewrite Z.add_0_r. apply (Hpix o Ho).
    + apply Hrow; [lia|]. intros o Ho. apply (Hpix o Ho).
    + apply Hrow; [lia|]. intros o Ho. apply (Hpix o Ho).
    + apply Hrow; [lia|]. intros o Ho. apply (Hpix o Ho).
  - intros -> HA.
    assert (Hpix : forall o, length o = length (out sty) ->
      let o' := pixel 4 (curr st1) (x * 4) d o in
      get o' d = Some 0 /\ get o' (d + 1) = Some 0 /\
      get o' (d + 2) = Some 0 /\ get o' (d + 3) = Some 0).
    { intros o Ho. apply pixel_clear; [exact HA|lia|auto]. }
    split; [|split; [|split]].
    + rewrite <- (Z.add_0_r d). apply Hrow; [lia|].
      intros o Ho. rewrite Z.add_0_r. apply (Hpix o Ho).
    + apply Hrow; [lia|]. intros o Ho. apply (Hpix o Ho).
    + apply Hrow; [lia|]. intros o Ho. apply (Hpix o Ho).
    + apply Hrow; [lia|]. intros o Ho. apply (Hpix o Ho).
Qed.
(** An opaque BGRA pixel and a BGR pixel come out as RGBA with the
    channels in place; a pixel with alpha 0 comes out as zeros. *)
Lemma opaque_and_clear_pixels_witness :
  (let out := _decodePixels [0; 10; 20; 30; 255] 1 1 4 in
   get out 0 = Some 30 /\ get out 1 = Some 20 /\ get out 2 = Some 10 /\
   get out 3 = Some 255) /\
  (let out := _decodePixels [0; 10; 20; 30] 1 1 3 in
   get out 0 = Some 30 /\ get out 1 = Some 20 /\ get out 2 = Some 10 /\
   get out 3 = Some 255) /\
  (let out := _decodePixels [0; 7; 7; 7; 0] 1 1 4 in
   get out 0 = Some 0 /\ get out 1 = Some 0 /\ get out 2 = Some 0 /\
   get out 3 = Some 0).
Proof.
  split; [|split]; intros out.
  - destruct (opaque_and_clear_pixels [0; 10; 20; 30; 255] 1 1 4 0 0)
      as (B & G & R & HB & HG & HR & H & _); [auto|lia|lia|].
    change (scanline [0; 10; 20; 30; 255] 1 1 4 0) with [10; 20; 30; 255] in *.
    injection HB as <-. injection HG as <-. injection HR as <-.
    apply H. right. reflexivity.
  - destruct (opaque_and_clear_pixels [0; 10; 20; 30] 1 1 3 0 0)
      as (B & G & R & HB & HG & HR & H & _); [auto|lia|lia|].
    change (scanline [0; 10; 20; 30] 1 1 3 0) with [10; 20; 30] in *.
    injection HB as <-. injection HG as <-. injection HR as <-.
    apply H. left. reflexivity.
  - destruct (opaque_and_clear_pixels [0; 7; 7; 7; 0] 1 1 4 0 0)
      as (B & G & R & _ & _ & _ & _ & H); [auto|lia|lia|].
    apply H; reflexivity.
Defined.
End PixelBranches.

(** ** The proto-XML walker and the manifest projector *)

Section ProtoRounds.
Import JS ProtoDecoder.

Lemma varint_loop_advances bytes n :
  forall pos r s,
    pos <= snd (varint_loop bytes n pos r s) /\
    (n <> O -> pos < snd (varint_loop bytes n pos r s)).
Proof.
  induction n as [|n IH]; intros pos r s; cbn [varint_loop].
  - cbn [snd]. split; [lia|congruence].
  - cbv zeta. destruct (band (get bytes pos) 128 =? 0); cbn [snd]; [lia|].
    match goal with |- context [varint_loop bytes n ?q ?r' ?s'] =>
      destruct (IH q r' s') as [H _] end.
    lia.
Qed.

Lemma varint_advances bytes end_ pos :
  0 <= fst (_varint bytes end_ pos) /\
  pos <= snd (_varint bytes end_ pos) /\
  (pos < end_ -> pos < snd (_varint bytes end_ pos)).
Proof.
  unfold _varint.
  pose proof (varint_loop_advances bytes (Z.to_nat (end_ - pos)) pos 0 0) as [H1 H2].
  destruct (varint_loop bytes (Z.to_nat (end_ - pos)) pos 0 0) as [r pos'].
  cbn [fst snd] in *. split; [apply Z.mod_pos_bound; lia|].
  split; [exact H1|]. intros H. apply H2. lia.
Qed.

Lemma readFields_loop_rounds bytes end_ n :
  forall m pos fs,
    (Z.to_nat (end_ - pos) <= n)%nat -> (Z.to_nat (end_ - pos) <= m)%nat ->
    readFields_loop bytes end_ n pos fs = readFields_loop bytes end_ m pos fs.
Proof.
  induction n as [|n IH]; intros m pos fs Hn Hm.
  - destruct m as [|m]; cbn [readFields_loop]; [reflexivity|].
    destruct (Z.ltb_spec pos end_); [lia|reflexivity].
  - destruct m as [|m]; cbn [readFields_loop].
    { destruct (Z.ltb_spec pos end_); [lia|reflexivity]. }
    destruct (Z.ltb_spec pos end_) as [Hlt|]; cbn [negb]; [|reflexivity].
    pose proof (varint_advances bytes end_ pos) as (_ & _ & H1).
    destruct (_varint bytes end_ pos) as [tag pos1]. cbn [snd] in H1.
    specialize (H1 Hlt). cbv zeta.
    destruct (Z.shiftr tag 3 =? 0); [reflexivity|].
    destruct (Z.land tag 7 =? 0).
    { pose proof (varint_advances bytes end_ pos1) as (_ & H2 & _).
      destruct (_varint bytes end_ pos1) as [v pos2]. cbn [snd] in H2.
      apply IH; lia. }
    destruct (Z.land tag 7 =? 1).
    { unfold _fixed64, getUint32LE.
      destruct (view_bytes bytes pos1 4); cbn [bind]; [|reflexivity].
      destruct (view_bytes bytes (pos1 + 4) 4); cbn [bind]; [|reflexivity].
      apply IH; lia. }
    destruct (Z.land tag 7 =? 2).
    { pose proof (varint_advances bytes end_ pos1) as (H0 & H2 & _).
      destruct (_varint bytes end_ pos1) as [len pos2]. cbn [fst snd] in H0, H2.
      apply IH; lia. }
    destruct (Z.land tag 7 =? 5); [|reflexivity].
    unfold _fixed32, getUint32LE.
    destruct (view_bytes bytes pos1 4); cbn [bind]; [|reflexivity].
    apply IH; lia.
Qed.

(** The rounds [readFields] allows are enough: with more rounds the loop
    gives the same fields. *)
Lemma readFields_runs_to_exit bytes start len n :
  (Z.to_nat len <= n)%nat ->
  readFields_loop bytes (start + len) n start ∅ = readFields bytes start len.
Proof.
  intros H. unfold readFields. cbv zeta.
  apply readFields_loop_rounds; lia.
Qed.

(** The 33 bytes of the manifest fixture are read in at most 33 rounds. *)
Lemma readFields_runs_to_exit_witness :
  readFields_loop Fixtures.node_manifest (0 + 33) 100 0 ∅
  = readFields Fixtures.node_manifest 0 33.
Proof. apply readFields_runs_to_exit. vm_compute. lia. Defined.
End ProtoRounds.

Section ProtoAttributes.
Import JS XmlTree ProtoDecoder ProtoXMLParser.
Variable native : jsstring -> jsstring.







End ProtoAttributes.

Section ProtoAttributeExamples.
Import JS XmlTree ProtoDecoder ProtoXMLParser Fixtures.


End ProtoAttributeExamples.

Section Launcher.
Import JS XmlTree APKParser.

Lemma is_str_true v s : is_str v s = true <-> v = VStr s.
Proof.
  unfold is_str. destruct v; try (split; [done|congruence]).
  rewrite bool_decide_eq_true. split; congruence.
Qed.

Lemma elem_of_children el t c :
  c ∈ _children el t <-> c ∈ children el /\ tag c = VStr t.
Proof.
  unfold _children. rewrite list_elem_of_filter, is_str_true. tauto.
Qed.

Lemma existsb_elem_of {A} (f : A -> bool) l :
  existsb f l = true <-> exists x, x ∈ l /\ f x = true.
Proof.
  rewrite existsb_exists. split; intros (x & Hx & Hf); exists x;
    (split; [apply list_elem_of_In, Hx|done]).
Qed.

Lemma isLauncher_spec act :
  _isLauncher act = true <->
  exists f, f ∈ children act /\ tag f = VStr (lit "intent-filter") /\
    has_child_named f (lit "action") (lit "android.intent.action.MAIN") /\
    has_child_named f (lit "category") (lit "android.intent.category.LAUNCHER").
Proof.
  unfold _isLauncher, has_child_named. rewrite existsb_elem_of.
  split.
  - intros (f & Hf & H). apply elem_of_children in Hf as [Hf Ht].
    apply andb_true_iff in H as [Hm Hl].
    apply existsb_elem_of in Hm as (a & Ha & Hma).
    apply existsb_elem_of in Hl as (c & Hc & Hlc).
    apply elem_of_children in Ha as [Ha Hta].
    apply elem_of_children in Hc as [Hc Htc].
    apply is_str_true in Hma. apply is_str_true in Hlc.
    exists f. eauto 10.
  - intros (f & Hf & Ht & (a & Ha & Hta & Hma) & (c & Hc & Htc & Hlc)).
    exists f. split; [apply elem_of_children; done|].
    apply andb_true_iff. split; apply existsb_elem_of.
    + exists a. split; [apply elem_of_children; done|]. apply is_str_true, Hma.
    + exists c. split; [apply elem_of_children; done|]. apply is_str_true, Hlc.
Qed.

(** C4. The projector records one entry per [activity] child of the
    application, in order, with the launcher flag [_isLauncher]; and an
    activity is a launcher exactly when one of its [intent-filter]
    children has an [action] child named android.intent.action.MAIN and
    a [category] child named android.intent.category.LAUNCHER. *)
Theorem launcher_iff_main_and_launcher (manifest app : element) (info : BuildInfo) :
  tag manifest = VStr (lit "manifest") ->
  _child manifest (lit "application") = Some app ->
  activities (_extractManifest manifest info)
  = map (fun act => {| act_name := or_empty (android_name act);
                       isLauncher := _isLauncher act |})
      (_children app (lit "activity")) /\
  forall act,
    _isLauncher act = true <->
    exists f, f ∈ children act /\ tag f = VStr (lit "intent-filter") /\
      has_child_named f (lit "action") (lit "android.intent.action.MAIN") /\
      has_child_named f (lit "category") (lit "android.intent.category.LAUNCHER").
Proof.
  intros Ht Happ. split; [|apply isLauncher_spec].
  unfold _extractManifest. rewrite Ht.
  replace (is_str (VStr (lit "manifest")) (lit "manifest")) with true
    by (symmetry; apply is_str_true; reflexivity).
  cbn [negb activities]. rewrite Happ. reflexivity.
Qed.

(** Two activities, the second one the launcher. *)
Lemma launcher_iff_main_and_launcher_witness :
  let info := _extractManifest Fixtures.two_activities
                (initial {| Archive.name := lit "a.apk"; Archive.size := 0 |}
                   {| Archive.keys := []; Archive.file := fun _ => None;
                      Archive.file_complex := fun _ _ _ => None |}) in
  isLauncher <$> activities info !! 0%nat = Some false /\
  isLauncher <$> activities info !! 1%nat = Some true.
Proof.
  intros info.
  destruct (launcher_iff_main_and_launcher Fixtures.two_activities
              Fixtures.two_activities_app
              (initial {| Archive.name := lit "a.apk"; Archive.size := 0 |}
                 {| Archive.keys := []; Archive.file := fun _ => None;
                    Archive.file_complex := fun _ _ _ => None |}))
    as [Hacts _]; try (vm_compute; reflexivity).
  subst info. rewrite Hacts. vm_compute. split; reflexivity.
Defined.
End Launcher.

(** ** The AXML decoder: string-pool indices *)

Section StringPool.
Import JS XmlTree AXMLParser.

Lemma str_out_of_range (strs : list jsstring) index :
  index < 0 \/ Z.of_nat (length strs) <= index -> _str strs index = VNull.
Proof.
  intros H. unfold _str.
  destruct (Z.ltb_spec index 0); [reflexivity|].
  destruct (Z.leb_spec (Z.of_nat (length strs)) index); [reflexivity|lia].
Qed.

Lemma str_in_range (strs : list jsstring) index :
  0 <= index < Z.of_nat (length strs) ->
  exists s, strs !! Z.to_nat index = Some s /\ _str strs index = VStr s.
Proof.
  intros H. unfold _str, get.
  destruct (Z.ltb_spec index 0); [lia|].
  destruct (Z.leb_spec (Z.of_nat (length strs)) index); [lia|]. cbn [orb].
  destruct (lookup_lt_is_Some_2 strs (Z.to_nat index)) as [s Hs]; [lia|].
  exists s. rewrite Hs. done.
Qed.

Lemma readUint8_off buffer off v off' : readUint8 buffer off = Ok (v, off') -> off' = off + 1.
Proof. unfold readUint8. destruct (view_bytes buffer off 1); cbn; congruence. Qed.

Lemma readUint16_off buffer off v off' : readUint16 buffer off = Ok (v, off') -> off' = off + 2.
Proof. unfold readUint16. destruct (view_bytes buffer off 2); cbn; congruence. Qed.

Lemma readUint32_off buffer off v off' : readUint32 buffer off = Ok (v, off') -> off' = off + 4.
Proof. unfold readUint32. destruct (view_bytes buffer off 4); cbn; congruence. Qed.

Lemma readInt32_off buffer off v off' : readInt32 buffer off = Ok (v, off') -> off' = off + 4.
Proof. unfold readInt32. destruct (view_bytes buffer off 4); cbn; congruence. Qed.

(** Peel one read off a chain of reads that succeeded. *)
Ltac read_step H v E :=
  match type of H with
  | rbind ?m _ ?off = Ok _ =>
      unfold rbind at 1 in H;
      destruct (m off) as [[v ?off]|?] eqn:E; [|discriminate H]
  end.

Lemma attribute_resolves buffer native t attrSize acc off r off' :
  attribute buffer native t attrSize acc off = Ok (r, off') ->
  exists aNs aName aRawValue aType aData,
    readInt32 buffer off = Ok (aNs, off + 4) /\
    readUint32 buffer (off + 4) = Ok (aName, off + 8) /\
    readInt32 buffer (off + 8) = Ok (aRawValue, off + 12) /\
    readUint8 buffer (off + 15) = Ok (aType, off + 16) /\
    readUint32 buffer (off + 16) = Ok (aData, off + 20) /\
    let value :=
      if 0 <=? aRawValue then _str (strings t) aRawValue
      else _resolveValue (strings t) aType aData in
    let nsStr := if 0 <=? aNs then _str (strings t) aNs else VNull in
    let nameStr := _str (strings t) aName in
    let key := attr_key native (namespaces t) nsStr nameStr in
    last (snd r) = Some {| ra_namespace := nsStr; ra_name := nameStr; ra_value := value;
                           ra_type := Some aType; ra_data := Some aData |} /\
    fst r = assign (fst acc) key value /\
    (key <> lit "__proto__" -> own (fst r) !! key = Some value).
Proof.
  intros H. unfold attribute in H.
  unfold rbind at 1 in H. unfold tell at 1 in H.
  read_step H aNs E1. read_step H aName E2. read_step H aRawValue E3.
  read_step H valueSize E4. read_step H res0 E5. read_step H aType E6.
  read_step H aData E7.
  pose proof E1 as X1. pose proof E2 as X2. pose proof E3 as X3.
  pose proof E4 as X4. pose proof E5 as X5. pose proof E6 as X6. pose proof E7 as X7.
  apply readInt32_off in X1. apply readUint32_off in X2. apply readInt32_off in X3.
  apply readUint16_off in X4. apply readUint8_off in X5. apply readUint8_off in X6.
  apply readUint32_off in X7. subst.
  unfold rbind, seek, rret in H. injection H as <- <-.
  exists aNs, aName, aRawValue, aType, aData.
  replace (off + 4 + 4) with (off + 8) in * by lia.
  replace (off + 8 + 4) with (off + 12) in * by lia.
  replace (off + 12 + 2 + 1) with (off + 15) in * by lia.
  replace (off + 15 + 1) with (off + 16) in * by lia.
  replace (off + 16 + 4) with (off + 20) in * by lia.
  split; [first [exact E1|reflexivity]|]. split; [first [exact E2|reflexivity]|].
  split; [first [exact E3|reflexivity]|]. split; [first [exact E6|reflexivity]|].
  split; [first [exact E7|reflexivity]|].
  cbv zeta. cbn [fst snd]. split; [apply last_snoc|].
  split; [reflexivity|]. intros Hkey. unfold assign.
  rewrite bool_decide_eq_false_2 by done. cbn [andb own]. apply lookup_insert_eq.
Qed.

Lemma startElement_tag buffer native t chunkStart off el off' :
  _parseStartElement buffer native t chunkStart off = Ok (el, off') ->
  exists name,
    readUint32 buffer (off + 12) = Ok (name, off + 16) /\
    tag el = _str (strings t) name.
Proof.
  intros H. unfold _parseStartElement in H.
  read_step H line E1. read_step H comment E2. read_step H ns E3.
  read_step H name E4.
  read_step H attrStart E5. read_step H attrSize E6. read_step H attrCount E7.
  read_step H idI E8. read_step H classI E9. read_step H styleI E10.
  apply readUint32_off in E1. apply readUint32_off in E2. apply readInt32_off in E3.
  pose proof E4 as X4. apply readUint32_off in X4. subst.
  unfold rbind at 1 in H. unfold seek at 1 in H.
  unfold rbind at 1 in H.
  destruct (attribute_loop _ _ _ _ _ _ _) as [[acc offa]|]; [|discriminate H].
  unfold rret in H. injection H as <- <-.
  exists name. replace (off + 12) with (off + 4 + 4 + 4) by lia.
  replace (off + 16) with (off + 4 + 4 + 4 + 4) by lia.
  split; [first [assumption|reflexivity]|reflexivity].
Qed.

(** C6. A string-pool index that is negative or not below the pool length
    resolves to [null], an index in range to the pooled string; and every
    index the decoder takes from a start-element chunk goes through this
    lookup: the element name, the namespace of an attribute (when not
    negative), its name, its raw value (when not negative) and the data of
    a string-typed value.  The attribute is recorded in [_rawAttrs] with
    the values so resolved and assigned to the attributes under its key,
    where it is found afterwards unless the key is [__proto__]. *)
Theorem string_index_in_range_or_null (strs : list jsstring) :
  (forall index,
     (index < 0 \/ Z.of_nat (length strs) <= index -> _str strs index = VNull) /\
     (0 <= index < Z.of_nat (length strs) ->
      exists s, strs !! Z.to_nat index = Some s /\ _str strs index = VStr s)) /\
  (forall data, _resolveValue strs TYPE_STRING data = _str strs data) /\
  (forall buffer native t chunkStart off el off',
     strings t = strs ->
     _parseStartElement buffer native t chunkStart off = Ok (el, off') ->
     exists name,
       readUint32 buffer (off + 12) = Ok (name, off + 16) /\
       tag el = _str strs name) /\
  (forall buffer native t attrSize acc off r off',
     strings t = strs ->
     attribute buffer native t attrSize acc off = Ok (r, off') ->
     exists aNs aName aRawValue aType aData,
       readInt32 buffer off = Ok (aNs, off + 4) /\
       readUint32 buffer (off + 4) = Ok (aName, off + 8) /\
       readInt32 buffer (off + 8) = Ok (aRawValue, off + 12) /\
       readUint8 buffer (off + 15) = Ok (aType, off + 16) /\
       readUint32 buffer (off + 16) = Ok (aData, off + 20) /\
       let value :=
         if 0 <=? aRawValue then _str strs aRawValue
         else _resolveValue strs aType aData in
       let nsStr := if 0 <=? aNs then _str strs aNs else VNull in
       let nameStr := _str strs aName in
       let key := attr_key native (namespaces t) nsStr nameStr in
       last (snd r) = Some {| ra_namespace := nsStr; ra_name := nameStr;
                              ra_value := value;
                              ra_type := Some aType; ra_data := Some aData |} /\
       fst r = assign (fst acc) key value /\
       (key <> lit "__proto__" -> own (fst r) !! key = Some value)).
Proof.
  split; [|split; [|split]].
  - intros index. split; [apply str_out_of_range|apply str_in_range].
  - intros data. reflexivity.
  - intros buffer native t chunkStart off el off' <-. apply startElement_tag.
  - intros buffer native t attrSize acc off r off' <-. apply attribute_resolves.
Qed.

(** The manifest fixture: the attribute with pool indices 7 and 9 is
    recorded with a [null] name and a [null] value; index 1 is the pooled
    "package". *)
Lemma string_index_in_range_or_null_witness :
  let strs := [lit "manifest"; lit "package"; lit "com.example"] in
  _str strs 7 = VNull /\ _str strs (-1) = VNull /\ _str strs 1 = VStr (lit "package") /\
  exists el,
    parse Fixtures.native_text Fixtures.axml_manifest = Some (Ok el) /\
    _rawAttrs el !! 1%nat
    = Some {| ra_namespace := VNull; ra_name := VNull; ra_value := VNull;
              ra_type := Some 3; ra_data := Some 9 |}.
Proof.
  intros strs.
  destruct (string_index_in_range_or_null strs) as (Hstr & _).
  split; [apply (Hstr 7); right; cbn; lia|].
  split; [apply (Hstr (-1)); left; lia|].
  split.
  - destruct (Hstr 1) as [_ H]. destruct H as (s & Hs & ->); [cbn; lia|].
    change (strs !! Z.to_nat 1) with (Some (lit "package")) in Hs.
    injection Hs as <-. reflexivity.
  - eexists. split; vm_compute; reflexivity.
Defined.
End StringPool.

(** ** The AXML decoder: termination and exceptions *)

Section ChunkLoop.
Import JS XmlTree AXMLParser.

Variable buffer : list Z.
Variable native : jsstring -> jsstring.

Lemma view_bytes_range off w e : view_bytes buffer off w = Throw e -> e = RangeError.
Proof. unfold view_bytes. destruct (_ || _); congruence. Qed.

Lemma range_ret {A} (a : A) : throws_range (rret a).
Proof. intros off e. discriminate. Qed.

Lemma range_seek o : throws_range (seek o).
Proof. intros off e. discriminate. Qed.

Lemma range_tell : throws_range tell.
Proof. intros off e. discriminate. Qed.

Lemma range_bind {A B} (m : R A) (k : A -> R B) :
  throws_range m -> (forall a, throws_range (k a)) -> throws_range (rbind m k).
Proof.
  intros Hm Hk off e. unfold rbind.
  destruct (m off) as [[a off1]|e1] eqn:E.
  - apply Hk.
  - intros [= <-]. eapply Hm, E.
Qed.

Lemma range_lift {A} (r : result A) :
  (forall e, r = Throw e -> e = RangeError) -> throws_range (rlift r).
Proof. intros H off e. unfold rlift. destruct r; cbn; [discriminate|]. intros [= <-]. eauto. Qed.

Lemma range_readUint8 : throws_range (readUint8 buffer).
Proof.
  intros off e. unfold readUint8.
  destruct (view_bytes buffer off 1) eqn:E; cbn; [discriminate|].
  intros [= <-]. eapply view_bytes_range, E.
Qed.

Lemma range_readUint16 : throws_range (readUint16 buffer).
Proof.
  intros off e. unfold readUint16.
  destruct (view_bytes buffer off 2) eqn:E; cbn; [discriminate|].
  intros [= <-]. eapply view_bytes_range, E.
Qed.

Lemma range_readUint32 : throws_range (readUint32 buffer).
Proof.
  intros off e. unfold readUint32.
  destruct (view_bytes buffer off 4) eqn:E; cbn; [discriminate|].
  intros [= <-]. eapply view_bytes_range, E.
Qed.

Lemma range_readInt32 : throws_range (readInt32 buffer).
Proof.
  intros off e. unfold readInt32.
  destruct (view_bytes buffer off 4) eqn:E; cbn; [discriminate|].
  intros [= <-]. eapply view_bytes_range, E.
Qed.

Create HintDb axml.

Hint Resolve range_ret range_seek range_tell range_readUint8 range_readUint16
  range_readUint32 range_readInt32 : axml.

Lemma range_utf16_loop start n :
  forall i s e, utf16_loop buffer start n i s = Throw e -> e = RangeError.
Proof.
  induction n as [|n IH]; intros i s e; cbn [utf16_loop]; [discriminate|].
  unfold getUint16LE.
  destruct (view_bytes buffer (start + i * 2) 2) eqn:E; cbn.
  - apply IH.
  - intros [= <-]. eapply view_bytes_range, E.
Qed.

Lemma range_readStringAt offset isUTF8 e :
  _readStringAt buffer offset isUTF8 = Throw e -> e = RangeError.
Proof.
  unfold _readStringAt.
  match goal with |- bind (?body offset) _ = _ -> _ =>
    assert (Hb : throws_range body)
  end.
  { destruct isUTF8.
    - apply range_bind; [auto with axml|intros u16len].
      apply range_bind; [destruct (_ =? 0); auto with axml|intros sk].
      apply range_bind; [auto with axml|intros u8len].
      apply range_bind.
      { destruct (_ =? 0); [auto with axml|].
        apply range_bind; [auto with axml|intros lo; auto with axml]. }
      intros u8len'. apply range_bind; [auto with axml|intros here].
      apply range_bind; [|intros bs; auto with axml].
      apply range_lift. apply view_bytes_range.
    - apply range_bind; [auto with axml|intros charCount].
      apply range_bind.
      { destruct (_ =? 0); [auto with axml|].
        apply range_bind; [auto with axml|intros lo; auto with axml]. }
      intros charCount'. apply range_bind; [auto with axml|intros here].
      apply range_lift. apply range_utf16_loop. }
  match goal with |- bind ?r _ = _ -> _ => destruct r as [[s o]|e1] eqn:E end; cbn.
  - discriminate.
  - intros [= <-]. eapply Hb, E.
Qed.

Lemma range_read_words n : forall acc, throws_range (read_words buffer n acc).
Proof.
  induction n as [|n IH]; intros acc; cbn [read_words]; [auto with axml|].
  apply range_bind; [auto with axml|intros w; apply IH].
Qed.

Lemma range_strings_loop dataStart isUTF8 offs :
  forall acc e, strings_loop buffer dataStart isUTF8 offs acc = Throw e -> e = RangeError.
Proof.
  induction offs as [|o offs IH]; intros acc e; cbn [strings_loop]; [discriminate|].
  destruct (_readStringAt buffer (dataStart + o) isUTF8) eqn:E; cbn.
  - apply IH.
  - intros [= <-]. eapply range_readStringAt, E.
Qed.

Lemma range_parseStringPool chunkStart chunkSize :
  throws_range (_parseStringPool buffer chunkStart chunkSize).
Proof.
  unfold _parseStringPool.
  do 5 (apply range_bind; [auto with axml|intros ?]).
  apply range_bind; [apply range_read_words|intros offs].
  apply range_bind; [auto with axml|intros here].
  apply range_bind; [auto with axml|intros mv].
  apply range_lift, range_strings_loop.
Qed.

Lemma range_parseResourceMap chunkSize : throws_range (_parseResourceMap buffer chunkSize).
Proof. apply range_read_words. Qed.

Lemma range_skipNodeBody : throws_range _skipNodeBody.
Proof. unfold _skipNodeBody. apply range_bind; [auto with axml|intros; auto with axml]. Qed.

Lemma range_parseStartNamespace t : throws_range (_parseStartNamespace buffer t).
Proof.
  unfold _parseStartNamespace.
  do 4 (apply range_bind; [auto with axml|intros ?]).
  destruct (_str _ _); auto with axml.
  destruct (_str _ _); auto with axml.
  destruct (_ && _); auto with axml.
Qed.

Lemma range_attribute t attrSize acc : throws_range (attribute buffer native t attrSize acc).
Proof.
  unfold attribute.
  do 9 (apply range_bind; [auto with axml|intros ?]).
  auto with axml.
Qed.

Lemma range_attribute_loop t attrSize n :
  forall acc, throws_range (attribute_loop buffer native t attrSize n acc).
Proof.
  induction n as [|n IH]; intros acc; cbn [attribute_loop]; [auto with axml|].
  apply range_bind; [apply range_attribute|intros acc'; apply IH].
Qed.

Lemma range_parseStartElement t chunkStart :
  throws_range (_parseStartElement buffer native t chunkStart).
Proof.
  unfold _parseStartElement.
  do 11 (apply range_bind; [auto with axml|intros ?]).
  apply range_bind; [apply range_attribute_loop|intros acc; auto with axml].
Qed.

Lemma range_dispatch chunkType chunkStart chunkSize t stack :
  throws_range (dispatch buffer native chunkType chunkStart chunkSize t stack).
Proof.
  unfold dispatch.
  destruct (_ =? _).
  { apply range_bind; [apply range_parseStringPool|intros; auto with axml]. }
  destruct (_ =? _).
  { apply range_bind; [apply range_parseResourceMap|intros; auto with axml]. }
  destruct (_ =? _).
  { apply range_bind; [apply range_parseStartNamespace|intros; auto with axml]. }
  destruct (_ =? _).
  { apply range_bind; [apply range_skipNodeBody|intros; auto with axml]. }
  destruct (_ =? _).
  { apply range_bind; [apply range_parseStartElement|intros; auto with axml]. }
  destruct (_ =? _).
  { apply range_bind; [apply range_skipNodeBody|intros; auto with axml]. }
  auto with axml.
Qed.

Lemma range_header : throws_range (read_header buffer).
Proof.
  unfold read_header.
  do 3 (apply range_bind; [auto with axml|intros ?]). auto with axml.
Qed.

Lemma chunk_loop_range fuel fileSize :
  forall offset t stack e,
    chunk_loop buffer native fuel fileSize offset t stack = Some (Throw e) -> e = RangeError.
Proof.
  induction fuel as [|fuel IH]; intros offset t stack e; cbn [chunk_loop]; cbv zeta; [discriminate|].
  destruct (_ && _); [|discriminate].
  destruct (read_header buffer offset) as [[[chunkType chunkSize] off1]|e1] eqn:E.
  - destruct ((chunkSize <? 8) || (Z.of_nat (length buffer) <? offset + chunkSize));
      [discriminate|].
    destruct (dispatch _ _ _ _ _ _ _ _) as [[[t' stack'] off2]|e2] eqn:D.
    + apply IH.
    + intros [= <-]. eapply range_dispatch, D.
  - intros [= <-]. eapply range_header, E.
Qed.

Lemma chunk_loop_returns fuel fileSize :
  forall offset t stack,
    (0 < fuel)%nat ->
    Z.of_nat (length buffer) - offset < Z.of_nat fuel ->
    is_Some (chunk_loop buffer native fuel fileSize offset t stack).
Proof.
  induction fuel as [|fuel IH]; intros offset t stack Hpos Hfuel; [lia|].
  cbn [chunk_loop]. cbv zeta.
  destruct (Z.ltb_spec offset fileSize); cbn [andb]; [|eexists; reflexivity].
  destruct (Z.ltb_spec offset (Z.of_nat (length buffer))); [|eexists; reflexivity].
  destruct (read_header buffer offset) as [[[chunkType chunkSize] off1]|e1];
    [|eexists; reflexivity].
  destruct (Z.ltb_spec chunkSize 8); cbn [orb]; [eexists; reflexivity|].
  destruct (Z.ltb_spec (Z.of_nat (length buffer)) (offset + chunkSize));
    [eexists; reflexivity|].
  destruct (dispatch _ _ _ _ _ _ _ _) as [[[t' stack'] off2]|e2]; [|eexists; reflexivity].
  apply IH; lia.
Qed.

Lemma view_bytes_ok off w :
  0 <= off -> off + w <= Z.of_nat (length buffer) ->
  view_bytes buffer off w = Ok (take (Z.to_nat w) (drop (Z.to_nat off) buffer)).
Proof.
  intros H1 H2. unfold view_bytes.
  destruct (Z.ltb_spec off 0); [lia|].
  destruct (Z.ltb_spec (Z.of_nat (length buffer)) (off + w)); [lia|]. reflexivity.
Qed.

Lemma view_bytes_short off w :
  Z.of_nat (length buffer) < off + w -> view_bytes buffer off w = Throw RangeError.
Proof.
  intros H. unfold view_bytes.
  destruct (Z.ltb_spec (Z.of_nat (length buffer)) (off + w)); [|lia].
  rewrite orb_true_r. reflexivity.
Qed.

Lemma read_header_long :
  8 <= Z.of_nat (length buffer) ->
  exists fileSize, read_header buffer 0 = Ok ((first_word buffer, fileSize), 8).
Proof.
  intros H. unfold read_header, rbind, readUint16, readUint32, rret.
  rewrite (view_bytes_ok 0 2) by lia. cbn [bind].
  rewrite (view_bytes_ok (0 + 2) 2) by lia. cbn [bind].
  rewrite (view_bytes_ok (0 + 2 + 2) 4) by lia. cbn [bind].
  eexists. reflexivity.
Qed.

Lemma read_header_short :
  Z.of_nat (length buffer) < 8 -> read_header buffer 0 = Throw RangeError.
Proof.
  intros H. unfold read_header, rbind, readUint16, readUint32, rret.
  destruct (Z.le_gt_cases 2 (Z.of_nat (length buffer)));
    [|rewrite (view_bytes_short 0 2) by lia; reflexivity].
  rewrite (view_bytes_ok 0 2) by lia. cbn [bind].
  destruct (Z.le_gt_cases 4 (Z.of_nat (length buffer)));
    [|rewrite (view_bytes_short (0 + 2) 2) by lia; reflexivity].
  rewrite (view_bytes_ok (0 + 2) 2) by lia. cbn [bind].
  rewrite (view_bytes_short (0 + 2 + 2) 4) by lia. reflexivity.
Qed.

Lemma parse_with_header fuel :
  parse_with buffer native fuel =
    match read_header buffer 0 with
    | Throw e => Some (Throw e)
    | Ok ((type, fileSize), offset) =>
        if negb (type =? RES_XML_TYPE) then Some (Throw NotAxml)
        else
          match chunk_loop buffer native fuel fileSize offset initial [document] with
          | None => None
          | Some (Throw e) => Some (Throw e)
          | Some (Ok stack) =>
              let root :=
                match stack with
                | top :: below => collapse top below
                | [] => document
                end in
              Some (Ok (match children root with
                        | first :: _ => first
                        | [] => root
                        end))
          end
    end.
Proof. reflexivity. Qed.

Lemma parse_short :
  Z.of_nat (length buffer) < 8 -> parse native buffer = Some (Throw RangeError).
Proof.
  intros H. unfold parse. rewrite parse_with_header, read_header_short by done.
  reflexivity.
Qed.

Lemma parse_not_axml :
  8 <= Z.of_nat (length buffer) -> first_word buffer <> 3 ->
  parse native buffer = Some (Throw NotAxml).
Proof.
  intros H Hw. unfold parse. rewrite parse_with_header.
  destruct (read_header_long H) as [fileSize ->].
  destruct (Z.eqb_spec (first_word buffer) RES_XML_TYPE) as [E|_]; [done|reflexivity].
Qed.

Lemma parse_returns : is_Some (parse native buffer).
Proof.
  unfold parse. rewrite parse_with_header.
  destruct (Z.le_gt_cases 8 (Z.of_nat (length buffer))) as [H|H].
  - destruct (read_header_long H) as [fileSize ->].
    destruct (negb _); [eexists; reflexivity|].
    destruct (chunk_loop_returns (S (length buffer)) fileSize 8 initial [document])
      as [[stack|e] ->]; [lia|lia| |]; eexists; reflexivity.
  - rewrite read_header_short by done. eexists; reflexivity.
Qed.

Lemma parse_throws e :
  parse native buffer = Some (Throw e) ->
  e = RangeError \/
  (e = NotAxml /\ 8 <= Z.of_nat (length buffer) /\ first_word buffer <> 3).
Proof.
  unfold parse. rewrite parse_with_header.
  destruct (Z.le_gt_cases 8 (Z.of_nat (length buffer))) as [H|H].
  - destruct (read_header_long H) as [fileSize ->].
    destruct (Z.eqb_spec (first_word buffer) RES_XML_TYPE) as [E|E]; cbn [negb].
    + destruct (chunk_loop _ _ _ _ _ _ _) as [[stack|e1]|] eqn:L; try discriminate.
      intros [= <-]. left. eapply chunk_loop_range, L.
    + intros [= <-]. right. done.
  - rewrite read_header_short by done. intros [= <-]. left. reflexivity.
Qed.

Lemma chunk_loop_stops_at_end fuel fileSize offset t stack :
  fileSize <= offset \/ Z.of_nat (length buffer) <= offset ->
  chunk_loop buffer native (S fuel) fileSize offset t stack = Some (Ok stack).
Proof.
  intros H. cbn [chunk_loop]. cbv zeta.
  destruct (Z.ltb_spec offset fileSize); cbn [andb]; [|reflexivity].
  destruct (Z.ltb_spec offset (Z.of_nat (length buffer))); [lia|reflexivity].
Qed.

Lemma chunk_loop_stops_at_bad_size fuel fileSize offset t stack chunkType chunkSize :
  offset < fileSize -> offset < Z.of_nat (length buffer) ->
  chunk_header buffer offset = Ok (chunkType, chunkSize) ->
  chunkSize < 8 \/ Z.of_nat (length buffer) < offset + chunkSize ->
  chunk_loop buffer native (S fuel) fileSize offset t stack = Some (Ok stack).
Proof.
  intros H1 H2 Hh Hbad. cbn [chunk_loop]. cbv zeta.
  destruct (Z.ltb_spec offset fileSize); [|lia].
  destruct (Z.ltb_spec offset (Z.of_nat (length buffer))); [|lia]. cbn [andb].
  unfold chunk_header in Hh.
  destruct (read_header buffer offset) as [[[ty sz] off1]|e1]; [|discriminate Hh].
  cbn in Hh. injection Hh as -> ->.
  destruct (Z.ltb_spec chunkSize 8); cbn [orb]; [reflexivity|].
  destruct (Z.ltb_spec (Z.of_nat (length buffer)) (offset + chunkSize)); [reflexivity|lia].
Qed.

Lemma chunk_loop_advances fuel fileSize offset t stack chunkType chunkSize :
  offset < fileSize -> offset < Z.of_nat (length buffer) ->
  chunk_header buffer offset = Ok (chunkType, chunkSize) ->
  8 <= chunkSize -> offset + chunkSize <= Z.of_nat (length buffer) ->
  chunk_loop buffer native (S fuel) fileSize offset t stack =
    match dispatch buffer native chunkType offset chunkSize t stack (offset + 8) with
    | Throw e => Some (Throw e)
    | Ok ((t', stack'), _) => chunk_loop buffer native fuel fileSize (offset + chunkSize) t' stack'
    end.
Proof.
  intros H1 H2 Hh H8 Hfit. cbn [chunk_loop]. cbv zeta.
  destruct (Z.ltb_spec offset fileSize); [|lia].
  destruct (Z.ltb_spec offset (Z.of_nat (length buffer))); [|lia]. cbn [andb].
  unfold chunk_header in Hh.
  destruct (read_header buffer offset) as [[[ty sz] off1]|e1] eqn:E; [|discriminate Hh].
  cbn in Hh. injection Hh as -> ->.
  assert (off1 = offset + 8) as ->.
  { revert E. unfold read_header, rbind, readUint16, readUint32, rret.
    destruct (view_bytes buffer offset 2); cbn [bind]; [|discriminate].
    destruct (view_bytes buffer (offset + 2) 2); cbn [bind]; [|discriminate].
    destruct (view_bytes buffer (offset + 2 + 2) 4); cbn [bind]; [|discriminate].
    intros [= _ _ <-]. lia. }
  destruct (Z.ltb_spec chunkSize 8); [lia|]. cbn [orb].
  destruct (Z.ltb_spec (Z.of_nat (length buffer)) (offset + chunkSize)); [lia|].
  reflexivity.
Qed.

Lemma read_header_inside offset :
  0 <= offset -> offset + 8 <= Z.of_nat (length buffer) ->
  exists chunkType chunkSize,
    read_header buffer offset = Ok ((chunkType, chunkSize), offset + 8).
Proof.
  intros H0 H. unfold read_header, rbind, readUint16, readUint32, rret.
  rewrite (view_bytes_ok offset 2) by lia. cbn [bind].
  rewrite (view_bytes_ok (offset + 2) 2) by lia. cbn [bind].
  rewrite (view_bytes_ok (offset + 2 + 2) 4) by lia. cbn [bind].
  replace (offset + 2 + 2 + 4) with (offset + 8) by lia.
  eexists _, _. reflexivity.
Qed.

(** With every header inside the buffer, an exception of the loop is the
    RangeError of a read made for the body of a chunk. *)
Lemma chunk_loop_throws_in_body fuel fileSize :
  forall offset t stack e,
    0 <= offset ->
    Forall (fun o => o + 8 <= Z.of_nat (length buffer))
      (chunk_starts buffer native fuel fileSize offset t stack) ->
    chunk_loop buffer native fuel fileSize offset t stack = Some (Throw e) ->
    e = RangeError /\
    exists start chunkType chunkSize t' stack',
      chunk_header buffer start = Ok (chunkType, chunkSize) /\
      8 <= chunkSize /\ start + chunkSize <= Z.of_nat (length buffer) /\
      dispatch buffer native chunkType start chunkSize t' stack' (start + 8)
      = Throw RangeError.
Proof.
  induction fuel as [|fuel IH]; intros offset t stack e H0 Hin;
    cbn [chunk_loop chunk_starts] in *; cbv zeta; [discriminate|].
  destruct (_ && _); [|discriminate].
  apply Forall_cons in Hin as [Hhead Hin].
  destruct (read_header_inside offset H0 Hhead) as (chunkType & chunkSize & E).
  rewrite E in Hin |- *.
  destruct (Z.ltb_spec chunkSize 8); cbn [orb] in *; [discriminate|].
  destruct (Z.ltb_spec (Z.of_nat (length buffer)) (offset + chunkSize)); [discriminate|].
  destruct (dispatch _ _ _ _ _ _ _ _) as [[[t' stack'] off2]|e2] eqn:D.
  - apply IH; [lia|exact Hin].
  - intros [= <-]. pose proof (range_dispatch _ _ _ _ _ _ _ D) as ->.
    split; [reflexivity|].
    exists offset, chunkType, chunkSize, t, stack.
    split; [unfold chunk_header; rewrite E; reflexivity|]. auto.
Qed.

Lemma parse_throws_in_body e :
  headers_inside buffer native ->
  parse native buffer = Some (Throw e) ->
  (e = NotAxml /\ 8 <= Z.of_nat (length buffer) /\ first_word buffer <> 3) \/
  (e = RangeError /\ Z.of_nat (length buffer) < 8) \/
  (e = RangeError /\
   exists start chunkType chunkSize t stack,
     chunk_header buffer start = Ok (chunkType, chunkSize) /\
     8 <= chunkSize /\ start + chunkSize <= Z.of_nat (length buffer) /\
     dispatch buffer native chunkType start chunkSize t stack (start + 8)
     = Throw RangeError).
Proof.
  unfold headers_inside, parse. rewrite parse_with_header.
  destruct (Z.le_gt_cases 8 (Z.of_nat (length buffer))) as [H|H].
  - destruct (read_header_long H) as [fileSize ->].
    destruct (Z.eqb_spec (first_word buffer) RES_XML_TYPE) as [E|E]; cbn [negb].
    + intros Hin.
      destruct (chunk_loop _ _ _ _ _ _ _) as [[stack|e1]|] eqn:L; try discriminate.
      intros [= <-]. right. right.
      eapply chunk_loop_throws_in_body; [|exact Hin|exact L]. lia.
    + intros _ [= <-]. left. done.
  - rewrite read_header_short by done. intros _ [= <-]. right. left. done.
Qed.

(** C5, as the code has it. [parse] ends on every buffer. It throws
    NotAxml when the eight bytes of the file header are there and the
    opening word is not 0x0003. On a buffer in which no chunk header is
    cut off by the end, every other exception of [parse] is the
    RangeError of a read outside the buffer, made for the file header of
    a buffer shorter than eight bytes or for the body of a chunk that
    itself lies inside the buffer. The chunk loop returns the stack built
    so far when the cursor reaches the file size or the end of the
    buffer, and when a chunk has a size below 8 or would overrun the
    buffer; otherwise it handles the chunk and resumes at
    [chunkStart + chunkSize]. *)
Theorem parse_ends_with_tree_NotAxml_or_RangeError :
  is_Some (parse native buffer) /\
  (headers_inside buffer native ->
   forall e, parse native buffer = Some (Throw e) ->
     (e = NotAxml /\ 8 <= Z.of_nat (length buffer) /\ first_word buffer <> 3) \/
     (e = RangeError /\ Z.of_nat (length buffer) < 8) \/
     (e = RangeError /\
      exists start chunkType chunkSize t stack,
        chunk_header buffer start = Ok (chunkType, chunkSize) /\
        8 <= chunkSize /\ start + chunkSize <= Z.of_nat (length buffer) /\
        dispatch buffer native chunkType start chunkSize t stack (start + 8)
        = Throw RangeError)) /\
  (8 <= Z.of_nat (length buffer) -> first_word buffer <> 3 ->
   parse native buffer = Some (Throw NotAxml)) /\
  (forall fuel fileSize offset t stack,
     (fileSize <= offset \/ Z.of_nat (length buffer) <= offset ->
      chunk_loop buffer native (S fuel) fileSize offset t stack = Some (Ok stack)) /\
     (forall chunkType chunkSize,
        offset < fileSize -> offset < Z.of_nat (length buffer) ->
        chunk_header buffer offset = Ok (chunkType, chunkSize) ->
        (chunkSize < 8 \/ Z.of_nat (length buffer) < offset + chunkSize ->
         chunk_loop buffer native (S fuel) fileSize offset t stack = Some (Ok stack)) /\
        (8 <= chunkSize -> offset + chunkSize <= Z.of_nat (length buffer) ->
         chunk_loop buffer native (S fuel) fileSize offset t stack =
           match dispatch buffer native chunkType offset chunkSize t stack (offset + 8) with
           | Throw e => Some (Throw e)
           | Ok ((t', stack'), _) =>
               chunk_loop buffer native fuel fileSize (offset + chunkSize) t' stack'
           end))).
Proof.
  split; [apply parse_returns|].
  split; [intros Hin e; apply parse_throws_in_body, Hin|].
  split; [apply parse_not_axml|].
  intros fuel fileSize offset t stack.
  split; [apply chunk_loop_stops_at_end|].
  intros chunkType chunkSize H1 H2 Hh.
  split; [eapply chunk_loop_stops_at_bad_size; eauto|].
  apply chunk_loop_advances; assumption.
Qed.
End ChunkLoop.

Section ChunkLoopExamples.
Import JS XmlTree AXMLParser Fixtures.

(** The manifest fixture decodes to its [manifest] element; eight bytes of
    a ZIP header are refused as NotAxml; in the short pool no header is
    cut off, and the RangeError comes from the body of the pool chunk at
    offset 8. *)
Lemma parse_ends_with_tree_NotAxml_or_RangeError_witness :
  (exists el, parse native_text axml_manifest = Some (Ok el) /\
              tag el = VStr (lit "manifest") /\
              attributes el !! lit "package" = Some (VStr (lit "com.example"))) /\
  parse native_text not_axml = Some (Throw NotAxml) /\
  (headers_inside axml_short_pool native_text /\
   parse native_text axml_short_pool = Some (Throw RangeError) /\
   exists start chunkType chunkSize t stack,
     chunk_header axml_short_pool start = Ok (chunkType, chunkSize) /\
     8 <= chunkSize /\ start + chunkSize <= 36 /\
     dispatch axml_short_pool native_text chunkType start chunkSize t stack (start + 8)
     = Throw RangeError).
Proof.
  split; [|split].
  - destruct (parse_ends_with_tree_NotAxml_or_RangeError axml_manifest native_text)
      as ([r Hr] & _).
    revert Hr. vm_compute. intros [= <-].
    eexists. split; [reflexivity|]. split; reflexivity.
  - destruct (parse_ends_with_tree_NotAxml_or_RangeError not_axml native_text)
      as (_ & _ & H & _).
    apply H; [vm_compute; discriminate|vm_compute; discriminate].
  - assert (Hin : headers_inside axml_short_pool native_text).
    { vm_compute. constructor; [discriminate|constructor]. }
    assert (Hp : parse native_text axml_short_pool = Some (Throw RangeError))
      by (vm_compute; reflexivity).
    split; [exact Hin|]. split; [exact Hp|].
    destruct (parse_ends_with_tree_NotAxml_or_RangeError axml_short_pool native_text)
      as (_ & H & _).
    destruct (H Hin RangeError Hp) as [[E _]|[[_ E]|[_ E]]].
    + discriminate E.
    + vm_compute in E. discriminate E.
    + exact E.
Defined.

(** C5 as stated fails: a buffer that opens with 0x0003 and holds a string
    pool announcing more strings than the buffer has room for makes
    [parse] throw a RangeError; so does a buffer too short for the file
    header. *)
Lemma malformed_pool_throws_RangeError :
  first_word axml_short_pool = 3 /\
  parse native_text axml_short_pool = Some (Throw RangeError) /\
  first_word [3; 0] = 3 /\
  parse native_text [3; 0] = Some (Throw RangeError).
Proof. vm_compute. repeat split; reflexivity. Qed.
End ChunkLoopExamples.

Section DocumentRoot.
Import JS XmlTree AXMLParser.

Lemma close_rooted stack : tag <$> last stack = Some (VStr (lit "#document")) ->
  tag <$> last (close stack) = Some (VStr (lit "#document")).
Proof.
  destruct stack as [|el [|parent rest]]; cbn [close]; [done|done|].
  destruct rest as [|x rest]; [|done].
  cbn. destruct parent. cbn. done.
Qed.

Lemma dispatch_rooted buffer native chunkType chunkStart chunkSize t stack off t' stack' off' :
  tag <$> last stack = Some (VStr (lit "#document")) ->
  dispatch buffer native chunkType chunkStart chunkSize t stack off = Ok ((t', stack'), off') ->
  tag <$> last stack' = Some (VStr (lit "#document")).
Proof.
  intros Hroot. unfold dispatch.
  repeat match goal with
         | |- context [if ?b =? ?c then _ else _] => destruct (b =? c)
         end;
    unfold rbind, rret;
    try match goal with
        | |- context [match ?m with Ok _ => _ | Throw _ => _ end] =>
            destruct m as [[a offa]|e]; [|discriminate]
        end;
    cbv beta; intros H; injection H as <- <- <-; try exact Hroot.
  - destruct stack as [|top rest]; [done|]. exact Hroot.
  - destruct (1 <? Z.of_nat (length stack)); [apply close_rooted|]; exact Hroot.
Qed.

(** The element stack of [parse] keeps the document root at its bottom:
    an end-element chunk pops only above it, so the stack the chunk loop
    returns is not empty and still ends with [#document]. *)
Theorem root_stays_on_stack (buffer : list Z) (native : jsstring -> jsstring) (fuel : nat) :
  forall fileSize offset t stack result,
    tag <$> last stack = Some (VStr (lit "#document")) ->
    chunk_loop buffer native fuel fileSize offset t stack = Some (Ok result) ->
    tag <$> last result = Some (VStr (lit "#document")).
Proof.
  induction fuel as [|fuel IH]; intros fileSize offset t stack result Hroot;
    cbn [chunk_loop]; [discriminate|].
  destruct ((offset <? fileSize) && (offset <? Z.of_nat (length buffer)));
    [|intros [= <-]; exact Hroot].
  destruct (read_header buffer offset) as [[[chunkType chunkSize] offset']|e];
    [|discriminate].
  destruct ((chunkSize <? 8) || (Z.of_nat (length buffer) <? offset + chunkSize));
    [intros [= <-]; exact Hroot|].
  destruct (dispatch _ _ _ _ _ _ _ _) as [[[t' stack'] off']|e] eqn:D; [|discriminate].
  apply IH. eapply dispatch_rooted; eauto.
Qed.

Lemma root_stays_on_stack_witness :
  exists result,
    chunk_loop Fixtures.axml_manifest Fixtures.native_text 50 1000 8 initial [document]
    = Some (Ok result) /\
    tag <$> last result = Some (VStr (lit "#document")).
Proof.
  eexists. split; [vm_compute; reflexivity|].
  eapply (root_stays_on_stack Fixtures.axml_manifest Fixtures.native_text 50 1000 8
            initial [document]); [reflexivity|vm_compute; reflexivity].
Defined.
End DocumentRoot.

(** ** Names of archive entries *)

Section AppDirectory.
Import JS Text.

Lemma startsWith_ci_spec pre :
  forall s, startsWith_ci s pre = true <->
            exists p rest, s = p ++ rest /\ map fold p = map fold pre.
Proof.
  induction pre as [|a pre IH]; intros s.
  - destruct s; cbn; (split; [intros _; eexists [], _; split; reflexivity|done]).
  - destruct s as [|c s]; cbn.
    + split; [done|]. intros (p & rest & Hs & Hp).
      symmetry in Hs. apply app_eq_nil in Hs as [-> _]. done.
    + rewrite andb_true_iff, Z.eqb_eq, IH. split.
      * intros (Hc & p & rest & -> & Hp). exists (c :: p), rest. cbn.
        split; [done|]. congruence.
      * intros (p & rest & Hs & Hp). destruct p as [|c' p]; [done|].
        cbn in Hs, Hp. injection Hs as <- ->. injection Hp as Hc Hp'. eauto.
Qed.

Lemma segment_then_app_spec s :
  forall seen, segment_then_app s seen = true <->
    exists name suf, s = name ++ suf /\ (47 ∉ name) /\
      (seen = true \/ name <> []) /\ map fold suf = map fold (lit ".app/").
Proof.
  induction s as [|c s IH]; intros seen.
  - cbn [segment_then_app]. rewrite orb_false_r, andb_true_iff, andb_true_iff.
    split.
    + intros [[_ H] _]. discriminate H.
    + intros (name & suf & Hs & _ & _ & Hf).
      symmetry in Hs. apply app_eq_nil in Hs as [_ ->]. discriminate Hf.
  - cbn [segment_then_app]. rewrite orb_true_iff. split.
    + intros [H|H].
      * apply andb_true_iff in H as [H Hlen]. apply andb_true_iff in H as [Hseen Hst].
        apply bool_decide_eq_true in Hlen.
        apply startsWith_ci_spec in Hst as (p & rest & Hs & Hp).
        assert (length p = 5%nat) by (apply (f_equal length) in Hp;
          rewrite !length_map in Hp; exact Hp).
        assert (rest = []) as ->.
        { apply (f_equal length) in Hs. rewrite length_app in Hs.
          destruct rest; [done|]. cbn in Hs, Hlen. lia. }
        rewrite app_nil_r in Hs. subst p.
        exists [], (c :: s). split; [done|]. split; [apply not_elem_of_nil|]. auto.
      * apply andb_true_iff in H as [Hc H]. apply IH in H as (name & suf & -> & Hn & _ & Hf).
        exists (c :: name), suf. split; [done|]. split.
        { apply not_elem_of_cons. split; [|done].
          apply negb_true_iff, Z.eqb_neq in Hc. congruence. }
        split; [right; done|done].
    + intros (name & suf & Hs & Hn & Hseen & Hf). destruct name as [|c' name].
      * left. destruct Hseen as [->|]; [|done]. cbn in Hs. subst suf. cbn [andb].
        apply andb_true_iff. split.
        { apply startsWith_ci_spec. exists (c :: s), []. rewrite app_nil_r. done. }
        apply bool_decide_eq_true. apply (f_equal length) in Hf.
        rewrite !length_map in Hf. exact Hf.
      * right. cbn in Hs. injection Hs as <- ->.
        apply not_elem_of_cons in Hn as [Hc Hn]. apply andb_true_iff. split.
        { apply negb_true_iff, Z.eqb_neq. congruence. }
        apply IH. exists name, suf. auto.
Qed.

Lemma is_app_dir_spec k :
  is_app_dir k = true <->
  exists pre name suf,
    k = pre ++ name ++ suf /\
    map fold pre = map fold (lit "Payload/") /\
    name <> [] /\ (47 ∉ name) /\
    map fold suf = map fold (lit ".app/").
Proof.
  unfold is_app_dir. rewrite andb_true_iff, startsWith_ci_spec. split.
  - intros [(p & rest & -> & Hp) Hseg].
    assert (length p = 8%nat) by (apply (f_equal length) in Hp;
      rewrite !length_map in Hp; exact Hp).
    rewrite drop_app_length' in Hseg by done.
    apply segment_then_app_spec in Hseg as (name & suf & -> & Hn & [Hs|Hs] & Hf);
      [done|].
    exists p, name, suf. done.
  - intros (pre & name & suf & -> & Hp & Hne & Hn & Hf).
    assert (length pre = 8%nat) by (apply (f_equal length) in Hp;
      rewrite !length_map in Hp; exact Hp).
    split; [eauto|]. rewrite drop_app_length' by done.
    apply segment_then_app_spec. exists name, suf. auto.
Qed.

Lemma find_none_iff {A} (f : A -> bool) l :
  find f l = None <-> forall x, x ∈ l -> f x = false.
Proof.
  induction l as [|a l IH]; cbn.
  - split; [intros _ x Hx; by apply elem_of_nil in Hx|done].
  - destruct (f a) eqn:E.
    + split; [done|]. intros H. rewrite H in E; [done|apply list_elem_of_here].
    + rewrite IH. split.
      * intros H x Hx. apply elem_of_cons in Hx as [->|Hx]; auto.
      * intros H x Hx. apply H. by apply list_elem_of_further.
Qed.
End AppDirectory.

Section EntryNames.
Import JS Text.

Lemma startsWith_spec pre : forall s, startsWith s pre = true <-> pre `prefix_of` s.
Proof.
  induction pre as [|a pre IH]; intros s.
  - destruct s; cbn; (split; [intros _; apply prefix_nil|done]).
  - destruct s as [|c s]; cbn [startsWith].
    + split; [done|]. intros [k Hk]. discriminate Hk.
    + rewrite andb_true_iff, Z.eqb_eq, IH. split.
      * intros [-> H]. apply prefix_cons, H.
      * intros [k Hk]. injection Hk as -> ->. split; [done|]. by exists k.
Qed.

Lemma endsWith_spec s suf : endsWith s suf = true <-> suf `suffix_of` s.
Proof.
  unfold endsWith. rewrite startsWith_spec. symmetry. apply suffix_prefix_reverse.
Qed.

Lemma map_reverse {A B} (f : A -> B) l : map f (reverse l) = reverse (map f l).
Proof.
  induction l as [|a l IH]; [reflexivity|].
  cbn [map]. rewrite !reverse_cons, map_app, IH. reflexivity.
Qed.

Lemma endsWith_ci_spec s suf :
  endsWith_ci s suf = true <->
  exists pre t, s = pre ++ t /\ map fold t = map fold suf.
Proof.
  unfold endsWith_ci. rewrite startsWith_ci_spec. split.
  - intros (p & rest & Hs & Hp). exists (reverse rest), (reverse p). split.
    + rewrite <- reverse_app, <- Hs, reverse_involutive. reflexivity.
    + rewrite map_reverse, Hp, <- map_reverse, reverse_involutive. reflexivity.
  - intros (pre & t & -> & Ht). exists (reverse t), (reverse pre). split.
    + apply reverse_app.
    + rewrite !map_reverse, Ht. reflexivity.
Qed.

Lemma dedupe_spec l :
  forall seen x, x ∈ dedupe l seen <-> x ∈ l /\ x ∉ seen.
Proof.
  induction l as [|a l IH]; intros seen x; cbn [dedupe].
  - split; [intros H; by apply elem_of_nil in H|intros [H _]; by apply elem_of_nil in H].
  - destruct (decide (a ∈ seen)) as [Ha|Ha].
    + rewrite bool_decide_eq_true_2 by done. rewrite IH, elem_of_cons. split.
      * intros [H1 H2]. auto.
      * intros [[->|H1] H2]; [contradiction|auto].
    + rewrite bool_decide_eq_false_2 by done.
      rewrite !elem_of_cons, IH, not_elem_of_cons. split.
      * intros [->|[H1 [H2 H3]]]; auto.
      * intros [[->|H1] H2]; [auto|].
        destruct (decide (x = a)) as [->|Hne]; auto.
Qed.

Lemma dedupe_NoDup l : forall seen, NoDup (dedupe l seen).
Proof.
  induction l as [|a l IH]; intros seen; cbn [dedupe]; [constructor|].
  destruct (bool_decide (a ∈ seen)); [apply IH|].
  constructor; [|apply IH]. rewrite dedupe_spec. intros [_ H].
  apply H, list_elem_of_here.
Qed.

(** [split('/')] starts with the characters before the first slash. *)
Lemma split_slash_first a : forall rest seg,
    (47 ∉ a) -> rest = [] \/ (exists r, rest = 47 :: r) ->
    exists tail, split_slash (a ++ rest) seg = (seg ++ a) :: tail.
Proof.
  induction a as [|c a IH]; intros rest seg Ha Hrest; cbn [app].
  - rewrite app_nil_r. destruct Hrest as [->|[r ->]]; cbn [split_slash].
    + eexists; reflexivity.
    + change (47 =? 47) with true. cbv iota. eexists; reflexivity.
  - apply not_elem_of_cons in Ha as [Hc Ha]. cbn [split_slash].
    destruct (Z.eqb_spec c 47); [congruence|].
    destruct (IH rest (seg ++ [c]) Ha Hrest) as [tail ->].
    rewrite <- app_assoc. eexists; reflexivity.
Qed.

Lemma segment_exists (s : jsstring) :
  exists a rest, s = a ++ rest /\ (47 ∉ a) /\ (rest = [] \/ exists r, rest = 47 :: r).
Proof.
  induction s as [|c s (a & rest & -> & Ha & Hrest)].
  - exists [], []. split; [done|]. split; [apply not_elem_of_nil|auto].
  - destruct (decide (c = 47)) as [->|Hc].
    + exists [], (47 :: a ++ rest). split; [done|].
      split; [apply not_elem_of_nil|right; eauto].
    + exists (c :: a), rest. split; [done|]. split; [|done].
      apply not_elem_of_cons. auto.
Qed.

(** [f.split('/')[1]] for an entry below [lib/]. *)
Lemma second_segment (a rest : jsstring) :
  (47 ∉ a) -> rest = [] \/ (exists r, rest = 47 :: r) ->
  default [] (split_slash (lit "lib/" ++ a ++ rest) [] !! 1%nat) = a.
Proof.
  intros Ha Hrest. change (lit "lib/") with [108; 105; 98; 47].
  cbn [app split_slash Z.eqb Pos.eqb].
  destruct (split_slash_first a rest [] Ha Hrest) as [tail ->]. reflexivity.
Qed.

Lemma find_some_elem {A} (f : A -> bool) l x :
  find f l = Some x -> x ∈ l /\ f x = true.
Proof. intros H. apply find_some in H as [H1 H2]. split; [apply list_elem_of_In, H1|done]. Qed.
End EntryNames.

(** ** The APK projector: a manifest that cannot be decoded *)

Section ApkArchiveFields.
Import JS XmlTree Text Archive APKParser.
Variable native : jsstring -> jsstring.

Lemma insert_by_elem rank x l y : y ∈ insert_by rank x l <-> y = x \/ y ∈ l.
Proof.
  induction l as [|a l IH]; cbn [insert_by].
  - rewrite elem_of_cons. reflexivity.
  - destruct (rank x <=? rank a); rewrite !elem_of_cons; [reflexivity|].
    rewrite IH. tauto.
Qed.

Lemma sort_by_elem rank l y : y ∈ sort_by rank l <-> y ∈ l.
Proof.
  unfold sort_by. induction l as [|a l IH]; cbn [fold_right]; [reflexivity|].
  rewrite insert_by_elem, IH, elem_of_cons. reflexivity.
Qed.

Lemma first_entry_some z paths path entry :
  first_entry z paths = Some (path, entry) ->
  path ∈ paths /\ file z path = Some entry.
Proof.
  induction paths as [|p paths IH]; cbn [first_entry]; [discriminate|].
  destruct (file z p) as [en|] eqn:E.
  - intros [= <- <-]. split; [apply list_elem_of_here|exact E].
  - intros H. destruct (IH H). split; [by apply list_elem_of_further|done].
Qed.

Lemma first_entry_none z paths :
  first_entry z paths = None -> forall p, p ∈ paths -> file z p = None.
Proof.
  induction paths as [|a paths IH]; cbn [first_entry]; intros H p Hp.
  - by apply elem_of_nil in Hp.
  - destruct (file z a) eqn:E; [discriminate|].
    apply elem_of_cons in Hp as [->|Hp]; auto.
Qed.

Lemma candidates_match : forall c, c ∈ candidates -> is_launcher_png c = true.
Proof.
  intros c Hc. apply list_elem_of_In in Hc. cbn in Hc.
  repeat (destruct Hc as [<-|Hc]; [vm_compute; reflexivity|]). destruct Hc.
Qed.

(** Without a path from the manifest, the entry the icon step reads has a
    launcher icon's name. *)
Lemma extractIcon_reads z info :
  iconPath info = VNull ->
  match _extractIcon z info with
  | Throw e' => exists path, is_launcher_png path = true /\ file z path = Some (Throw e')
  | Ok (ic, info') =>
      _manifestError info' = _manifestError info /\
      fileSize info' = fileSize info /\
      totalFiles info' = totalFiles info
  end.
Proof.
  intros Hnull. unfold _extractIcon. rewrite Hnull. cbn [truthy]. cbv iota.
  destruct (first_entry z candidates) as [[path entry]|] eqn:E.
  - apply first_entry_some in E as [Hin Hf].
    destruct entry as [blob|e']; cbn [bind]; [done|].
    exists path. split; [apply candidates_match, Hin|exact Hf].
  - destruct (sort_by _ _) as [|m ranked] eqn:S; [done|].
    assert (Hm : is_launcher_png m = true).
    { assert (H : m ∈ sort_by (fun f => density f densityRank 0)
                   (filter (fun f => is_launcher_png f = true) (keys z)))
        by (rewrite S; apply list_elem_of_here).
      apply sort_by_elem, list_elem_of_filter in H as [H _]. exact H. }
    destruct (file z m) as [[blob|e']|] eqn:F; cbn [bind]; [done| |done].
    exists m. split; [exact Hm|exact F].
Qed.

Lemma architectures_spec z :
  match architectures_of z with
  | None =>
      forall k, k ∈ keys z -> ~ (lit "lib/" `prefix_of` k /\ lit ".so" `suffix_of` k)
  | Some l =>
      l <> [] /\ NoDup l /\
      forall a, a ∈ l <->
        exists k rest,
          k ∈ keys z /\ k = lit "lib/" ++ a ++ rest /\ (47 ∉ a) /\
          (rest = [] \/ exists r, rest = 47 :: r) /\ lit ".so" `suffix_of` k
  end.
Proof.
  unfold architectures_of. cbv zeta.
  remember (filter (fun f => (startsWith f (lit "lib/") && endsWith f (lit ".so")) = true)
              (keys z)) as so eqn:Eso.
  assert (Hso : forall k, k ∈ so <->
            k ∈ keys z /\ lit "lib/" `prefix_of` k /\ lit ".so" `suffix_of` k).
  { intros k. rewrite Eso, list_elem_of_filter, andb_true_iff,
      startsWith_spec, endsWith_spec. tauto. }
  clear Eso. destruct so as [|k0 so'].
  - intros k Hk H. apply (elem_of_nil k), Hso. tauto.
  - split; [|split].
    + cbn [map dedupe]. rewrite bool_decide_eq_false_2 by apply not_elem_of_nil.
      discriminate.
    + apply dedupe_NoDup.
    + intros a. rewrite dedupe_spec, list_elem_of_In, in_map_iff. split.
      * intros [(k & Hk & Hin) _]. apply list_elem_of_In, Hso in Hin as (Hkeys & [s ->] & Hsuf).
        destruct (segment_exists s) as (a' & rest & -> & Ha' & Hrest).
        rewrite second_segment in Hk by assumption. subst a'.
        exists (lit "lib/" ++ a ++ rest), rest. auto.
      * intros (k & rest & Hkeys & -> & Ha & Hrest & Hsuf).
        split; [|apply not_elem_of_nil].
        exists (lit "lib/" ++ a ++ rest). split; [apply second_segment; assumption|].
        apply list_elem_of_In, Hso. split; [done|]. split; [|done].
        eexists; reflexivity.
Qed.

Lemma signing_spec z :
  let meta k := lit "META-INF/" `prefix_of` k in
  let ends_ci (k : jsstring) suf :=
    exists pre t, k = pre ++ t /\ map fold t = map fold (lit suf) in
  let cert k := meta k /\ (ends_ci k ".RSA" \/ ends_ci k ".DSA" \/ ends_ci k ".EC")%string in
  match signing_of z with
  | None => forall k, k ∈ keys z -> ~ cert k
  | Some sg =>
      signed sg = true /\ certFile sg ∈ keys z /\ cert (certFile sg) /\
      forall k, k ∈ signatureFiles sg <->
        k ∈ keys z /\ meta k /\ (ends_ci k ".SF" \/ ends_ci k ".MF")%string
  end.
Proof.
  intros meta ends_ci cert. unfold signing_of. cbv zeta.
  set (metaFiles := filter (fun f => startsWith f (lit "META-INF/") = true) (keys z)).
  assert (Hmeta : forall k, k ∈ metaFiles <-> k ∈ keys z /\ meta k).
  { intros k. unfold metaFiles, meta. rewrite list_elem_of_filter, startsWith_spec. tauto. }
  assert (Hcert : forall k, is_cert k = true <->
            ends_ci k ".RSA"%string \/ ends_ci k ".DSA"%string \/ ends_ci k ".EC"%string).
  { intros k. unfold is_cert, ends_ci. rewrite !orb_true_iff, !endsWith_ci_spec. tauto. }
  destruct (find is_cert metaFiles) as [c|] eqn:F.
  - apply find_some_elem in F as [Hin Hc]. apply Hmeta in Hin as [Hk Hm].
    cbn [signed certFile signatureFiles].
    split; [reflexivity|]. split; [exact Hk|]. split; [split; [exact Hm|apply Hcert, Hc]|].
    intros k. rewrite list_elem_of_filter, Hmeta. unfold is_signature, ends_ci.
    rewrite orb_true_iff, !endsWith_ci_spec. tauto.
  - intros k Hk [Hm Hc]. rewrite find_none_iff in F.
    assert (is_cert k = false) as E by (apply F, Hmeta; done).
    apply Hcert in Hc. congruence.
Qed.

Lemma dexCount_spec z :
  dexCount_of z = Z.of_nat (length (filter (fun k => lit ".dex" `suffix_of` k) (keys z))).
Proof.
  unfold dexCount_of. f_equal. f_equal. apply list_filter_iff.
  intros k. apply endsWith_spec.
Qed.

(** C9, as the code has it.  When reading or decoding AndroidManifest.xml
    throws [e], that exception does not end [APKParser.parse]: it is caught
    and recorded.  What can still end [parse] is the icon step, which reads
    its entry outside any [try]: [parse] is rejected only with the
    exception of reading an entry whose name matches
    [/ic_launcher[^/]*\.png$/i], and it returns a BuildInfo whenever no
    such entry is unreadable.  Every BuildInfo returned has [_manifestError]
    set to [e], the file size of the upload, the number of entries, the
    number of entries ending in [.dex], as architectures the distinct
    second path segments of the entries [lib/...so] (null when there is
    none), and as signing record the first entry under [META-INF/] ending
    in [.RSA], [.DSA] or [.EC] without case, with the entries under
    [META-INF/] ending in [.SF] or [.MF] (null when there is no such
    certificate). *)
Theorem manifest_error_recorded_archive_fields_emitted
    (f : upload) (z : zip) (e : exn) :
  (file z (lit "AndroidManifest.xml") = Some (Throw e) \/
   exists buf, file z (lit "AndroidManifest.xml") = Some (Ok buf) /\
               AXMLParser.parse native buf = Some (Throw e)) ->
  (forall e', parse native f z = Some (Throw e') ->
     exists path, is_launcher_png path = true /\ file z path = Some (Throw e')) /\
  ((forall path e', is_launcher_png path = true -> file z path <> Some (Throw e')) ->
   exists info, parse native f z = Some (Ok info)) /\
  (forall info, parse native f z = Some (Ok info) ->
     _manifestError info = Some e /\
     fileSize info = size f /\
     totalFiles info = Z.of_nat (length (keys z)) /\
     dexCount info
     = Z.of_nat (length (filter (fun k => lit ".dex" `suffix_of` k) (keys z))) /\
     match architectures info with
     | None =>
         forall k, k ∈ keys z -> ~ (lit "lib/" `prefix_of` k /\ lit ".so" `suffix_of` k)
     | Some l =>
         l <> [] /\ NoDup l /\
         forall a, a ∈ l <->
           exists k rest,
             k ∈ keys z /\ k = lit "lib/" ++ a ++ rest /\ (47 ∉ a) /\
             (rest = [] \/ exists r, rest = 47 :: r) /\ lit ".so" `suffix_of` k
     end /\
     let meta k := lit "META-INF/" `prefix_of` k in
     let ends_ci (k : jsstring) suf :=
       exists pre t, k = pre ++ t /\ map fold t = map fold (lit suf) in
     let cert k :=
       meta k /\ (ends_ci k ".RSA" \/ ends_ci k ".DSA" \/ ends_ci k ".EC")%string in
     match signingInfo info with
     | None => forall k, k ∈ keys z -> ~ cert k
     | Some sg =>
         signed sg = true /\ certFile sg ∈ keys z /\ cert (certFile sg) /\
         forall k, k ∈ signatureFiles sg <->
           k ∈ keys z /\ meta k /\ (ends_ci k ".SF" \/ ends_ci k ".MF")%string
     end).
Proof.
  intros Hman.
  assert (Hstep : manifest_step native z (initial f z)
                  = Some (set_manifestError (initial f z) e)).
  { unfold manifest_step. destruct Hman as [->|(buf & -> & ->)]; reflexivity. }
  pose proof (extractIcon_reads z (set_manifestError (initial f z) e) eq_refl) as Hicon.
  unfold parse. rewrite Hstep.
  destruct (_extractIcon z (set_manifestError (initial f z) e)) as [[ic info']|e1].
  - destruct Hicon as (H1 & H2 & H3). split; [discriminate|].
    split; [intros _; eexists; reflexivity|].
    intros info [= <-]. cbn [_manifestError fileSize totalFiles dexCount architectures
                             signingInfo].
    rewrite H1, H2, H3. split; [reflexivity|]. split; [reflexivity|].
    split; [reflexivity|]. split; [apply dexCount_spec|].
    split; [apply architectures_spec|apply signing_spec].
  - destruct Hicon as (path & Hpng & Hfile). split; [|split].
    + intros e' [= <-]. eauto.
    + intros Hread. exfalso. eapply Hread; eauto.
    + discriminate.
Qed.
End ApkArchiveFields.

Section ApkArchiveExamples.
Import JS XmlTree Text Archive APKParser Fixtures.

(** An APK whose manifest is cut short: the RangeError is recorded, and
    two dex files, two architectures and the certificate are reported;
    with a launcher icon that cannot be read, [parse] is rejected with the
    exception of the read. *)
Lemma manifest_error_recorded_archive_fields_emitted_witness :
  (exists info,
     parse native_text broken_apk_file broken_apk = Some (Ok info) /\
     _manifestError info = Some RangeError /\
     fileSize info = 4096 /\
     totalFiles info = 9 /\
     dexCount info = 2 /\
     architectures info = Some [lit "arm64-v8a"; lit "x86"] /\
     signingInfo info
     = Some {| signed := true; certFile := lit "META-INF/CERT.RSA";
               signatureFiles := [lit "META-INF/CERT.SF"; lit "META-INF/MANIFEST.MF"] |}) /\
  parse native_text broken_apk_file unreadable_icon_apk
  = Some (Throw (Error "invalid stored block lengths")) /\
  exists path,
    is_launcher_png path = true /\
    file unreadable_icon_apk path = Some (Throw (Error "invalid stored block lengths")).
Proof.
  split; [|split].
  - destruct (manifest_error_recorded_archive_fields_emitted native_text
                broken_apk_file broken_apk RangeError)
      as (_ & _ & H).
    { right. exists axml_short_pool. split; vm_compute; reflexivity. }
    eexists. split; [vm_compute; reflexivity|].
    match goal with |- context [_manifestError ?i] =>
      destruct (H i) as (He & Hs & Ht & Hd & _); [vm_compute; reflexivity|]
    end.
    split; [exact He|]. split; [exact Hs|]. split; [exact Ht|].
    split; [exact Hd|]. split; reflexivity.
  - vm_compute. reflexivity.
  - destruct (manifest_error_recorded_archive_fields_emitted native_text
                broken_apk_file unreadable_icon_apk RangeError)
      as (H & _).
    { right. exists axml_short_pool. split; vm_compute; reflexivity. }
    apply H. vm_compute. reflexivity.
Defined.
End ApkArchiveExamples.

(** ** The APK projector: the launcher icon and the name lists *)

Section LauncherIcon.
Import JS XmlTree Text Archive APKParser.

Lemma no_slash_then_png_spec s :
  no_slash_then_png s = true <->
  exists mid suf, s = mid ++ suf /\ (47 ∉ mid) /\ map fold suf = map fold (lit ".png").
Proof.
  induction s as [|c s IH].
  - cbn [no_slash_then_png]. rewrite orb_false_r, andb_true_iff. split.
    + intros [H _]. discriminate H.
    + intros (mid & suf & Hs & _ & Hf).
      symmetry in Hs. apply app_eq_nil in Hs as [_ ->]. discriminate Hf.
  - cbn [no_slash_then_png]. rewrite orb_true_iff. split.
    + intros [H|H].
      * apply andb_true_iff in H as [Hst Hlen].
        apply bool_decide_eq_true in Hlen.
        apply startsWith_ci_spec in Hst as (p & rest & Hs & Hp).
        assert (length p = 4%nat) by (apply (f_equal length) in Hp;
          rewrite !length_map in Hp; exact Hp).
        assert (rest = []) as ->.
        { apply (f_equal length) in Hs. rewrite length_app in Hs.
          destruct rest; [done|]. cbn in Hs, Hlen. lia. }
        rewrite app_nil_r in Hs. subst p.
        exists [], (c :: s). split; [done|]. split; [apply not_elem_of_nil|done].
      * apply andb_true_iff in H as [Hc H]. apply IH in H as (mid & suf & -> & Hn & Hf).
        exists (c :: mid), suf. split; [done|]. split; [|done].
        apply not_elem_of_cons. split; [|done].
        apply negb_true_iff, Z.eqb_neq in Hc. congruence.
    + intros (mid & suf & Hs & Hn & Hf). destruct mid as [|c' mid].
      * left. cbn in Hs. subst suf. apply andb_true_iff. split.
        { apply startsWith_ci_spec. exists (c :: s), []. rewrite app_nil_r. done. }
        apply bool_decide_eq_true. apply (f_equal length) in Hf.
        rewrite !length_map in Hf. exact Hf.
      * right. cbn in Hs. injection Hs as <- ->.
        apply not_elem_of_cons in Hn as [Hc Hn]. apply andb_true_iff. split.
        { apply negb_true_iff, Z.eqb_neq. congruence. }
        apply IH. exists mid, suf. auto.
Qed.

(** The fallback pattern [/ic_launcher[^/]*\.png$/i]: a name matches when
    it holds [ic_launcher], then characters other than a slash, then
    [.png] at its end, letters compared without case. *)
Theorem launcher_pattern_matches (f : jsstring) :
  is_launcher_png f = true <->
  exists pre word mid suf,
    f = pre ++ word ++ mid ++ suf /\
    map fold word = map fold (lit "ic_launcher") /\
    (47 ∉ mid) /\
    map fold suf = map fold (lit ".png").
Proof.
  induction f as [|c f IH].
  - cbn. split; [done|]. intros (pre & word & mid & suf & Hs & Hw & _).
    symmetry in Hs. apply app_eq_nil in Hs as [_ Hs].
    apply app_eq_nil in Hs as [-> _]. discriminate Hw.
  - cbn [is_launcher_png]. rewrite orb_true_iff, andb_true_iff, startsWith_ci_spec. split.
    + intros [[(p & rest & Hs & Hp) Hpng]|H].
      * assert (length p = 11%nat) by (apply (f_equal length) in Hp;
          rewrite !length_map in Hp; exact Hp).
        rewrite Hs in Hpng. rewrite drop_app_length' in Hpng by done.
        apply no_slash_then_png_spec in Hpng as (mid & suf & -> & Hn & Hf).
        exists [], p, mid, suf. done.
      * apply IH in H as (pre & word & mid & suf & -> & Hw & Hn & Hf).
        exists (c :: pre), word, mid, suf. done.
    + intros (pre & word & mid & suf & Hs & Hw & Hn & Hf).
      assert (length word = 11%nat) by (apply (f_equal length) in Hw;
        rewrite !length_map in Hw; exact Hw).
      destruct pre as [|c' pre].
      * left. cbn [app] in Hs. split; [eauto|].
        rewrite Hs, drop_app_length' by done.
        apply no_slash_then_png_spec. eauto.
      * right. cbn [app] in Hs. injection Hs as <- ->. apply IH.
        exists pre, word, mid, suf. done.
Qed.

(** The order of [_extractIcon]: a path the manifest gave that has an
    entry is read and the candidates are not looked at; without one, the
    first candidate of the list that has an entry is read and becomes
    [iconPath]. *)
Theorem icon_from_manifest_path_then_first_candidate (z : zip) (info : BuildInfo) :
  (forall path blob,
     iconPath info = VStr path -> path <> [] -> file z path = Some (Ok blob) ->
     _extractIcon z info = Ok (Some (ObjectURL blob), info)) /\
  (forall before path after blob,
     truthy (iconPath info) = false ->
     candidates = before ++ path :: after ->
     Forall (fun p => file z p = None) before ->
     file z path = Some (Ok blob) ->
     _extractIcon z info = Ok (Some (ObjectURL blob), set_iconPath info (VStr path))).
Proof.
  split.
  - intros path blob Hp Hne Hfile. unfold _extractIcon. rewrite Hp.
    assert (truthy (VStr path) = true) as ->.
    { destruct path; [done|reflexivity]. }
    cbn [lookup]. rewrite Hfile. reflexivity.
  - intros before path after blob Ht Hc Hbefore Hfile. unfold _extractIcon.
    rewrite Ht, Hc.
    assert (first_entry z (before ++ path :: after) = Some (path, Ok blob)) as ->.
    { clear Hc. induction Hbefore as [|p before Hp _ IH]; cbn [app first_entry].
      - rewrite Hfile. reflexivity.
      - rewrite Hp. exact IH. }
    reflexivity.
Qed.
(** With icons at the third and the sixth candidate path and no path from
    the manifest, the third is read; with the sixth given by the manifest,
    that one is. *)
Lemma icon_from_manifest_path_then_first_candidate_witness :
  let info := initial Fixtures.broken_apk_file Fixtures.two_icons_apk in
  _extractIcon Fixtures.two_icons_apk info
  = Ok (Some (ObjectURL [1]),
        set_iconPath info (VStr (lit "res/mipmap-xhdpi-v4/ic_launcher.png"))) /\
  let given := set_iconPath info (VStr (lit "res/mipmap-xxxhdpi/ic_launcher.png")) in
  _extractIcon Fixtures.two_icons_apk given = Ok (Some (ObjectURL [2]), given).
Proof.
  intros info. split; [|intros given].
  - destruct (icon_from_manifest_path_then_first_candidate Fixtures.two_icons_apk info)
      as (_ & H).
    apply (H (take 2 candidates) _ (drop 3 candidates));
      [reflexivity|reflexivity| |reflexivity].
    repeat constructor.
  - destruct (icon_from_manifest_path_then_first_candidate Fixtures.two_icons_apk given)
      as (H & _).
    apply (H (lit "res/mipmap-xxxhdpi/ic_launcher.png")); [reflexivity|discriminate|reflexivity].
Defined.
End LauncherIcon.

Section ManifestNames.
Import JS XmlTree Text Archive APKParser.

Lemma names_spec l v :
  v ∈ names l <-> truthy v = true /\ exists c, c ∈ l /\ v = android_name c.
Proof.
  unfold names. rewrite list_elem_of_filter, list_elem_of_In, in_map_iff. split.
  - intros (Ht & c & Hc & Hin). split; [exact Ht|]. exists c.
    split; [apply list_elem_of_In, Hin|].
    subst v. unfold or_empty in *. destruct (truthy (android_name c)); [done|done].
  - intros (Ht & c & Hin & ->). split; [exact Ht|]. exists c.
    split; [|apply list_elem_of_In, Hin]. unfold or_empty. rewrite Ht. reflexivity.
Qed.

(** The name lists of [_extractManifest]: [permissions] holds the
    [android:name] of every [uses-permission] child of the manifest that
    has a non-empty one, and nothing else; [services] and [receivers]
    likewise for the [service] and [receiver] children of the first
    [application] child. *)
Theorem name_lists_hold_given_names (manifest : element) (info : BuildInfo) :
  tag manifest = VStr (lit "manifest") ->
  (forall v,
     v ∈ permissions (_extractManifest manifest info) <->
     truthy v = true /\
     exists c, c ∈ children manifest /\ tag c = VStr (lit "uses-permission") /\
               v = android_name c) /\
  (forall app,
     _child manifest (lit "application") = Some app ->
     forall v,
       (v ∈ services (_extractManifest manifest info) <->
        truthy v = true /\
        exists c, c ∈ children app /\ tag c = VStr (lit "service") /\
                  v = android_name c) /\
       (v ∈ receivers (_extractManifest manifest info) <->
        truthy v = true /\
        exists c, c ∈ children app /\ tag c = VStr (lit "receiver") /\
                  v = android_name c)).
Proof.
  intros Htag. unfold _extractManifest. rewrite Htag.
  assert (is_str (VStr (lit "manifest")) (lit "manifest") = true) as -> by reflexivity.
  cbn [negb]. cbv zeta.
  assert (Hch : forall el t c,
            c ∈ _children el t <-> c ∈ children el /\ tag c = VStr t).
  { intros el t c. unfold _children. rewrite list_elem_of_filter, is_str_true. tauto. }
  split.
  - intros v. cbn [permissions]. rewrite names_spec. split.
    + intros (Ht & c & Hc & ->). apply Hch in Hc as [Hc Hct]. eauto.
    + intros (Ht & c & Hc & Hct & ->). split; [exact Ht|]. exists c.
      split; [apply Hch; auto|reflexivity].
  - intros app Happ v. rewrite Happ. cbn [services receivers]. rewrite !names_spec.
    split; split.
    + intros (Ht & c & Hc & ->). apply Hch in Hc as [Hc Hct]. eauto.
    + intros (Ht & c & Hc & Hct & ->). split; [exact Ht|]. exists c.
      split; [apply Hch; auto|reflexivity].
    + intros (Ht & c & Hc & ->). apply Hch in Hc as [Hc Hct]. eauto.
    + intros (Ht & c & Hc & Hct & ->). split; [exact Ht|]. exists c.
      split; [apply Hch; auto|reflexivity].
Qed.
(** Of two permissions the one with a name is listed; the service is, the
    receiver without a name is not. *)
Lemma name_lists_hold_given_names_witness :
  let info := _extractManifest Fixtures.with_permissions
                (initial Fixtures.broken_apk_file Fixtures.broken_apk) in
  permissions info = [VStr (lit "android.permission.INTERNET")] /\
  services info = [VStr (lit ".Sync")] /\
  receivers info = [] /\
  (forall v, v ∈ permissions info -> truthy v = true).
Proof.
  intros info. split; [reflexivity|]. split; [reflexivity|]. split; [reflexivity|].
  intros v Hv.
  destruct (name_lists_hold_given_names Fixtures.with_permissions
              (initial Fixtures.broken_apk_file Fixtures.broken_apk) eq_refl) as [H _].
  apply H in Hv as [Ht _]. exact Ht.
Defined.
End ManifestNames.


(** ** The IPA projector: the application directory *)

Section IpaFatal.
Import JS Text Archive IPAParser.

Variables PlistValue PlistInfo Provisioning Hint : Type.
Variable blank : PlistInfo.
Variable of_bplist : BPlistParser.jsval -> PlistValue.
Variable _parseXMLPlist : jsstring -> result PlistValue.
Variable _extractPlistInfo :
  PlistValue -> PlistInfo -> PlistInfo * result (list Hint).
Variable plus : Hint -> jsstring -> result jsstring.
Variable _loadIconEntry : result (list Z) -> option url.
Variable _parseProvisioning : list Z -> result (option Provisioning).
Variable overflow : exn.

Let run := parse PlistValue PlistInfo Provisioning Hint blank of_bplist _parseXMLPlist
             _extractPlistInfo plus _loadIconEntry _parseProvisioning overflow.
Let step := plist_step PlistValue PlistInfo Hint blank of_bplist _parseXMLPlist
              _extractPlistInfo overflow.
Let decode := _parsePlist PlistValue of_bplist _parseXMLPlist overflow.
Let names_of := hint_names Hint plus.

Lemma hint_names_throws hints e :
  names_of hints = Throw e ->
  exists h sfx,
    h ∈ hints /\ sfx ∈ [lit "@3x.png"; lit "@2x.png"; lit ".png"] /\ plus h sfx = Throw e.
Proof.
  unfold names_of. induction hints as [|h rest IH]; cbn [hint_names]; [discriminate|].
  destruct (plus h (lit "@3x.png")) as [n3|e3] eqn:E3; cbn [bind].
  2:{ intros [= <-]. exists h, (lit "@3x.png"). split; [apply list_elem_of_here|].
      split; [apply list_elem_of_here|exact E3]. }
  destruct (plus h (lit "@2x.png")) as [n2|e2] eqn:E2; cbn [bind].
  2:{ intros [= <-]. exists h, (lit "@2x.png"). split; [apply list_elem_of_here|].
      split; [apply list_elem_of_further, list_elem_of_here|exact E2]. }
  destruct (plus h (lit ".png")) as [n1|e1] eqn:E1; cbn [bind].
  2:{ intros [= <-]. exists h, (lit ".png"). split; [apply list_elem_of_here|].
      split; [do 2 apply list_elem_of_further; apply list_elem_of_here|exact E1]. }
  destruct (hint_names Hint plus rest) as [names|e'] eqn:Erest; cbn [bind]; [discriminate|].
  intros [= <-]. destruct (IH eq_refl) as (h' & sfx & Hin & Hsfx & Hplus).
  exists h', sfx. split; [apply list_elem_of_further, Hin|]. split; assumption.
Qed.

(** An exception inside the [try] around Info.plist leaves the hint list
    empty and is stored. *)
Lemma plist_failure_recorded depth z appDir e :
  (file z (appDir ++ lit "Info.plist") = Some (Throw e) \/
   exists buf,
     file z (appDir ++ lit "Info.plist") = Some (Ok buf) /\
     (decode depth buf = Some (Throw e) \/
      exists plist,
        decode depth buf = Some (Ok plist) /\
        snd (_extractPlistInfo plist blank) = Throw e)) ->
  exists fields, step depth z appDir = Some (fields, [], Some e).
Proof.
  unfold step, decode, plist_step.
  intros [->|(buf & -> & [->|(plist & -> & Hx)])]; [eauto|eauto|].
  destruct (_extractPlistInfo plist blank) as [fields [hints|e']]; cbn [snd] in Hx;
    [discriminate|]. injection Hx as ->. eauto.
Qed.

(** The decoder of Info.plist is the only step that may not return. *)
Lemma plist_step_none depth z appDir :
  step depth z appDir = None <->
  exists buf,
    file z (appDir ++ lit "Info.plist") = Some (Ok buf) /\
    magic buf = lit "bplist" /\
    BPlistParser.parse_within overflow depth buf = None.
Proof.
  unfold step, plist_step, _parsePlist. split.
  - destruct (file z (appDir ++ lit "Info.plist")) as [[buf|e]|]; [|discriminate..].
    destruct (bool_decide (magic buf = lit "bplist")) eqn:Hm.
    + apply bool_decide_eq_true in Hm.
      destruct (BPlistParser.parse_within overflow depth buf) as [[v|e]|] eqn:Hp.
      * destruct (_extractPlistInfo (of_bplist v) blank) as [fields [hints|e]]; discriminate.
      * discriminate.
      * intros _. exists buf. auto.
    + destruct (includes (utf8_decode buf) (lit "<plist")); [|discriminate].
      destruct (_parseXMLPlist (utf8_decode buf)) as [plist|e]; [|discriminate].
      destruct (_extractPlistInfo plist blank) as [fields [hints|e]]; discriminate.
  - intros (buf & -> & Hm & ->). rewrite bool_decide_eq_true_2 by exact Hm. reflexivity.
Qed.

(** C10, as the code has it.  When no entry name of the archive matches
    [/^Payload\/[^/]+\.app\/$/i], [IPAParser.parse] throws "No .app bundle
    found inside IPA" and returns no BuildInfo.  When some entry matches,
    the first such entry is the application directory, and: an exception
    raised while Info.plist is read, decoded or projected is recorded as
    [_plistError] of the BuildInfo that [parse] returns; icon entries and a
    provisioning profile that cannot be read or decoded leave [parse]
    returning its BuildInfo (with [hasProvisioning] set and no
    provisioning record); [parse] is rejected only when a plist was
    decoded and one of its icon hints cannot be joined with a suffix, and
    it fails to return only when the binary plist decoder does.  An entry
    name matches when it is [Payload/], one or more characters other than
    a slash, and [.app/], letters compared without case; a file below such
    a directory does not match. *)
Theorem missing_app_directory_is_fatal (depth : nat) (f : upload) (z : zip) :
  ((forall k, k ∈ keys z -> is_app_dir k = false) ->
   run depth f z = Some (Throw NoAppBundle)) /\
  ((exists k, k ∈ keys z /\ is_app_dir k = true) ->
   exists appDir,
     find is_app_dir (keys z) = Some appDir /\
     appDir ∈ keys z /\ is_app_dir appDir = true /\
     (forall e,
        (file z (appDir ++ lit "Info.plist") = Some (Throw e) \/
         exists buf,
           file z (appDir ++ lit "Info.plist") = Some (Ok buf) /\
           (decode depth buf = Some (Throw e) \/
            exists plist,
              decode depth buf = Some (Ok plist) /\
              snd (_extractPlistInfo plist blank) = Throw e)) ->
        exists info,
          run depth f z = Some (Ok info) /\ _plistError _ _ info = Some e) /\
     (forall fields hints err,
        step depth z appDir = Some (fields, hints, err) ->
        (forall names,
           names_of hints = Ok names ->
           exists info,
             run depth f z = Some (Ok info) /\
             _plistError _ _ info = err /\
             plistInfo _ _ info = fields /\
             fileSize _ _ info = size f /\
             totalFiles _ _ info = Z.of_nat (length (keys z)) /\
             ((exists e,
                 file z (appDir ++ lit "embedded.mobileprovision") = Some (Throw e) \/
                 exists buf,
                   file z (appDir ++ lit "embedded.mobileprovision") = Some (Ok buf) /\
                   _parseProvisioning buf = Throw e) ->
              hasProvisioning _ _ info = true /\ provisioningInfo _ _ info = None)) /\
        (forall e, names_of hints = Throw e -> run depth f z = Some (Throw e))) /\
     (forall e,
        run depth f z = Some (Throw e) ->
        exists fields hints h sfx,
          step depth z appDir = Some (fields, hints, None) /\
          h ∈ hints /\
          sfx ∈ [lit "@3x.png"; lit "@2x.png"; lit ".png"] /\
          plus h sfx = Throw e) /\
     (run depth f z = None <->
      exists buf,
        file z (appDir ++ lit "Info.plist") = Some (Ok buf) /\
        magic buf = lit "bplist" /\
        BPlistParser.parse_within overflow depth buf = None)) /\
  (forall k,
     is_app_dir k = true <->
     exists pre name suf,
       k = pre ++ name ++ suf /\
       map fold pre = map fold (lit "Payload/") /\
       name <> [] /\ (47 ∉ name) /\
       map fold suf = map fold (lit ".app/")).
Proof.
  split; [|split; [|apply is_app_dir_spec]].
  - intros Hnone. unfold run, parse.
    apply find_none_iff in Hnone. rewrite Hnone. reflexivity.
  - intros (k & Hk & Hdir).
    destruct (find is_app_dir (keys z)) as [appDir|] eqn:Hfind.
    2:{ rewrite find_none_iff in Hfind. rewrite Hfind in Hdir by exact Hk. discriminate. }
    exists appDir. split; [reflexivity|].
    destruct (find_some_elem _ _ _ Hfind) as [Hin Happ].
    split; [exact Hin|]. split; [exact Happ|].
    assert (Hrun : forall fields hints err,
              step depth z appDir = Some (fields, hints, err) ->
              run depth f z
              = match names_of hints with
                | Throw e => Some (Throw e)
                | Ok names =>
                    match _extractIcon Hint plus _loadIconEntry z appDir hints (keys z) with
                    | Throw e => Some (Throw e)
                    | Ok ic =>
                        Some (Ok {| type := lit "IPA"; fileName := name f;
                                    fileSize := size f; plistInfo := fields; icon := ic;
                                    hasProvisioning :=
                                      fst (provisioning_step Provisioning
                                             _parseProvisioning z appDir);
                                    provisioningInfo :=
                                      snd (provisioning_step Provisioning
                                             _parseProvisioning z appDir);
                                    frameworks := frameworks_of z appDir;
                                    totalFiles := Z.of_nat (length (keys z));
                                    _plistError := err |})
                    end
                end /\
              (forall names, names_of hints = Ok names ->
                 exists ic, _extractIcon Hint plus _loadIconEntry z appDir hints (keys z)
                            = Ok ic)).
    { intros fields hints err Hstep. unfold run, parse. cbv zeta. rewrite Hfind.
      fold step. rewrite Hstep. unfold _extractIcon. fold names_of.
      destruct (names_of hints) as [names|e]; cbn [bind].
      - split.
        + destruct (first_icon _ _ _ _); [|destruct (sort_by _ _); [|destruct (file z _)]];
            destruct (provisioning_step _ _ _ _); reflexivity.
        + intros _ _.
          destruct (first_icon _ _ _ _); [|destruct (sort_by _ _); [|destruct (file z _)]];
            eauto.
      - split; [reflexivity|discriminate]. }
    split; [|split; [|split]].
    + intros e Hfail.
      destruct (plist_failure_recorded depth z appDir e Hfail) as (fields & Hstep).
      destruct (Hrun _ _ _ Hstep) as (-> & Hic).
      change (names_of []) with (@Ok (list jsstring) []) in *.
      destruct (Hic [] eq_refl) as (ic & ->). eexists. split; reflexivity.
    + intros fields hints err Hstep. destruct (Hrun _ _ _ Hstep) as (-> & Hic). split.
      * intros names Hn. rewrite Hn. destruct (Hic names Hn) as (ic & ->).
        eexists. split; [reflexivity|].
        cbn [_plistError plistInfo fileSize totalFiles hasProvisioning provisioningInfo].
        do 4 (split; [reflexivity|]).
        unfold provisioning_step.
        intros (e & [->|(buf & -> & ->)]); split; reflexivity.
      * intros e ->. reflexivity.
    + intros e Hthrow.
      destruct (step depth z appDir) as [[[fields hints] err]|] eqn:Hstep.
      2:{ unfold run, parse in Hthrow. cbv zeta in Hthrow. rewrite Hfind in Hthrow.
          fold step in Hthrow. rewrite Hstep in Hthrow. discriminate. }
      destruct (Hrun _ _ _ eq_refl) as (Heq & Hic). rewrite Heq in Hthrow.
      destruct (names_of hints) as [names|e'] eqn:Hn.
      { destruct (Hic names eq_refl) as (ic & Hicon). rewrite Hicon in Hthrow.
        discriminate. }
      injection Hthrow as ->.
      destruct (hint_names_throws hints e Hn) as (h & sfx & Hh & Hsfx & Hplus).
      assert (err = None) as ->.
      { destruct err as [e0|]; [|reflexivity]. exfalso.
        unfold step, plist_step in Hstep.
        destruct (file z (appDir ++ lit "Info.plist")) as [[buf|e1]|].
        - destruct (_parsePlist _ _ _ _ _ _) as [[plist|e1]|].
          + destruct (_extractPlistInfo plist blank) as [fields' [hints'|e1]];
              injection Hstep as _ <- Herr; [discriminate|].
            apply elem_of_nil in Hh. exact Hh.
          + injection Hstep as _ <- _. apply elem_of_nil in Hh. exact Hh.
          + discriminate.
        - injection Hstep as _ <- _. apply elem_of_nil in Hh. exact Hh.
        - injection Hstep as _ <- _. apply elem_of_nil in Hh. exact Hh. }
      exists fields, hints, h, sfx. auto.
    + rewrite <- plist_step_none. unfold run, parse. cbv zeta. rewrite Hfind. fold step.
      destruct (step depth z appDir) as [[[fields hints] err]|] eqn:Hstep; [|tauto].
      split; [|discriminate].
      destruct (_extractIcon _ _ _ _ _ _ _); [|discriminate].
      destruct (provisioning_step _ _ _ _); discriminate.
Qed.
End IpaFatal.

Section IpaExamples.
Import JS Text Archive IPAParser Fixtures.

(** Files below Payload/Foo.app/ without an entry for the directory are
    fatal.  With the entry, an Info.plist of no known format is only
    recorded; with a plist whose icon hint is a string, an icon entry and
    a provisioning profile that cannot be read leave the BuildInfo
    returned; with a hint that cannot be converted to a string, [parse]
    is rejected with the exception of the conversion. *)
Lemma missing_app_directory_is_fatal_witness :
  ipa_parse [] 1 ipa_file ipa_without_directory = Some (Throw NoAppBundle) /\
  (exists info,
     ipa_parse [Shadowed] 1 ipa_file ipa_with_directory = Some (Ok info) /\
     _plistError unit unit info = Some (Error "Unknown plist format")) /\
  (exists info,
     ipa_parse [Name (lit "AppIcon")] 1 ipa_file ipa_with_plist = Some (Ok info) /\
     _plistError unit unit info = None /\
     icon unit unit info = None /\
     hasProvisioning unit unit info = true /\
     provisioningInfo unit unit info = None) /\
  ipa_parse [Shadowed] 1 ipa_file ipa_with_plist
  = Some (Throw (Error "Cannot convert object to primitive value")).
Proof.
  split; [|split; [|split]].
  - destruct (missing_app_directory_is_fatal unit unit unit hint tt (fun _ => tt)
                (fun _ => Ok tt) (fun _ fields => (fields, Ok [])) hint_plus
                (fun _ => None) (fun _ => Ok None) RangeError
                1%nat ipa_file ipa_without_directory) as (H & _).
    apply H. intros k Hk. apply list_elem_of_In in Hk. cbn in Hk.
    destruct Hk as [<-|[<-|[]]]; vm_compute; reflexivity.
  - destruct (missing_app_directory_is_fatal unit unit unit hint tt (fun _ => tt)
                (fun _ => Ok tt) (fun _ fields => (fields, Ok [Shadowed])) hint_plus
                (fun _ => None) (fun _ => Ok None) RangeError
                1%nat ipa_file ipa_with_directory) as (_ & H & _).
    destruct H as (appDir & Hfind & _ & _ & Hfail & _).
    { exists (lit "Payload/Foo.APP/"). split.
      - apply list_elem_of_In. cbn. auto.
      - vm_compute. reflexivity. }
    injection Hfind as <-.
    apply (Hfail (Error "Unknown plist format")).
    right. exists [0; 1; 2]. split; [vm_compute; reflexivity|].
    left. vm_compute. reflexivity.
  - destruct (missing_app_directory_is_fatal unit unit unit hint tt (fun _ => tt)
                (fun _ => Ok tt) (fun _ fields => (fields, Ok [Name (lit "AppIcon")]))
                hint_plus (fun _ => None) (fun _ => Ok None) RangeError
                1%nat ipa_file ipa_with_plist) as (_ & H & _).
    destruct H as (appDir & Hfind & _ & _ & _ & Hstep & _).
    { exists (lit "Payload/Foo.APP/"). split.
      - apply list_elem_of_In. cbn. auto.
      - vm_compute. reflexivity. }
    injection Hfind as <-.
    destruct (Hstep tt [Name (lit "AppIcon")] None) as (Hret & _);
      [vm_compute; reflexivity|].
    destruct (Hret _ eq_refl) as (info & Hp & He & _ & _ & _ & Hprov).
    exists info. split; [exact Hp|]. split; [exact He|].
    split.
    + vm_compute in Hp. injection Hp as <-. reflexivity.
    + apply Hprov. exists (Error "invalid stored block lengths"). left.
      vm_compute. reflexivity.
  - destruct (missing_app_directory_is_fatal unit unit unit hint tt (fun _ => tt)
                (fun _ => Ok tt) (fun _ fields => (fields, Ok [Shadowed]))
                hint_plus (fun _ => None) (fun _ => Ok None) RangeError
                1%nat ipa_file ipa_with_plist) as (_ & H & _).
    destruct H as (appDir & Hfind & _ & _ & _ & Hstep & _).
    { exists (lit "Payload/Foo.APP/"). split.
      - apply list_elem_of_In. cbn. auto.
      - vm_compute. reflexivity. }
    injection Hfind as <-.
    destruct (Hstep tt [Shadowed] None) as (_ & Hthrow); [vm_compute; reflexivity|].
    apply Hthrow. reflexivity.
Defined.
End IpaExamples.
